(** * goping: request coordinator and ICMP transport

    A shallow embedding of the two Go packages of the repository:

    - package [goping] (goping.go): [Config], [Request], [Response],
      [NewRequest] and the coordinator started by [Start];
    - package [ggping]: the raw-socket transport, with its listener
      ([runListener]), its select loop ([coordinator]) and [sendMessage].

    Go values are modelled as follows.  [int] is a 64-bit two's complement
    integer kept in [Z], with the wrap-around written out ([int_wrap]);
    [uint64] likewise ([uint64_wrap]).  [time.Time] and [time.Duration] are
    nanosecond counts in [Z].  [error] is [option string], [None] being
    [nil].  A map is a [gmap].  Goroutines are small programs stepped by a
    scheduler; a channel operation is one step of such a program. *)

From Stdlib Require Import ZArith QArith Lia.
From stdpp Require Import gmap strings list fin_maps.

Local Open Scope Z_scope.

(** ** Go base types *)

Definition error : Type := option string.

Definition errors_New (msg : string) : error := Some msg.

(** [int] on a 64-bit platform. *)
Definition int_wrap (z : Z) : Z := (z + 2 ^ 63) `mod` 2 ^ 64 - 2 ^ 63.

Definition uint64_wrap (z : Z) : Z := z `mod` 2 ^ 64.

Arguments int_wrap : simpl never.
Arguments uint64_wrap : simpl never.

(** A [float64] that is either NaN or a finite value.  A finite value is
    the rational that the binary64 denotes; the conversions and the
    division below round to the nearest binary64 as Go does. *)
Inductive float64 : Type :=
| NaN
| Fin (q : Q).

(** Rounding [n / d] to the nearest integer, ties to even, for [0 <= n]
    and [0 < d]. *)
Definition round_half_even (n d : Z) : Z :=
  let q := n / d in
  let r := n `mod` d in
  if 2 * r <? d then q
  else if d <? 2 * r then q + 1
  else if Z.even q then q else q + 1.

(** The binary64 nearest to the rational [n / d], for [0 < n] and
    [0 < d]: [m * 2 ^ e] with a mantissa [m] of 53 bits, rounded to even
    on a tie, and an exponent [e] that does not go below -1074, where
    the subnormals keep their spacing.  [2 ^ E] is the power of two at
    or below [n / d], read off the integer part of [n / d] scaled by
    [2 ^ 1200].  The code rounds integers of 64 bits and their quotients
    by a million only, which stay far below the largest binary64, so
    the overflow to infinity is left out. *)
Definition float64_round_pos (n d : Z) : Q :=
  let E := Z.log2 (n * 2 ^ 1200 / d) - 1200 in
  let e := Z.max (E - 52) (- 1074) in
  if 0 <=? e
  then inject_Z (round_half_even n (d * 2 ^ e) * 2 ^ e)
  else Qmake (round_half_even (n * 2 ^ (- e)) d) (Z.to_pos (2 ^ (- e))).

(** Round to nearest, ties to even, the rounding of every conversion
    and operation on [float64]. *)
Definition float64_round (q : Q) : Q :=
  match Qnum q with
  | Z0 => 0%Q
  | Zpos n => float64_round_pos (Zpos n) (Zpos (Qden q))
  | Zneg n => Qopp (float64_round_pos (Zpos n) (Zpos (Qden q)))
  end.

(** [float64(z)] for an integer [z]. *)
Definition float64_of_int (z : Z) : Q := float64_round (inject_Z z).

(** [x / y] on finite [float64] values, [y] not zero. *)
Definition float64_div (x y : Q) : Q := float64_round (x / y).

(** [Request.Sent] is a [float64] that only ever holds a count: the factory
    leaves it at 0 and [recv.Sent++] is its only writer.  It is kept as the
    integer it denotes.  In binary64 every integer up to [2 ^ 53] is
    representable, so adding 1 is exact below [2 ^ 53]; [2 ^ 53 + 1] is not
    representable and rounds (to even) back to [2 ^ 53]. *)
Definition float64_incr (s : Z) : Z :=
  if s <? 2 ^ 53 then s + 1 else s.

(** [int(f)] for a [float64] holding a count. *)
Definition float64_to_int (s : Z) : Z := int_wrap s.

(** ** The parts of golang.org/x/net that the code names *)

Module icmp.

Record Echo : Type := {
  ID : Z;
  Seq : Z;
  Data : list Byte.byte
}.

(** [MessageBody] is an interface: [nil], an [*Echo], or another body. *)
Inductive MessageBody : Type :=
| NilBody
| EchoBody (e : Echo)
| OtherBody (data : list Byte.byte).

(** [Type] is an interface holding an [ipv4.ICMPType] (an [int]);
    [None] is the nil interface of a zero [Message]. *)
Record Message : Type := {
  Type_ : option Z;
  Code : Z;
  Checksum : Z;
  Body : MessageBody
}.

Definition zero : Message :=
  {| Type_ := None; Code := 0; Checksum := 0; Body := NilBody |}.

End icmp.

Module ipv4.

Definition ICMPTypeEchoReply : Z := 0.
Definition ICMPTypeDestinationUnreachable : Z := 3.
Definition ICMPTypeRedirect : Z := 5.
Definition ICMPTypeEcho : Z := 8.
Definition ICMPTypeTimeExceeded : Z := 11.
Definition ICMPTypeParameterProblem : Z := 12.

End ipv4.

(** ** Package goping *)

Module goping.

Record Config : Type := {
  Count : Z;
  Interval : Z;
  Timeout : Z;
  TOS : Z;
  TTL : Z;
  PacketSize : Z
}.

Record Request : Type := {
  Id : Z;
  Host : string;
  ReqConfig : Config;
  UserData : gmap string string;
  Sent : Z
}.

Record RawResponse : Type := {
  RTT : float64;
  From : list Byte.byte;
  ICMPMessage : icmp.Message
}.

Record Response : Type := {
  RespRequest : Request;
  Seq : Z;
  Err : error;
  Raw : RawResponse
}.

Definition set_Sent (r : Request) (s : Z) : Request :=
  {| Id := Id r; Host := Host r; ReqConfig := ReqConfig r;
     UserData := UserData r; Sent := s |}.

Definition set_Err (resp : Response) (e : error) : Response :=
  {| RespRequest := RespRequest resp; Seq := Seq resp; Err := e;
     Raw := Raw resp |}.

Definition set_Raw (resp : Response) (r : RawResponse) : Response :=
  {| RespRequest := RespRequest resp; Seq := Seq resp; Err := Err resp;
     Raw := r |}.

(** The receiver of [NewRequest]: the fields of [goping] that it reads
    and writes. *)
Record goping : Type := {
  idGen : Z;
  cfg : Config
}.

Definition New (c : Config) : goping := {| idGen := 0; cfg := c |}.

(** [NewRequest]: [atomic.AddUint64(&g.idGen, 1)] and a copy of the
    configuration.  Returns the request and the updated receiver. *)
Definition NewRequest (g : goping) (hostname : string)
    (userData : gmap string string) : Request * goping :=
  let id := uint64_wrap (idGen g + 1) in
  ({| Id := id; Host := hostname; ReqConfig := cfg g;
      UserData := userData; Sent := 0 |},
   {| idGen := id; cfg := cfg g |}).

(** *** Goroutines of [Start]

    Every goroutine that [Start] spawns is a straight-line sequence of
    blocking operations; [goroutine] is that sequence, one constructor
    per operation, the rest of the goroutine as continuation. *)

(** The case that the [select] of lines 148-168 takes. *)
Inductive selected : Type :=
| SelTimeout
| SelFuture (r : RawResponse).

Inductive goroutine : Type :=
| GoSelect (timeout : Z) (k : selected → goroutine)
| GoSendOut (resp : Response) (k : goroutine)
| GoTimer (d : Z) (k : goroutine)
| GoSendPin (recv : Request) (k : goroutine)
| GoWgDone (k : goroutine)
| GoSendDoneIn (k : goroutine)
| GoWgWait (k : goroutine)
| GoCloseOut (k : goroutine)
| GoSendDone (k : goroutine)
| GoEnd.

(** The [switch r.ICMPMessage.Type] of lines 153-167: the error that a
    delivered reply leaves in [resp.Err], which is [nil] before it. *)
Definition classify (t : option Z) : error :=
  if decide (t = Some ipv4.ICMPTypeEcho) then None
  else if decide (t = Some ipv4.ICMPTypeEchoReply) then None
  else if decide (t = Some ipv4.ICMPTypeDestinationUnreachable)
    then errors_New "Destination Unreachable"
  else if decide (t = Some ipv4.ICMPTypeTimeExceeded)
    then errors_New "Time Exceeded"
  else if decide (t = Some ipv4.ICMPTypeParameterProblem)
    then errors_New "Parameter Problem"
  else if decide (t = Some ipv4.ICMPTypeRedirect)
    then errors_New "Redirect"
  else errors_New "uncategorized ICMP RAW Response Type".

(** Lines 148-168: the body of the [select], applied to the response
    built at lines 136-141. *)
Definition selectBody (resp : Response) (s : selected) : Response :=
  match s with
  | SelTimeout => set_Err resp (errors_New "Timeout")
  | SelFuture r =>
      let resp := set_Raw resp r in
      match classify (icmp.Type_ (ICMPMessage r)) with
      | None => resp
      | Some e => set_Err resp (Some e)
      end
  end.

(** Lines 174-181: after the response is out, the job is done or the
    request goes back to [pin] once the interval has passed. *)
Definition afterOut (recv : Request) : goroutine :=
  if (0 <=? Count (ReqConfig recv))
     && (Count (ReqConfig recv) <=? float64_to_int (Sent recv))
  then GoWgDone GoEnd
  else GoTimer (Interval (ReqConfig recv)) (GoSendPin recv GoEnd).

(** Lines 133-182: the goroutine of one attempt. *)
Definition attempt (recv : Request) (seq : Z) (err : error) : goroutine :=
  let resp :=
    {| RespRequest := recv; Seq := seq; Err := err;
       Raw := {| RTT := NaN; From := []; ICMPMessage := icmp.zero |} |} in
  match Err resp with
  | None =>
      GoSelect (Timeout (ReqConfig recv))
        (λ s, GoSendOut (selectBody resp s) (afterOut recv))
  | Some _ => GoSendOut resp (afterOut recv)
  end.

(** *** The coordinator of [Start]

    The state that the goroutines of [Start] share.  [in_nil] says
    that the loop has set its [in] to [nil]; [gos] holds every
    goroutine spawned so far, at the operation it is about to
    perform; [out] is what the caller has received from the response
    channel.  A panic of any goroutine ends the process. *)
Record state : Type := {
  in_nil : bool;
  wg : Z;
  gos : list goroutine;
  out : list Response;
  out_closed : bool;
  returned : bool;
  panicked : bool
}.

Definition init : state :=
  {| in_nil := false; wg := 0; gos := []; out := [];
     out_closed := false; returned := false; panicked := false |}.

Definition set_in_nil (st : state) : state :=
  {| in_nil := true; wg := wg st; gos := gos st; out := out st;
     out_closed := out_closed st; returned := returned st;
     panicked := panicked st |}.

Definition set_wg (st : state) (n : Z) : state :=
  {| in_nil := in_nil st; wg := n; gos := gos st; out := out st;
     out_closed := out_closed st; returned := returned st;
     panicked := panicked st |}.

Definition set_gos (st : state) (gs : list goroutine) : state :=
  {| in_nil := in_nil st; wg := wg st; gos := gs; out := out st;
     out_closed := out_closed st; returned := returned st;
     panicked := panicked st |}.

Definition set_out (st : state) (rs : list Response) : state :=
  {| in_nil := in_nil st; wg := wg st; gos := gos st; out := rs;
     out_closed := out_closed st; returned := returned st;
     panicked := panicked st |}.

Definition set_out_closed (st : state) : state :=
  {| in_nil := in_nil st; wg := wg st; gos := gos st; out := out st;
     out_closed := true; returned := returned st;
     panicked := panicked st |}.

Definition set_returned (st : state) : state :=
  {| in_nil := in_nil st; wg := wg st; gos := gos st; out := out st;
     out_closed := out_closed st; returned := true;
     panicked := panicked st |}.

Definition panic (st : state) : state :=
  {| in_nil := in_nil st; wg := wg st; gos := gos st; out := out st;
     out_closed := out_closed st; returned := returned st;
     panicked := true |}.

(** [go f()] *)
Definition spawn (g : goroutine) (st : state) : state :=
  set_gos st (gos st ++ [g]).

(** Goroutine [i] goes on as [k]. *)
Definition continue (i : nat) (k : goroutine) (st : state) : state :=
  set_gos st (<[i := k]> (gos st)).

(** The goroutine of lines 185-189. *)
Definition closer : goroutine :=
  GoWgWait (GoCloseOut (GoSendDone GoEnd)).

(** What can happen next.  The first five are the cases of the loop's
    [select]; a channel receive names the goroutine whose send it
    takes.  [PinRecv] carries the [seq] and [err] that
    [g.pinger.Ping(recv)] returns; [RunSelect] carries the case that the
    attempt's [select] takes.  [Run i] lets goroutine [i] perform its
    next operation when that is a send on [out] (the caller receives), a
    timer, or an operation on the wait group or on [out]. *)
Inductive event : Type :=
| InRecv (recv : Request)
| InClosed
| PinRecv (i : nat) (seq : Z) (err : error)
| DoneInRecv (i : nat)
| DoneRecv (i : nat)
| RunSelect (i : nat) (s : selected)
| Run (i : nat).

(** Lines 113-122: [wg.Add(1)], then [wg.Done()] for a count of 0 and a
    goroutine that sends the request to [pin] otherwise. *)
Definition accept (recv : Request) (st : state) : state :=
  let st := set_wg st (wg st + 1) in
  if Count (ReqConfig recv) =? 0
  then set_wg st (wg st - 1)
  else spawn (GoSendPin recv GoEnd) st.

(** Lines 126-182: the counter goes up, the pinger is called, and the
    attempt gets its goroutine. *)
Definition dispatch (recv : Request) (seq : Z) (err : error)
    (st : state) : state :=
  let recv := set_Sent recv (float64_incr (Sent recv)) in
  spawn (attempt recv seq err) st.

Definition run_goroutine (i : nat) (st : state) : option state :=
  match gos st !! i with
  | Some (GoSendOut resp k) =>
      if out_closed st then Some (panic st)
      else Some (continue i k (set_out st (out st ++ [resp])))
  | Some (GoTimer _ k) => Some (continue i k st)
  | Some (GoWgDone k) =>
      if wg st - 1 <? 0 then Some (panic st)
      else Some (continue i k (set_wg st (wg st - 1)))
  | Some (GoWgWait k) =>
      if wg st =? 0 then Some (continue i k st) else None
  | Some (GoCloseOut k) =>
      if out_closed st then Some (panic st)
      else Some (continue i k (set_out_closed st))
  | _ => None
  end.

(** One step; [None] when the event cannot happen in [st]. *)
Definition step (st : state) (e : event) : option state :=
  if panicked st then None else
  match e with
  | InRecv recv =>
      if returned st || in_nil st then None
      else Some (accept recv st)
  | InClosed =>
      if returned st || in_nil st then None
      else Some (spawn (GoSendDoneIn GoEnd) (set_in_nil st))
  | PinRecv i seq err =>
      match gos st !! i with
      | Some (GoSendPin recv k) =>
          if returned st then None
          else Some (dispatch recv seq err (continue i k st))
      | _ => None
      end
  | DoneInRecv i =>
      match gos st !! i with
      | Some (GoSendDoneIn k) =>
          if returned st then None
          else Some (spawn closer (continue i k st))
      | _ => None
      end
  | DoneRecv i =>
      match gos st !! i with
      | Some (GoSendDone k) =>
          if returned st then None
          else Some (set_returned (continue i k st))
      | _ => None
      end
  | RunSelect i s =>
      match gos st !! i with
      | Some (GoSelect _ k) => Some (continue i (k s) st)
      | _ => None
      end
  | Run i => run_goroutine i st
  end.

Fixpoint run (st : state) (evs : list event) : option state :=
  match evs with
  | [] => Some st
  | e :: evs =>
      match step st e with
      | Some st => run st evs
      | None => None
      end
  end.

(** The case that the [select] of an attempt can take when the reply,
    if any, is on [future] a time [d] after the [select] starts: the
    earlier of the two channels wins, and either may when both are ready
    at the same instant. *)
Definition select_takes (timeout : Z) (reply : option (Z * RawResponse))
    (s : selected) : Prop :=
  match s with
  | SelTimeout =>
      match reply with
      | None => True
      | Some (d, _) => timeout <= d
      end
  | SelFuture r => ∃ d, reply = Some (d, r) ∧ d <= timeout
  end.

(** *** Predicates on the states of [Start] *)

(** The [RawResponse] of line 140. *)
Definition untouched : RawResponse :=
  {| RTT := NaN; From := []; ICMPMessage := icmp.zero |}.

Definition count_gos (f : goroutine → bool) (gs : list goroutine) : Z :=
  Z.of_nat (length (List.filter f gs)).

(** The goroutines that hold a unit of the wait group: the one that
    carries a request to [pin] and the one of an attempt. *)
Definition owes (g : goroutine) : bool :=
  match g with
  | GoSelect _ _ | GoSendOut _ _ | GoTimer _ _ | GoSendPin _ _
  | GoWgDone _ => true
  | _ => false
  end.

(** The goroutines that the close of the sink sets off, one after the
    other. *)
Definition closing (g : goroutine) : bool :=
  match g with
  | GoSendDoneIn _ | GoWgWait _ | GoCloseOut _ | GoSendDone _ => true
  | _ => false
  end.

Definition past_wait (g : goroutine) : bool :=
  match g with
  | GoCloseOut _ | GoSendDone _ => true
  | _ => false
  end.

Definition sends_done (g : goroutine) : bool :=
  match g with
  | GoSendDone _ => true
  | _ => false
  end.

(** The shapes that a goroutine of [Start] can have. *)
Inductive wf_go : goroutine → Prop :=
| wf_pin recv : wf_go (GoSendPin recv GoEnd)
| wf_timer d recv : wf_go (GoTimer d (GoSendPin recv GoEnd))
| wf_select t k recv :
    (∀ s, ∃ resp, k s = GoSendOut resp (afterOut recv)) →
    wf_go (GoSelect t k)
| wf_out resp recv : wf_go (GoSendOut resp (afterOut recv))
| wf_wgdone : wf_go (GoWgDone GoEnd)
| wf_doneIn : wf_go (GoSendDoneIn GoEnd)
| wf_wgwait : wf_go closer
| wf_closeout : wf_go (GoCloseOut (GoSendDone GoEnd))
| wf_senddone : wf_go (GoSendDone GoEnd)
| wf_end : wf_go GoEnd.

(** The invariant of [Start]: no goroutine has panicked, the wait
    group counts the goroutines that still owe a [wg.Done], at most
    one goroutine is busy with the close of [out], and [out] is closed
    only once the wait group is at zero. *)
Record safe (st : state) : Prop := {
  safe_panicked : panicked st = false;
  safe_wf : Forall wf_go (gos st);
  safe_wg : wg st = count_gos owes (gos st);
  safe_token :
    count_gos closing (gos st) + Z.b2z (returned st)
    = Z.b2z (in_nil st);
  safe_zero :
    1 <= count_gos past_wait (gos st) + Z.b2z (returned st) → wg st = 0;
  safe_closed :
    out_closed st
    = (1 <=? count_gos sends_done (gos st) + Z.b2z (returned st))
}.

(** A request whose job never ends: its count is negative, or beyond
    what its [float64] counter can reach. *)
Definition endless (recv : Request) : Prop :=
  Count (ReqConfig recv) < 0
  ∨ (0 <= Sent recv <= 2 ^ 53 ∧ 2 ^ 53 < Count (ReqConfig recv)).

(** Goroutine [g] serves the request [recv0], whose [Sent] may have
    moved on, and that request is endless. *)
Inductive endless_go (recv0 : Request) : goroutine → Prop :=
| endless_pin s :
    endless (set_Sent recv0 s) →
    endless_go recv0 (GoSendPin (set_Sent recv0 s) GoEnd)
| endless_timer d s :
    endless (set_Sent recv0 s) →
    endless_go recv0 (GoTimer d (GoSendPin (set_Sent recv0 s) GoEnd))
| endless_select t k s :
    endless (set_Sent recv0 s) →
    (∀ sel, ∃ resp,
        k sel = GoSendOut resp (afterOut (set_Sent recv0 s))
        ∧ RespRequest resp = set_Sent recv0 s) →
    endless_go recv0 (GoSelect t k)
| endless_out resp s :
    endless (set_Sent recv0 s) →
    RespRequest resp = set_Sent recv0 s →
    endless_go recv0 (GoSendOut resp (afterOut (set_Sent recv0 s))).

(** Some goroutine of [st] serves the endless request [recv0]. *)
Definition serves_endless (recv0 : Request) (st : state) : Prop :=
  ∃ i g, gos st !! i = Some g ∧ endless_go recv0 g.

(** The number of requests that the loop has taken from [pin]. *)
Definition dispatched (evs : list event) : nat :=
  length (List.filter
            (λ e, match e with PinRecv _ _ _ => true | _ => false end)
            evs).

(** *** Counting the responses of bounded requests *)

(** The responses that goroutine [g] has yet to send for a request that
    satisfies [P]: the attempts that are left of its count. *)
Fixpoint owed (P : Request → bool) (g : goroutine) : Z :=
  match g with
  | GoSendPin recv _ =>
      if P recv then Count (ReqConfig recv) - Sent recv else 0
  | GoTimer _ k => owed P k
  | GoSelect _ k => owed P (k SelTimeout)
  | GoSendOut resp _ =>
      if P (RespRequest resp)
      then Count (ReqConfig (RespRequest resp)) - Sent (RespRequest resp) + 1
      else 0
  | _ => 0
  end.

(** What all goroutines together have yet to send. *)
Definition total_owed (P : Request → bool) (gs : list goroutine) : Z :=
  foldr (λ g n, owed P g + n) 0 gs.

(** The responses in [rs] whose request satisfies [P]. *)
Definition answered (P : Request → bool) (rs : list Response) : Z :=
  Z.of_nat (length (List.filter (λ resp, P (RespRequest resp)) rs)).

(** The sum of the counts of the accepted requests that satisfy [P]. *)
Definition asked (P : Request → bool) (evs : list event) : Z :=
  foldr (λ e n,
           match e with
           | InRecv recv => if P recv then Count (ReqConfig recv) else 0
           | _ => 0
           end + n) 0 evs.

(** An accepted request that satisfies [P] comes from [NewRequest], with
    nothing sent yet, and its count is one that its [float64] counter can
    reach. *)
Definition from_factory (P : Request → bool) (e : event) : Prop :=
  match e with
  | InRecv recv =>
      P recv = true →
      Sent recv = 0 ∧ 0 <= Count (ReqConfig recv) <= 2 ^ 53
  | _ => True
  end.

(** The counter of the request that [g] serves is within its count. *)
Inductive within_count (P : Request → bool) : goroutine → Prop :=
| within_pin recv :
    (P recv = true →
     0 <= Sent recv < Count (ReqConfig recv)
     ∧ Count (ReqConfig recv) <= 2 ^ 53) →
    within_count P (GoSendPin recv GoEnd)
| within_timer d recv :
    (P recv = true →
     0 <= Sent recv < Count (ReqConfig recv)
     ∧ Count (ReqConfig recv) <= 2 ^ 53) →
    within_count P (GoTimer d (GoSendPin recv GoEnd))
| within_select t k recv :
    (∀ s, ∃ resp, k s = GoSendOut resp (afterOut recv)
                  ∧ RespRequest resp = recv) →
    (P recv = true →
     1 <= Sent recv <= Count (ReqConfig recv)
     ∧ Count (ReqConfig recv) <= 2 ^ 53) →
    within_count P (GoSelect t k)
| within_out resp :
    (P (RespRequest resp) = true →
     1 <= Sent (RespRequest resp) <= Count (ReqConfig (RespRequest resp))
     ∧ Count (ReqConfig (RespRequest resp)) <= 2 ^ 53) →
    within_count P (GoSendOut resp (afterOut (RespRequest resp)))
| within_other g : owes g = false → within_count P g
| within_wgdone : within_count P (GoWgDone GoEnd).

(** The books balance: what is still owed and what has come out add up
    to [a], the sum of the counts accepted so far. *)
Record accounted (P : Request → bool) (a : Z) (st : state) : Prop := {
  accounted_within : Forall (within_count P) (gos st);
  accounted_sum : total_owed P (gos st) + answered P (out st) = a
}.

(** The requests with identifier [id]. *)
Definition has_id (id : Z) (recv : Request) : bool :=
  bool_decide (Id recv = id).

(** An event that does not accept a request with identifier [id]. *)
Definition other_id (id : Z) (e : event) : Prop :=
  match e with
  | InRecv recv => Id recv ≠ id
  | _ => True
  end.

(** *** Requests and their responses *)

(** Calls of [NewRequest] in a row, one for each host and its data. *)
Fixpoint NewRequests (g : goping) (jobs : list (string * gmap string string))
    : list Request * goping :=
  match jobs with
  | [] => ([], g)
  | (hostname, userData) :: jobs =>
      let '(r, g) := NewRequest g hostname userData in
      let '(rs, g) := NewRequests g jobs in
      (r :: rs, g)
  end.

(** The requests that the loop has accepted, in order. *)
Definition accepted (evs : list event) : list Request :=
  omap (λ e, match e with InRecv recv => Some recv | _ => None end) evs.

(** The request that goroutine [g] carries, if it serves one. *)
Fixpoint job_of (g : goroutine) : option Request :=
  match g with
  | GoSendPin recv _ => Some recv
  | GoTimer _ k => job_of k
  | GoSelect _ k => job_of (k SelTimeout)
  | GoSendOut resp _ => Some (RespRequest resp)
  | _ => None
  end.

(** 1 when the attempt of [g] is counted in [Sent] and its response is
    not out yet. *)
Definition in_flight (g : goroutine) : Z :=
  match g with
  | GoSelect _ _ | GoSendOut _ _ => 1
  | _ => 0
  end.

(** Goroutine [g] serves the request with identifier [id]. *)
Definition serves (id : Z) (g : goroutine) : bool :=
  match job_of g with
  | Some recv => has_id id recv
  | None => false
  end.

(** [Sent] after [k] increments from 0. *)
Definition capped (k : Z) : Z := Z.min k (2 ^ 53).

(** Goroutine [g] carries [recv] with the count of the responses of
    [recv] in [rs], plus one when its attempt is under way. *)
Definition tracks (recv : Request) (rs : list Response) (g : goroutine)
    : Prop :=
  ∀ r, job_of g = Some r → has_id (Id recv) r = true →
       r = set_Sent recv
             (capped (answered (has_id (Id recv)) rs + in_flight g)).

(** The responses of [recv] are numbered in the order they came out, at
    most one goroutine serves [recv], and it carries the count of the
    responses that are out. *)
Record in_order (recv : Request) (st : state) : Prop := {
  in_order_out :
    ∀ k resp,
      List.filter (λ resp, has_id (Id recv) (RespRequest resp)) (out st) !! k
      = Some resp →
      RespRequest resp = set_Sent recv (capped (Z.of_nat k + 1));
  in_order_one : count_gos (serves (Id recv)) (gos st) <= 1;
  in_order_job : Forall (tracks recv (out st)) (gos st)
}.

(** *** Responses and the answers of the pinger *)

(** The attempts that the loop starts on the run of [evs] from [st],
    each with the index of its goroutine and the [seq] and [err] that
    its call of [g.pinger.Ping] returned. *)
Fixpoint attempts (st : state) (evs : list event)
    : list (nat * Z * error) :=
  match evs with
  | [] => []
  | e :: evs =>
      match step st e with
      | Some st' =>
          match e with
          | PinRecv _ seq err => [(length (gos st), seq, err)]
          | _ => []
          end ++ attempts st' evs
      | None => []
      end
  end.

(** The cases that the selects of the attempts have taken, each with
    the index of its goroutine. *)
Definition selects (evs : list event) : list (nat * selected) :=
  omap (λ e, match e with
             | RunSelect i s => Some (i, s)
             | _ => None
             end) evs.

(** [resp] is what the attempt of goroutine [j] makes of the [seq] and
    [err] that the pinger returned and of the case that its select took:
    the error of the pinger, or a timeout, or the reply that the select
    took from [future] with the error that belongs to its type. *)
Definition made_of (S : list (nat * selected)) (j : nat) (seq : Z)
    (err : error) (resp : Response) : Prop :=
  Seq resp = seq
  ∧ match err with
    | Some e => Err resp = Some e ∧ Raw resp = untouched
    | None =>
        ((j, SelTimeout) ∈ S
         ∧ Err resp = errors_New "Timeout" ∧ Raw resp = untouched)
        ∨ ∃ r, (j, SelFuture r) ∈ S
               ∧ Raw resp = r
               ∧ Err resp = classify (icmp.Type_ (ICMPMessage r))
    end.

(** The attempt of [g] has its response yet to send. *)
Definition under_way (g : goroutine) : bool :=
  match g with
  | GoSelect _ _ | GoSendOut _ _ => true
  | _ => false
  end.

(** The response that goroutine [j], which is [g], is going to send is
    made of an answer of the pinger in [L] and, after its select, of
    the case in [S] that the select took. *)
Definition answers (L : list (nat * Z * error)) (S : list (nat * selected))
    (j : nat) (g : goroutine) : Prop :=
  match g with
  | GoSelect _ k =>
      ∃ seq, (j, seq, None) ∈ L
             ∧ ∀ s, ∃ resp rest,
                 k s = GoSendOut resp rest
                 ∧ Seq resp = seq
                 ∧ match s with
                   | SelTimeout =>
                       Err resp = errors_New "Timeout"
                       ∧ Raw resp = untouched
                   | SelFuture r =>
                       Raw resp = r
                       ∧ Err resp = classify (icmp.Type_ (ICMPMessage r))
                   end
  | GoSendOut resp _ =>
      ∃ seq err, (j, seq, err) ∈ L ∧ made_of S j seq err resp
  | _ => True
  end.

(** Every response, out or yet to come, is made of an answer of the
    pinger, and every answer of the pinger has one response, out or yet
    to come. *)
Record reported (L : list (nat * Z * error)) (S : list (nat * selected))
    (st : state) : Prop := {
  reported_gos : ∀ j g, gos st !! j = Some g → answers L S j g;
  reported_out :
    Forall (λ resp, ∃ j seq err, (j, seq, err) ∈ L ∧ made_of S j seq err resp)
      (out st);
  reported_each :
    Z.of_nat (length (out st)) + count_gos under_way (gos st)
    = Z.of_nat (length L)
}.

End goping.

(** ** Package ggping: the transport *)

Module ggping.

Definition IPAddr : Type := list Byte.byte.

(** What the transport takes from its platform: the process id
    ([os.Getpid]) and the codec of golang.org/x/net/icmp,
    [Message.Marshal] and [ParseMessage], [None] being an error. *)
Class Platform : Type := {
  Getpid : Z;
  Marshal : icmp.Message → option (list Byte.byte);
  ParseMessage : Z → list Byte.byte → option icmp.Message
}.

Record Pong : Type := {
  Rtt : float64;
  Err : error
}.

Record Ping : Type := {
  To : string;
  Timeout : Z;
  EchoMap : gmap string string;
  When : Z;
  Seq : Z;
  PingPong : Pong;
  EchoChannel : option nat;
  pongchan : option nat
}.

Record rawIcmp : Type := {
  when : Z;
  size : Z;
  peer : IPAddr;
  bytes : list Byte.byte;
  cm : option (list Byte.byte);
  message : option icmp.Echo;
  err : error
}.

Definition set_When (pi : Ping) (t : Z) : Ping :=
  {| To := To pi; Timeout := Timeout pi; EchoMap := EchoMap pi;
     When := t; Seq := Seq pi; PingPong := PingPong pi;
     EchoChannel := EchoChannel pi; pongchan := pongchan pi |}.

Definition set_Seq (pi : Ping) (s : Z) : Ping :=
  {| To := To pi; Timeout := Timeout pi; EchoMap := EchoMap pi;
     When := When pi; Seq := s; PingPong := PingPong pi;
     EchoChannel := EchoChannel pi; pongchan := pongchan pi |}.

Definition set_Pong (pi : Ping) (p : Pong) : Ping :=
  {| To := To pi; Timeout := Timeout pi; EchoMap := EchoMap pi;
     When := When pi; Seq := Seq pi; PingPong := p;
     EchoChannel := EchoChannel pi; pongchan := pongchan pi |}.

Definition set_pongchan (pi : Ping) (c : nat) : Ping :=
  {| To := To pi; Timeout := Timeout pi; EchoMap := EchoMap pi;
     When := When pi; Seq := Seq pi; PingPong := PingPong pi;
     EchoChannel := EchoChannel pi; pongchan := Some c |}.

(** [t.Sub(u)]: the difference, kept within the range of a
    [time.Duration]. *)
Definition time_Sub (t u : Z) : Z :=
  Z.max (- 2 ^ 63) (Z.min (2 ^ 63 - 1) (t - u)).

Definition Millisecond : Z := 1000000.

(** Line 118: [float64(pi.When.Sub(ri.when)) / float64(time.Millisecond)] *)
Definition rtt (pi : Ping) (ri : rawIcmp) : float64 :=
  Fin (float64_div (float64_of_int (time_Sub (When pi) (when ri)))
         (float64_of_int Millisecond)).

(** A process either goes on or has been ended by [log.Fatal], which
    writes its message and calls [os.Exit(1)]. *)
Inductive process (A : Type) : Type :=
| Running (a : A)
| Exited (status : Z) (logged : list string).

Arguments Running {A} a.
Arguments Exited {A} status logged.

Definition log_Fatal {A : Type} (msg : string) : process A :=
  Exited 1 [msg].

(** Lines 33-41 and 65-73: the socket is opened and configured.  The
    two arguments are the errors of [net.ListenPacket] and of
    [SetControlMessage]. *)
Definition openSocket (listen setControl : error) : process unit :=
  match listen with
  | Some e => log_Fatal ("Could not open raw socket ip4:icmp: %v" +:+ e)
  | None =>
      match setControl with
      | Some e => log_Fatal e
      | None => Running ()
      end
  end.

(** What one [p.ReadFrom(ri.bytes)] of the listener returns, with the
    time at which it returns. *)
Record read : Type := {
  read_buf : list Byte.byte;
  read_size : Z;
  read_cm : option (list Byte.byte);
  read_peer : IPAddr;
  read_err : error;
  read_now : Z
}.

(** Lines 43-57: the loop of the listener over the reads that the
    socket serves.  Every read that succeeds starts a goroutine (lines
    54-56) that holds a copy of the capture and calls [handleRawIcmp]
    with it; [started] collects these goroutines, by their captures, in
    the order in which the loop starts them.  When each of them runs is
    up to the scheduler ([runHandler] below): the loop does not call the
    handler itself.  When the reads run out the listener is blocked in
    [ReadFrom]. *)
Fixpoint listen (reads : list read) (started : list rawIcmp)
    : process (list rawIcmp) :=
  match reads with
  | [] => Running started
  | r :: reads =>
      match read_err r with
      | Some e => log_Fatal ("Could not read from socket: %v" +:+ e)
      | None =>
          let ri :=
            {| when := read_now r; size := read_size r;
               peer := read_peer r; bytes := read_buf r;
               cm := read_cm r; message := None; err := None |} in
          listen reads (started ++ [ri])
      end
  end.

Definition runListener (listenErr setControlErr : error)
    (reads : list read) : process (list rawIcmp) :=
  match openSocket listenErr setControlErr with
  | Exited status logged => Exited status logged
  | Running _ => listen reads []
  end.

(** A channel of captures: what is buffered and whether it is closed. *)
Record chan : Type := {
  buf : list rawIcmp;
  closed : bool
}.

(** The goroutines that the coordinator spawns: the one of lines
    115-125 waits on its [pongchan] and then hands the ping back; the
    one of lines 99-101 only hands it back. *)
Inductive goroutine : Type :=
| GoRecvPong (pi : Ping)
| GoSendEcho (pi : Ping)
| GoEnd.

(** What [sendMessage] meets outside the program: the result of
    [net.ResolveIPAddr], the clock, and whether [WriteTo] succeeds. *)
Record world : Type := {
  resolved : option IPAddr;
  now : Z;
  written : bool
}.

Record state : Type := {
  seq : Z;
  pingmap : gmap Z nat;
  chans : list chan;
  gos : list goroutine;
  sent : list (list Byte.byte * IPAddr);
  echoed : list Ping;
  logged : list string;
  panicked : bool
}.

Definition init : state :=
  {| seq := 0; pingmap := ∅; chans := []; gos := []; sent := [];
     echoed := []; logged := []; panicked := false |}.

Definition set_seq (st : state) (n : Z) : state :=
  {| seq := n; pingmap := pingmap st; chans := chans st; gos := gos st;
     sent := sent st; echoed := echoed st; logged := logged st;
     panicked := panicked st |}.

Definition set_pingmap (st : state) (m : gmap Z nat) : state :=
  {| seq := seq st; pingmap := m; chans := chans st; gos := gos st;
     sent := sent st; echoed := echoed st; logged := logged st;
     panicked := panicked st |}.

Definition set_chans (st : state) (cs : list chan) : state :=
  {| seq := seq st; pingmap := pingmap st; chans := cs; gos := gos st;
     sent := sent st; echoed := echoed st; logged := logged st;
     panicked := panicked st |}.

Definition set_gos (st : state) (gs : list goroutine) : state :=
  {| seq := seq st; pingmap := pingmap st; chans := chans st; gos := gs;
     sent := sent st; echoed := echoed st; logged := logged st;
     panicked := panicked st |}.

Definition set_sent (st : state) (ps : list (list Byte.byte * IPAddr))
    : state :=
  {| seq := seq st; pingmap := pingmap st; chans := chans st;
     gos := gos st; sent := ps; echoed := echoed st;
     logged := logged st; panicked := panicked st |}.

Definition set_echoed (st : state) (ps : list Ping) : state :=
  {| seq := seq st; pingmap := pingmap st; chans := chans st;
     gos := gos st; sent := sent st; echoed := ps;
     logged := logged st; panicked := panicked st |}.

Definition log (msg : string) (st : state) : state :=
  {| seq := seq st; pingmap := pingmap st; chans := chans st;
     gos := gos st; sent := sent st; echoed := echoed st;
     logged := logged st ++ [msg]; panicked := panicked st |}.

Definition panic (st : state) : state :=
  {| seq := seq st; pingmap := pingmap st; chans := chans st;
     gos := gos st; sent := sent st; echoed := echoed st;
     logged := logged st; panicked := true |}.

Definition spawn (g : goroutine) (st : state) : state :=
  set_gos st (gos st ++ [g]).

Section coordinator.

Context `{os : Platform}.

(** The echo request of lines 177-186. *)
Definition echoRequest (s : Z) : icmp.Message :=
  {| icmp.Type_ := Some ipv4.ICMPTypeEcho;
     icmp.Code := 0;
     icmp.Checksum := 0;
     icmp.Body :=
       icmp.EchoBody
         {| icmp.ID := Z.land Getpid 65535;
            icmp.Seq := s;
            icmp.Data := String.list_byte_of_string "HELLO-R-U-THERE" |} |}.

(** [sendMessage]: [pi] is passed by pointer, so the ping comes back
    with the [When] that was written to it; [socket] is what has
    been written to the connection. *)
Definition sendMessage (pi : Ping) (w : world)
    (socket : list (list Byte.byte * IPAddr))
    : Ping * list (list Byte.byte * IPAddr) * error :=
  match resolved w with
  | None =>
      (pi, socket, Some ("Could not resolve hostname: " +:+ To pi))
  | Some dst =>
      match Marshal (echoRequest (Seq pi)) with
      | None => (pi, socket, Some "Could not Marshall the icmp message")
      | Some wb =>
          let pi := set_When pi (now w) in
          if written w
          then (pi, socket ++ [(wb, dst)], None)
          else (pi, socket,
                Some "Could not send message through network")
      end
  end.

(** Lines 89-125, the case [pi := <-ping] of the loop: the states
    after each of its statements, in order: the counter, the send, and
    then either the hand-over of the failed ping (or the log line, whose
    text is shortened here), or the new channel, its registration and
    the goroutine that waits on it. *)
Definition casePing_points (st : state) (pi : Ping) (w : world)
    : list state :=
  let st1 := set_seq st (int_wrap (seq st + 1)) in
  let pi := set_Seq pi (seq st1) in
  let '(pi, socket, e) := sendMessage pi w (sent st1) in
  let st2 := set_sent st1 socket in
  match e with
  | Some _ =>
      let pi := set_Pong pi {| Rtt := Fin 0; Err := e |} in
      let st3 :=
        match EchoChannel pi with
        | Some _ => spawn (GoSendEcho pi) st2
        | None => log "Could not send ping" st2
        end in
      [st1; st2; st3]
  | None =>
      let c := length (chans st2) in
      let st3 := set_chans st2 (chans st2 ++ [{| buf := []; closed := false |}]) in
      let pi := set_pongchan pi c in
      let st4 := set_pingmap st3 (<[seq st3 := c]> (pingmap st3)) in
      let st5 := spawn (GoRecvPong pi) st4 in
      [st1; st2; st3; st4; st5]
  end.

Definition casePing (st : state) (pi : Ping) (w : world) : state :=
  List.last (casePing_points st pi w) st.

(** [c <- ri; close(c)] on a channel of capacity 2.  A send on a closed
    channel panics.  The channel of an entry has never been sent on, so
    it is never full; a full one is treated like a closed one. *)
Definition deliver (c : nat) (ri : rawIcmp) (st : state) : state :=
  match chans st !! c with
  | Some ch =>
      if closed ch || (2 <=? length (buf ch))%nat then panic st
      else set_chans st
             (<[c := {| buf := buf ch ++ [ri]; closed := true |}]>
                (chans st))
  | None => panic st
  end.

(** Lines 127-153, the case [ri := <-pong] of the loop. *)
Definition casePong (st : state) (ri : rawIcmp) : state :=
  match ParseMessage 1 (take (Z.to_nat (size ri)) (bytes ri)) with
  | None => log "Could not parse message" st
  | Some rm =>
      if decide (icmp.Type_ rm = Some ipv4.ICMPTypeEchoReply) then
        match icmp.Body rm with
        | icmp.EchoBody body =>
            if decide (icmp.ID body = Getpid) then
              match pingmap st !! seq st with
              | Some c =>
                  set_pingmap (deliver c ri st)
                    (delete (seq st) (pingmap st))
              | None => st
              end
            else log "Ignoring packet from external process" st
        | _ => panic st
        end
      else st
  end.

(** The next operation of goroutine [i]: a receive from its
    [pongchan], or the send that hands the ping to the reader of its
    [EchoChannel]. *)
Definition run_goroutine (i : nat) (st : state) : option state :=
  match gos st !! i with
  | Some (GoRecvPong pi) =>
      match pongchan pi with
      | Some c =>
          match chans st !! c with
          | Some {| buf := ri :: rest; closed := cl |} =>
              let pi := set_Pong pi {| Rtt := rtt pi ri; Err := None |} in
              let st :=
                set_chans st
                  (<[c := {| buf := rest; closed := cl |}]> (chans st)) in
              Some (set_gos st
                      (<[i := match EchoChannel pi with
                              | Some _ => GoSendEcho pi
                              | None => GoEnd
                              end]> (gos st)))
          | Some {| buf := []; closed := true |} => Some (panic st)
          | _ => None
          end
      | None => None
      end
  | Some (GoSendEcho pi) =>
      Some (set_gos (set_echoed st (echoed st ++ [pi]))
              (<[i := GoEnd]> (gos st)))
  | _ => None
  end.

Inductive event : Type :=
| PingRecv (pi : Ping) (w : world)
| PongRecv (ri : rawIcmp)
| Run (i : nat).

Definition step (st : state) (e : event) : option state :=
  if panicked st then None else
  match e with
  | PingRecv pi w => Some (casePing st pi w)
  | PongRecv ri => Some (casePong st ri)
  | Run i => run_goroutine i st
  end.

Fixpoint run (st : state) (evs : list event) : option state :=
  match evs with
  | [] => Some st
  | e :: evs =>
      match step st e with
      | Some st => run st evs
      | None => None
      end
  end.

(** Lines 59-85: the coordinator opens its socket before its loop
    starts. *)
Definition coordinator (listenErr setControlErr : error)
    : process state :=
  match openSocket listenErr setControlErr with
  | Exited status logged => Exited status logged
  | Running _ => Running init
  end.

End coordinator.

(** *** Predicates on the states of the coordinator *)

(** The number of pings that the loop has taken from [ping]. *)
Definition pings (evs : list event) : Z :=
  Z.of_nat
    (length (List.filter
               (λ e, match e with PingRecv _ _ => true | _ => false end)
               evs)).

(** The sequence numbers in [st] when [n] pings have been taken: [seq]
    is [n], the keys of the table and the numbers of the attempts that
    wait for their reply lie between 1 and [n], and no two waiting
    attempts have the same number. *)
Record numbered (n : Z) (st : state) : Prop := {
  numbered_seq : seq st = n;
  numbered_nonneg : 0 <= n;
  numbered_keys : ∀ k c, pingmap st !! k = Some c → 1 <= k <= n;
  numbered_waiting :
    ∀ i pi, gos st !! i = Some (GoRecvPong pi) → 1 <= Seq pi <= n;
  numbered_distinct :
    ∀ i j pi pj,
      gos st !! i = Some (GoRecvPong pi) →
      gos st !! j = Some (GoRecvPong pj) →
      Seq pi = Seq pj → i = j
}.

(** A capture that the case of line 127 takes for an echo reply to this
    process. *)
Definition validReply `{os : Platform} (ri : rawIcmp) : Prop :=
  ∃ rm body,
    ParseMessage 1 (take (Z.to_nat (size ri)) (bytes ri)) = Some rm
    ∧ icmp.Type_ rm = Some ipv4.ICMPTypeEchoReply
    ∧ icmp.Body rm = icmp.EchoBody body
    ∧ icmp.ID body = Getpid.

(** *** Captures, channels and pings in hand *)

(** What the listener makes of a read that succeeded (lines 45-51). *)
Definition capture (r : read) : rawIcmp :=
  {| when := read_now r; size := read_size r; peer := read_peer r;
     bytes := read_buf r; cm := read_cm r; message := None; err := None |}.

(** The goroutines of lines 54-56: those that the listener has started
    and that have not run yet, by their captures, and the captures that
    [handleRawIcmp] has been called with, in the order of the calls. *)
Record handlers : Type := {
  started : list rawIcmp;
  handed : list rawIcmp
}.

(** The scheduler lets the [i]-th of the goroutines that have not run
    go: it calls the handler with its capture and ends. *)
Definition runHandler (i : nat) (h : handlers) : option handlers :=
  match started h !! i with
  | Some ri =>
      Some {| started := delete i (started h); handed := handed h ++ [ri] |}
  | None => None
  end.

Fixpoint runHandlers (sched : list nat) (h : handlers) : option handlers :=
  match sched with
  | [] => Some h
  | i :: sched =>
      match runHandler i h with
      | Some h => runHandlers sched h
      | None => None
      end
  end.

(** A channel as [make] returns it. *)
Definition idleChan : chan := {| buf := []; closed := false |}.

(** What [icmp.ParseMessage] guarantees for the type assertion of line
    142: the body of an echo reply is an [icmp.Echo]. *)
Definition echoBodies `{os : Platform} : Prop :=
  ∀ b rm,
    ParseMessage 1 b = Some rm →
    icmp.Type_ rm = Some ipv4.ICMPTypeEchoReply →
    ∃ body, icmp.Body rm = icmp.EchoBody body.

(** The channels of the coordinator: every entry of the table has a
    channel of its own that nothing was sent on, and every waiting
    attempt has a channel of its own that is as it was made or closed
    with the one capture sent on it. *)
Record wired (st : state) : Prop := {
  wired_panicked : panicked st = false;
  wired_entries :
    ∀ k c, pingmap st !! k = Some c → chans st !! c = Some idleChan;
  wired_inj :
    ∀ k k' c, pingmap st !! k = Some c → pingmap st !! k' = Some c → k = k';
  wired_waiting :
    ∀ i pi, gos st !! i = Some (GoRecvPong pi) →
      ∃ c, pongchan pi = Some c
           ∧ (chans st !! c = Some idleChan
              ∨ ∃ ri, chans st !! c = Some {| buf := [ri]; closed := true |});
  wired_distinct :
    ∀ i j pi pj,
      gos st !! i = Some (GoRecvPong pi) →
      gos st !! j = Some (GoRecvPong pj) →
      pongchan pi = pongchan pj → i = j
}.

(** A goroutine that has not finished. *)
Definition live (g : goroutine) : bool :=
  match g with
  | GoEnd => false
  | _ => true
  end.

(** The ping that [g] holds has a channel to be handed back on. *)
Definition reports (g : goroutine) : Prop :=
  match g with
  | GoRecvPong pi | GoSendEcho pi => EchoChannel pi ≠ None
  | GoEnd => True
  end.

(** The pings taken from [ping] that ask to be handed back. *)
Definition reporting (e : event) : Prop :=
  match e with
  | PingRecv pi _ => EchoChannel pi ≠ None
  | _ => True
  end.

(** Every ping taken is held by one goroutine or has been handed
    back. *)
Record conserved (n : Z) (st : state) : Prop := {
  conserved_reports : Forall reports (gos st);
  conserved_sum :
    Z.of_nat (length (echoed st))
    + Z.of_nat (length (List.filter live (gos st))) = n
}.

(** *** Sequence numbers and successes *)

(** The sequence number of the ping that [g] holds. *)
Definition held (g : goroutine) : option Z :=
  match g with
  | GoRecvPong pi | GoSendEcho pi => Some (Seq pi)
  | GoEnd => None
  end.

(** The sequence numbers of all pings in [st]: those that goroutines
    hold and those handed back. *)
Definition numbers (st : state) : list Z :=
  omap held (gos st) ++ (Seq <$> echoed st).

(** The tests of lines 130-146 on a capture: it parses, it is an echo
    reply, and its identifier is the process id. *)
Definition passes `{os : Platform} (ri : rawIcmp) : bool :=
  match ParseMessage 1 (take (Z.to_nat (size ri)) (bytes ri)) with
  | Some rm =>
      bool_decide (icmp.Type_ rm = Some ipv4.ICMPTypeEchoReply)
      && match icmp.Body rm with
         | icmp.EchoBody body => bool_decide (icmp.ID body = Getpid)
         | _ => false
         end
  | None => false
  end.

(** The captures taken from [pong] that pass these tests. *)
Definition replies `{os : Platform} (evs : list event) : Z :=
  Z.of_nat
    (length (List.filter
               (λ e, match e with PongRecv ri => passes ri | _ => false end)
               evs)).

(** A ping that comes back without an error. *)
Definition succeeded (pi : Ping) : bool :=
  bool_decide (Err (PingPong pi) = None).

(** The goroutine is about to hand back a ping without an error. *)
Definition succeeding (g : goroutine) : bool :=
  match g with
  | GoSendEcho pi => succeeded pi
  | _ => false
  end.

(** The captures that are buffered in the channels. *)
Definition buffered (cs : list chan) : Z :=
  foldr (λ ch n, Z.of_nat (length (buf ch)) + n) 0 cs.

(** The successes in [st]: handed back, about to be, or still in a
    channel. *)
Definition successes (st : state) : Z :=
  Z.of_nat (length (List.filter succeeded (echoed st)))
  + Z.of_nat (length (List.filter succeeding (gos st)))
  + buffered (chans st).

(** Every entry of the table belongs to an attempt that waits on the
    channel of the entry and has the key as its sequence number. *)
Definition attended (st : state) : Prop :=
  ∀ k c, pingmap st !! k = Some c →
    ∃ i pi, gos st !! i = Some (GoRecvPong pi)
            ∧ pongchan pi = Some c ∧ Seq pi = k.

End ggping.

(** ** A codec for the examples *)

Module wire.

Definition byte_of_Z (z : Z) : Byte.byte :=
  default Byte.x00 (Byte.of_N (Z.to_N (z `mod` 256))).

Definition Z_of_byte (b : Byte.byte) : Z := Z.of_N (Byte.to_N b).

(** [binary.BigEndian.PutUint16(b, uint16(z))] *)
Definition put16 (z : Z) : list Byte.byte :=
  [byte_of_Z (z `div` 256); byte_of_Z z].

Definition get16 (hi lo : Byte.byte) : Z :=
  Z_of_byte hi * 256 + Z_of_byte lo.

(** Modelled from the spec: the codec is golang.org/x/net/icmp, which
    is not part of the repository.  The layout is the one of section 6:
    message type, code, checksum (left at zero here), a 16-bit
    identifier, a 16-bit sequence number and the payload. *)
Definition Marshal (m : icmp.Message) : option (list Byte.byte) :=
  match icmp.Type_ m with
  | None => None
  | Some t =>
      Some ([byte_of_Z t; byte_of_Z (icmp.Code m); Byte.x00; Byte.x00]
            ++ match icmp.Body m with
               | icmp.NilBody => []
               | icmp.EchoBody e =>
                   put16 (icmp.ID e) ++ put16 (icmp.Seq e) ++ icmp.Data e
               | icmp.OtherBody data => data
               end)
  end.

(** Modelled from the spec: the inverse of [Marshal]; an echo or echo
    reply has an [icmp.Echo] as its body, and a message too short for
    its header is an error. *)
Definition ParseMessage (proto : Z) (b : list Byte.byte)
    : option icmp.Message :=
  match b with
  | t :: c :: k1 :: k2 :: body =>
      let ty := Z_of_byte t in
      if decide (ty = ipv4.ICMPTypeEcho ∨ ty = ipv4.ICMPTypeEchoReply)
      then
        match body with
        | i1 :: i2 :: s1 :: s2 :: data =>
            Some {| icmp.Type_ := Some ty;
                    icmp.Code := Z_of_byte c;
                    icmp.Checksum := get16 k1 k2;
                    icmp.Body :=
                      icmp.EchoBody
                        {| icmp.ID := get16 i1 i2;
                           icmp.Seq := get16 s1 s2;
                           icmp.Data := data |} |}
        | _ => None
        end
      else
        Some {| icmp.Type_ := Some ty;
                icmp.Code := Z_of_byte c;
                icmp.Checksum := get16 k1 k2;
                icmp.Body := icmp.OtherBody body |}
  | _ => None
  end.

Definition platform (pid : Z) : ggping.Platform :=
  {| ggping.Getpid := pid;
     ggping.Marshal := Marshal;
     ggping.ParseMessage := ParseMessage |}.

(** The echo reply that answers [ggping.echoRequest s] of process
    [pid], as the listener captures it at time [t]. *)
Definition echoReply (pid s t : Z) : ggping.rawIcmp :=
  let b :=
    default []
      (Marshal
         {| icmp.Type_ := Some ipv4.ICMPTypeEchoReply;
            icmp.Code := 0;
            icmp.Checksum := 0;
            icmp.Body :=
              icmp.EchoBody
                {| icmp.ID := pid; icmp.Seq := s;
                   icmp.Data :=
                     String.list_byte_of_string "HELLO-R-U-THERE" |} |}) in
  {| ggping.when := t;
     ggping.size := Z.of_nat (length b);
     ggping.peer := [];
     ggping.bytes := b;
     ggping.cm := None;
     ggping.message := None;
     ggping.err := None |}.

End wire.


(** ** Inputs of the examples *)

Module scenario.

Import goping.

Definition ms (n : Z) : Z := n * 1000000.

(** Scenario A: three attempts, 100 ms apart, 50 ms of patience. *)
Definition cfgA : Config :=
  {| Count := 3; Interval := ms 100; Timeout := ms 50; TOS := 0;
     TTL := 64; PacketSize := 100 |}.

(** Scenario C: the configuration of the command-line tool. *)
Definition cfgC : Config :=
  {| Count := -1; Interval := ms 1000; Timeout := ms 3000; TOS := 0;
     TTL := 64; PacketSize := 100 |}.

(** A count that a [float64] counter cannot reach. *)
Definition cfgHuge : Config :=
  {| Count := 2 ^ 53 + 1; Interval := 0; Timeout := 0; TOS := 0;
     TTL := 64; PacketSize := 100 |}.

Definition request (c : Config) : Request :=
  (NewRequest (New c) "8.8.8.8" ∅).1.

(** An echo reply as a pinger hands it over. *)
Definition echoReplyOf (rtt : float64) : RawResponse :=
  {| RTT := rtt;
     From := [Byte.x08; Byte.x08; Byte.x08; Byte.x08];
     ICMPMessage :=
       {| icmp.Type_ := Some ipv4.ICMPTypeEchoReply; icmp.Code := 0;
          icmp.Checksum := 0; icmp.Body := icmp.NilBody |} |}.

(** Scenario C up to the close of the sink: one request is accepted,
    its first attempt is answered, its second attempt is dispatched,
    and the loop sees the sink closed. *)
Definition scenarioC_to_close : list event :=
  [InRecv (request cfgC);
   PinRecv 0 1 None;
   RunSelect 1 (SelFuture (echoReplyOf (Fin 10)));
   Run 1;
   Run 1;
   PinRecv 1 2 None;
   InClosed].

(** What can follow: the closer is started, the second attempt times
    out and its response is received. *)
Definition scenarioC_second_response : list event :=
  [DoneInRecv 3;
   RunSelect 2 SelTimeout;
   Run 2].

(** And after that: the interval passes, the request goes to [pin] a
    third time, and the third attempt times out. *)
Definition scenarioC_third_attempt : list event :=
  [Run 2;
   PinRecv 2 3 None;
   RunSelect 5 SelTimeout;
   Run 5].

(** Scenario A in full: three attempts, each answered, then the sink
    is closed, the response channel is closed and the loop returns. *)
Definition scenarioA : list event :=
  [InRecv (request cfgA);
   PinRecv 0 1 None;
   RunSelect 1 (SelFuture (echoReplyOf (Fin 10)));
   Run 1; Run 1;
   PinRecv 1 2 None;
   RunSelect 2 (SelFuture (echoReplyOf (Fin 10)));
   Run 2; Run 2;
   PinRecv 2 3 None;
   RunSelect 3 (SelFuture (echoReplyOf (Fin 10)));
   Run 3; Run 3;
   InClosed;
   DoneInRecv 4;
   Run 5; Run 5;
   DoneRecv 5].

(** The transport of the examples: process 4242 and the codec above. *)
Definition os : ggping.Platform := wire.platform 4242.

Definition host : ggping.IPAddr := [Byte.x08; Byte.x08; Byte.x08; Byte.x08].

(** A ping as a caller of the transport submits it, with one second of
    timeout and a channel to get it back on. *)
Definition ping (to : string) : ggping.Ping :=
  {| ggping.To := to; ggping.Timeout := 1; ggping.EchoMap := ∅;
     ggping.When := 0; ggping.Seq := 0;
     ggping.PingPong := {| ggping.Rtt := Fin 0; ggping.Err := None |};
     ggping.EchoChannel := Some 0%nat; ggping.pongchan := None |}.

(** The host resolves and the socket takes the datagram, at time [t]. *)
Definition sendsAt (t : Z) : ggping.world :=
  {| ggping.resolved := Some host; ggping.now := t;
     ggping.written := true |}.

(** Two pings are sent, one second apart. *)
Definition twoPings : list ggping.event :=
  [ggping.PingRecv (ping "a") (sendsAt 0);
   ggping.PingRecv (ping "b") (sendsAt (ms 1000))].

(** One ping is sent; a second one follows five seconds later, four
    seconds after the timeout of the first has passed. *)
Definition lateSecondPing : list ggping.event :=
  [ggping.PingRecv (ping "a") (sendsAt 0);
   ggping.PingRecv (ping "b") (sendsAt (ms 5000))].

(** One ping is sent at time 0, its reply is captured 10 ms later, the
    goroutine of the attempt takes it and hands the ping back. *)
Definition roundTrip : list ggping.event :=
  [ggping.PingRecv (ping "a") (sendsAt 0);
   ggping.PongRecv (wire.echoReply 4242 1 (ms 10));
   ggping.Run 0;
   ggping.Run 0].

(** A read of the listener that fails. *)
Definition failedRead : ggping.read :=
  {| ggping.read_buf := []; ggping.read_size := 0;
     ggping.read_cm := None; ggping.read_peer := [];
     ggping.read_err := Some "network is down"%string;
     ggping.read_now := 0 |}.

End scenario.

(** * Go integers *)

Lemma int_wrap_small z : - 2 ^ 63 <= z < 2 ^ 63 → int_wrap z = z.
Proof.
  intros Hz. unfold int_wrap.
  rewrite Z.mod_small by lia. lia.
Qed.

Lemma uint64_wrap_small z : 0 <= z < 2 ^ 64 → uint64_wrap z = z.
Proof. intros Hz. unfold uint64_wrap. by rewrite Z.mod_small. Qed.

(** * Go floats *)

Lemma round_half_even_exact z d : 0 < d → round_half_even (z * d) d = z.
Proof.
  intros Hd. unfold round_half_even.
  rewrite Z_mod_mult, Z_div_mult by lia.
  replace (2 * 0 <? d) with true by (symmetry; apply Z.ltb_lt; lia). done.
Qed.

Lemma round_half_even_nonneg n d : 0 <= n → 0 < d → 0 <= round_half_even n d.
Proof.
  intros Hn Hd. unfold round_half_even.
  pose proof (Z.div_pos n d Hn Hd).
  repeat case_match; lia.
Qed.

Lemma float64_round_pos_nonneg n d :
  0 <= n → 0 < d → (0 <= float64_round_pos n d)%Q.
Proof.
  intros Hn Hd. unfold float64_round_pos.
  set (e := Z.max _ _). destruct (0 <=? e) eqn:He.
  - apply Z.leb_le in He.
    assert (0 < 2 ^ e) by (apply Z.pow_pos_nonneg; lia).
    pose proof (round_half_even_nonneg n (d * 2 ^ e) Hn ltac:(lia)).
    unfold Qle. simpl. nia.
  - apply Z.leb_gt in He.
    assert (0 < 2 ^ (- e)) by (apply Z.pow_pos_nonneg; lia).
    pose proof (round_half_even_nonneg (n * 2 ^ (- e)) d ltac:(nia) Hd).
    unfold Qle. simpl. lia.
Qed.

(** Rounding keeps the sign. *)
Lemma float64_round_sign q :
  ((q <= 0 → float64_round q <= 0) ∧ (0 <= q → 0 <= float64_round q))%Q.
Proof.
  unfold float64_round. destruct q as [[|n|n] d]; simpl.
  - split; intros _; apply Qle_refl.
  - split.
    + intros Hq. unfold Qle in Hq. simpl in Hq. lia.
    + intros _. by apply float64_round_pos_nonneg.
  - split.
    + intros _.
      pose proof (float64_round_pos_nonneg (Z.pos n) (Z.pos d)
                    ltac:(lia) ltac:(lia)) as H.
      apply Qopp_le_compat in H. exact H.
    + intros Hq. unfold Qle in Hq. simpl in Hq. lia.
Qed.

(** An integer of at most 53 bits is a binary64. *)
Lemma float64_round_pos_int z d :
  0 < z <= 2 ^ 53 → 0 < d → (float64_round_pos (z * d) d == inject_Z z)%Q.
Proof.
  intros Hz Hd. unfold float64_round_pos.
  replace (z * d * 2 ^ 1200 / d) with (z * 2 ^ 1200)
    by (rewrite <- Z.mul_assoc, (Z.mul_comm d), Z.mul_assoc, Z_div_mult; lia).
  rewrite Z.log2_mul_pow2 by lia.
  replace (1200 + Z.log2 z - 1200) with (Z.log2 z) by lia.
  pose proof (Z.log2_nonneg z) as H0.
  destruct (Z.log2_spec z ltac:(lia)) as [Hlo Hhi].
  assert (Hle : Z.log2 z <= 53).
  { destruct Hz as [_ Hz53]. apply Z.log2_le_mono in Hz53.
    rewrite Z.log2_pow2 in Hz53; lia. }
  rewrite Z.max_l by lia.
  destruct (0 <=? Z.log2 z - 52) eqn:He.
  - apply Z.leb_le in He.
    assert (Hcase : Z.log2 z = 52 ∨ Z.log2 z = 53) by lia.
    destruct Hcase as [H52|H53].
    + rewrite H52. simpl (2 ^ (52 - 52)). rewrite !Z.mul_1_r.
      by rewrite round_half_even_exact.
    + rewrite H53 in *. assert (z = 2 ^ 53) as -> by lia.
      replace (2 ^ 53 * d) with (2 ^ 52 * (d * 2 ^ (53 - 52)))
        by (change (2 ^ (53 - 52)) with 2; change (2 ^ 53) with (2 ^ 52 * 2); lia).
      rewrite round_half_even_exact.
      * reflexivity.
      * change (2 ^ (53 - 52)) with 2. lia.
  - apply Z.leb_gt in He.
    assert (Hp : 0 < 2 ^ (- (Z.log2 z - 52))) by (apply Z.pow_pos_nonneg; lia).
    replace (z * d * 2 ^ (- (Z.log2 z - 52)))
      with (z * 2 ^ (- (Z.log2 z - 52)) * d) by lia.
    rewrite round_half_even_exact by done.
    unfold Qeq. simpl. rewrite Z2Pos.id by done. lia.
Qed.

Lemma float64_round_int q z :
  (q == inject_Z z)%Q → - 2 ^ 53 <= z <= 2 ^ 53 →
  (float64_round q == inject_Z z)%Q.
Proof.
  intros Hq Hz. unfold Qeq in Hq. simpl in Hq. rewrite Z.mul_1_r in Hq.
  unfold float64_round. destruct q as [n d]. simpl in *.
  destruct n as [|n|n].
  - assert (z = 0) as -> by nia. reflexivity.
  - assert (0 < z) by nia. rewrite Hq.
    apply float64_round_pos_int; lia.
  - assert (z < 0) by nia.
    replace (Z.pos n) with ((- z) * Z.pos d) by lia.
    rewrite float64_round_pos_int by lia.
    unfold Qeq. simpl. lia.
Qed.

Lemma float64_of_int_exact z :
  - 2 ^ 53 <= z <= 2 ^ 53 → (float64_of_int z == inject_Z z)%Q.
Proof. intros Hz. by apply float64_round_int. Qed.

(** The quotient of a non-positive count by a million is not positive. *)
Lemma float64_div_million_nonpos z :
  z <= 0 → (float64_div (float64_of_int z) (float64_of_int 1000000) <= 0)%Q.
Proof.
  intros Hz. unfold float64_div. apply float64_round_sign.
  pose proof (float64_of_int_exact 1000000 ltac:(lia)) as Hy.
  assert (Hx : (float64_of_int z <= 0)%Q).
  { apply float64_round_sign. unfold Qle. simpl. lia. }
  rewrite Hy. unfold Qdiv.
  apply Qle_trans with (0 * / inject_Z 1000000)%Q; [|done].
  apply Qmult_le_compat_r; [done|]. unfold Qle. simpl. lia.
Qed.

(** The quotient of a whole number of millions is exact. *)
Lemma float64_div_million_exact k :
  - 2 ^ 53 <= k * 1000000 <= 2 ^ 53 →
  (float64_div (float64_of_int (k * 1000000)) (float64_of_int 1000000)
   == inject_Z k)%Q.
Proof.
  intros Hk. unfold float64_div. apply float64_round_int; [|lia].
  rewrite (float64_of_int_exact (k * 1000000)) by lia.
  rewrite (float64_of_int_exact 1000000) by lia.
  unfold Qeq. simpl. lia.
Qed.

(** * Lists *)

Lemma lookup_snoc {A} (l : list A) x : (l ++ [x]) !! length l = Some x.
Proof. by rewrite lookup_app_r, Nat.sub_diag by lia. Qed.

Lemma insert_snoc {A} (l : list A) x y : <[length l := y]> (l ++ [x]) = l ++ [y].
Proof.
  replace (length l) with (length l + 0)%nat at 1 by lia.
  by rewrite insert_app_r.
Qed.

Lemma Forall_insert_unique {A} (f : A → bool) (Q : A → Prop) gs i g k :
  Z.of_nat (length (List.filter f gs)) <= 1 →
  gs !! i = Some g → f g = true →
  Q k → (∀ g', f g' = false → Q g') →
  Forall Q (<[i:=k]> gs).
Proof.
  revert i. induction gs as [|a gs IH]; intros [|i]; simpl; try done.
  - intros Hc [= ->] Hg Hk Hf. rewrite Hg in Hc. simpl in Hc.
    constructor; [done|]. apply Forall_forall. intros x Hx. apply Hf.
    destruct (f x) eqn:Hfx; [|done].
    assert (In x (List.filter f gs)).
    { apply List.filter_In. split; [|done]. by apply list_elem_of_In. }
    destruct (List.filter f gs); [done|simpl in Hc; lia].
  - intros Hc Hi Hg Hk Hf. destruct (f a) eqn:Hfa.
    + simpl in Hc.
      assert (In g (List.filter f gs)).
      { apply List.filter_In. split; [|done].
        apply list_elem_of_In. by eapply list_elem_of_lookup_2. }
      destruct (List.filter f gs); [done|simpl in Hc; lia].
    + constructor; [by apply Hf|]. eapply IH; eauto.
Qed.

Lemma filter_length_snoc {A} (f : A → bool) l x :
  Z.of_nat (length (List.filter f (l ++ [x])))
  = Z.of_nat (length (List.filter f l)) + Z.b2z (f x).
Proof.
  rewrite List.filter_app, length_app. simpl.
  destruct (f x); simpl; lia.
Qed.

Lemma filter_length_insert {A} (f : A → bool) l i x y :
  l !! i = Some x →
  Z.of_nat (length (List.filter f (<[i:=y]> l)))
  = Z.of_nat (length (List.filter f l)) - Z.b2z (f x) + Z.b2z (f y).
Proof.
  revert i. induction l as [|a l IH]; intros [|i] Hi; simpl in *; try done.
  - injection Hi as ->. destruct (f x), (f y); simpl; lia.
  - specialize (IH i Hi). destruct (f a); simpl; lia.
Qed.

Lemma omap_insert_perm {A B} (f : A → option B) l i x y :
  l !! i = Some x →
  option_list (f y) ++ omap f l ≡ₚ option_list (f x) ++ omap f (<[i:=y]> l).
Proof.
  revert i. induction l as [|a l IH]; intros [|i] Hi; simpl in *; try done.
  - injection Hi as ->. destruct (f x), (f y); simpl; try done.
    apply Permutation_swap.
  - specialize (IH i Hi). destruct (f a) as [b|]; simpl; [|done].
    rewrite <- !Permutation_middle. by constructor.
Qed.

(** * Properties of package goping *)

Module goping_facts.

Import goping.

(** ** One attempt *)

Lemma attempt_unfold_err recv seq e :
  attempt recv seq (Some e)
  = GoSendOut
      {| RespRequest := recv; Seq := seq; Err := Some e;
         Raw := untouched |}
      (afterOut recv).
Proof. reflexivity. Qed.

Lemma attempt_unfold_nil recv seq :
  attempt recv seq None
  = GoSelect (Timeout (ReqConfig recv))
      (λ s,
         GoSendOut
           (selectBody
              {| RespRequest := recv; Seq := seq; Err := None;
                 Raw := untouched |} s)
           (afterOut recv)).
Proof. reflexivity. Qed.

Lemma select_takes_late timeout reply s :
  (∀ d r, reply = Some (d, r) → timeout < d) →
  select_takes timeout reply s → s = SelTimeout.
Proof.
  intros Hlate. destruct s as [|r]; [done|]. intros (d & -> & Hd).
  specialize (Hlate d r eq_refl). lia.
Qed.

Lemma select_takes_early timeout d r s :
  d < timeout → select_takes timeout (Some (d, r)) s → s = SelFuture r.
Proof.
  intros Hd. destruct s as [|r']; simpl.
  - lia.
  - intros (d' & Heq & _). congruence.
Qed.

Lemma Err_selectBody_future resp r :
  Err resp = None →
  Err (selectBody resp (SelFuture r))
  = classify (icmp.Type_ (ICMPMessage r)).
Proof.
  intros Hnil. simpl.
  destruct (classify (icmp.Type_ (ICMPMessage r))); simpl; done.
Qed.

(** The error that an attempt leaves in its response, by its outcome.
    An attempt whose send failed has the send of its response as its
    first operation, with the error of the send: it waits for nothing.
    An attempt whose send succeeded first races the timeout against the
    reply; with no reply, or none before the timeout, the error is
    "Timeout"; with a reply that is there before the timeout the error
    is nil for an echo or an echo reply, the error named after the kind
    for destination unreachable, time exceeded, parameter problem and
    redirect, and the error for an unrecognised type for every other
    kind. *)
Theorem attempt_err_by_outcome (recv : Request) (seq : Z) :
  (∀ e : string,
      ∃ resp, attempt recv seq (Some e) = GoSendOut resp (afterOut recv)
              ∧ Err resp = Some e)
  ∧ ∃ k, attempt recv seq None = GoSelect (Timeout (ReqConfig recv)) k
    ∧ ∀ reply s, select_takes (Timeout (ReqConfig recv)) reply s →
      ∃ resp, k s = GoSendOut resp (afterOut recv)
      ∧ ((∀ d r, reply = Some (d, r) → Timeout (ReqConfig recv) < d) →
         Err resp = Some "Timeout"%string)
      ∧ ∀ d r, reply = Some (d, r) → d < Timeout (ReqConfig recv) →
        let t := icmp.Type_ (ICMPMessage r) in
        (t = Some ipv4.ICMPTypeEcho ∨ t = Some ipv4.ICMPTypeEchoReply →
         Err resp = None)
        ∧ (t = Some ipv4.ICMPTypeDestinationUnreachable →
           Err resp = Some "Destination Unreachable"%string)
        ∧ (t = Some ipv4.ICMPTypeTimeExceeded →
           Err resp = Some "Time Exceeded"%string)
        ∧ (t = Some ipv4.ICMPTypeParameterProblem →
           Err resp = Some "Parameter Problem"%string)
        ∧ (t = Some ipv4.ICMPTypeRedirect →
           Err resp = Some "Redirect"%string)
        ∧ (t ≠ Some ipv4.ICMPTypeEcho →
           t ≠ Some ipv4.ICMPTypeEchoReply →
           t ≠ Some ipv4.ICMPTypeDestinationUnreachable →
           t ≠ Some ipv4.ICMPTypeTimeExceeded →
           t ≠ Some ipv4.ICMPTypeParameterProblem →
           t ≠ Some ipv4.ICMPTypeRedirect →
           Err resp = Some "uncategorized ICMP RAW Response Type"%string).
Proof.
  split.
  - intros e. eexists. rewrite attempt_unfold_err. split; reflexivity.
  - eexists. split; [apply attempt_unfold_nil|].
    intros reply s Htakes. eexists. split; [reflexivity|]. split.
    + intros Hlate. apply select_takes_late in Htakes as ->; done.
    + intros d r -> Hd.
      apply (select_takes_early _ _ _ _ Hd) in Htakes as ->.
      rewrite Err_selectBody_future by reflexivity.
      unfold classify. cbv zeta.
      repeat split; intros; repeat case_decide; try reflexivity;
        destruct_or?;
        unfold ipv4.ICMPTypeEcho, ipv4.ICMPTypeEchoReply,
          ipv4.ICMPTypeDestinationUnreachable, ipv4.ICMPTypeTimeExceeded,
          ipv4.ICMPTypeParameterProblem, ipv4.ICMPTypeRedirect in *;
        congruence.
Qed.

Lemma attempt_err_by_outcome_witness :
  ∃ k resp,
    attempt (scenario.request scenario.cfgA) 1 None
    = GoSelect (scenario.ms 50) k
    ∧ k (SelFuture (scenario.echoReplyOf (Fin 10)))
      = GoSendOut resp (afterOut (scenario.request scenario.cfgA))
    ∧ Err resp = None.
Proof.
  destruct (attempt_err_by_outcome (scenario.request scenario.cfgA) 1)
    as [_ (k & Hk & Hsel)].
  destruct (Hsel (Some (scenario.ms 10, scenario.echoReplyOf (Fin 10)))
              (SelFuture (scenario.echoReplyOf (Fin 10))))
    as (resp & Hresp & _ & Hreply).
  { simpl. exists (scenario.ms 10). split; [reflexivity|]. vm_compute.
    discriminate. }
  exists k, resp. split; [exact Hk|]. split; [exact Hresp|].
  destruct (Hreply (scenario.ms 10) (scenario.echoReplyOf (Fin 10)))
    as [Hecho _]; [reflexivity|reflexivity|].
  apply Hecho. right. reflexivity.
Defined.

(** C10.  An attempt that ends without a reply, because its send
    failed or because the timeout won, leaves the raw response of its
    Response as it was built: RTT is NaN, and From and ICMPMessage are
    empty.  Only a delivered reply fills it in, and then it is the
    reply. *)
Theorem raw_untouched_without_reply (recv : Request) (seq : Z) :
  (∀ e : string,
      ∃ resp, attempt recv seq (Some e) = GoSendOut resp (afterOut recv)
              ∧ Raw resp
                = {| RTT := NaN; From := []; ICMPMessage := icmp.zero |})
  ∧ ∃ k, attempt recv seq None = GoSelect (Timeout (ReqConfig recv)) k
    ∧ (∃ resp, k SelTimeout = GoSendOut resp (afterOut recv)
               ∧ Raw resp
                 = {| RTT := NaN; From := [];
                      ICMPMessage := icmp.zero |})
    ∧ ∀ r, ∃ resp, k (SelFuture r) = GoSendOut resp (afterOut recv)
                   ∧ Raw resp = r.
Proof.
  split.
  - intros e. eexists. split; reflexivity.
  - eexists. split; [apply attempt_unfold_nil|]. split.
    + eexists. split; reflexivity.
    + intros r. eexists. split; [reflexivity|]. simpl.
      destruct (classify (icmp.Type_ (ICMPMessage r))); reflexivity.
Qed.

(** ** The coordinator *)

Lemma count_gos_cons f g gs :
  count_gos f (g :: gs) = Z.b2z (f g) + count_gos f gs.
Proof.
  unfold count_gos. simpl.
  destruct (f g); simpl length; simpl Z.b2z; lia.
Qed.

Lemma count_gos_nonneg f gs : 0 <= count_gos f gs.
Proof. unfold count_gos. lia. Qed.

Lemma count_gos_app f gs g :
  count_gos f (gs ++ [g]) = count_gos f gs + Z.b2z (f g).
Proof.
  induction gs as [|a gs IH]; simpl.
  - rewrite count_gos_cons. unfold count_gos. simpl. lia.
  - rewrite !count_gos_cons, IH. lia.
Qed.

Lemma count_gos_insert f gs i g k :
  gs !! i = Some g →
  count_gos f (<[i:=k]> gs) = count_gos f gs - Z.b2z (f g) + Z.b2z (f k).
Proof.
  revert i. induction gs as [|a gs IH]; intros [|i] Hi; simpl in *; try done.
  - injection Hi as ->. rewrite !count_gos_cons. lia.
  - rewrite !count_gos_cons, (IH i Hi). lia.
Qed.

Lemma count_gos_lookup f gs i g :
  gs !! i = Some g → f g = true → 1 <= count_gos f gs.
Proof.
  revert i.
  induction gs as [|a gs IH]; intros [|i] Hi Hf; simpl in *; try done.
  - injection Hi as ->. rewrite count_gos_cons, Hf.
    pose proof (count_gos_nonneg f gs). simpl. lia.
  - rewrite count_gos_cons. specialize (IH i Hi Hf).
    destruct (f a); simpl; lia.
Qed.

Lemma wf_afterOut recv : wf_go (afterOut recv).
Proof. unfold afterOut. case_match; constructor. Qed.

Lemma owes_afterOut recv : owes (afterOut recv) = true.
Proof. unfold afterOut. case_match; reflexivity. Qed.

Lemma closing_afterOut f recv :
  (f = closing ∨ f = past_wait ∨ f = sends_done) →
  f (afterOut recv) = false.
Proof. unfold afterOut. intros [->|[->| ->]]; case_match; reflexivity. Qed.

Lemma wf_attempt recv seq err : wf_go (attempt recv seq err).
Proof.
  destruct err as [e|].
  - rewrite attempt_unfold_err. constructor.
  - rewrite attempt_unfold_nil. econstructor. intros s. eauto.
Qed.

Lemma owes_attempt recv seq err : owes (attempt recv seq err) = true.
Proof. destruct err; reflexivity. Qed.

Lemma closing_attempt f recv seq err :
  (f = closing ∨ f = past_wait ∨ f = sends_done) →
  f (attempt recv seq err) = false.
Proof. intros [->|[->| ->]]; destruct err; reflexivity. Qed.

Lemma safe_init : safe init.
Proof. split; done. Qed.

Ltac count_simpl :=
  repeat first
    [ rewrite count_gos_app
    | erewrite count_gos_insert by eassumption ].

Ltac use_lookup Hwf Hi :=
  let H := fresh "Hshape" in
  pose proof (Forall_lookup_1 _ _ _ _ Hwf Hi) as H; inversion H; subst; clear H.


Lemma count_gos_mono (f f' : goroutine → bool) gs :
  (∀ g, f g = true → f' g = true) → count_gos f gs <= count_gos f' gs.
Proof.
  intros Hff. induction gs as [|a gs IH]; [done|].
  rewrite !count_gos_cons. specialize (Hff a).
  destruct (f a), (f' a); simpl; try lia.
Qed.

Lemma count_gos_split (f f' f'' : goroutine → bool) gs :
  (∀ g, f g = true → f' g = false ∧ f'' g = true) →
  (∀ g, f' g = true → f'' g = true) →
  count_gos f gs + count_gos f' gs <= count_gos f'' gs.
Proof.
  intros Hf Hf'. induction gs as [|a gs IH]; [done|].
  rewrite !count_gos_cons. specialize (Hf a). specialize (Hf' a).
  destruct (f a), (f' a), (f'' a); simpl; try lia;
    try (destruct Hf; done); try (specialize (Hf' eq_refl); done).
Qed.

Lemma past_wait_closing g : past_wait g = true → closing g = true.
Proof. destruct g; done. Qed.

Lemma sends_done_past_wait g : sends_done g = true → past_wait g = true.
Proof. destruct g; done. Qed.

Ltac wf_solve :=
  repeat first
    [ assumption
    | apply Forall_app_2
    | apply Forall_insert
    | apply Forall_cons_2
    | apply Forall_nil_2
    | apply wf_afterOut
    | apply wf_attempt
    | constructor ].

Ltac leb_solve :=
  match goal with
  | H : out_closed ?st = (1 <=? _) |- out_closed ?st = (1 <=? _) =>
      rewrite H; f_equal; lia
  | |- true = (1 <=? _) => symmetry; apply Z.leb_le; lia
  end.

Ltac field_solve :=
  simpl in *;
  first [ done | lia | leb_solve | wf_solve ].

(** Every step keeps the invariant: in particular no goroutine of
    [Start] ever panics, on a closed channel or on the wait group. *)
Lemma safe_step st e st' : safe st → step st e = Some st' → safe st'.
Proof.
  intros [Hp Hwf Hwg Htok Hzero Hcl]. unfold step. rewrite Hp.
  pose proof (count_gos_nonneg closing (gos st)) as Hc0.
  pose proof (count_gos_nonneg past_wait (gos st)) as Hp0.
  pose proof (count_gos_nonneg sends_done (gos st)) as Hs0.
  pose proof (count_gos_nonneg owes (gos st)) as Ho0.
  pose proof (count_gos_mono _ _ (gos st) past_wait_closing) as Hpc.
  pose proof (count_gos_mono _ _ (gos st) sends_done_past_wait) as Hsp.
  destruct e as [recv| |i seq err|i|i|i s|i].
  - destruct (returned st) eqn:Hret; [done|].
    destruct (in_nil st) eqn:Hin; [done|]. simpl. intros [= <-].
    unfold accept. simpl.
    destruct (Count (ReqConfig recv) =? 0);
      split; simpl; rewrite ?Hret, ?Hin; count_simpl; field_solve.
  - destruct (returned st) eqn:Hret; [done|].
    destruct (in_nil st) eqn:Hin; [done|]. simpl. intros [= <-].
    split; simpl; rewrite ?Hret, ?Hin; count_simpl; field_solve.
  - destruct (gos st !! i) as [g|] eqn:Hi; [|done].
    destruct g; try done.
    destruct (returned st) eqn:Hret; [done|]. intros [= <-].
    use_lookup Hwf Hi.
    set (recv' := set_Sent recv (float64_incr (Sent recv))).
    pose proof (owes_attempt recv' seq err) as Hoa.
    pose proof (closing_attempt closing recv' seq err ltac:(auto)) as Hca.
    pose proof (closing_attempt past_wait recv' seq err ltac:(auto)) as Hpa.
    pose proof (closing_attempt sends_done recv' seq err ltac:(auto)) as Hsa.
    unfold dispatch. fold recv'.
    split; simpl; rewrite ?Hret; count_simpl;
      rewrite ?Hoa, ?Hca, ?Hpa, ?Hsa; field_solve.
  - destruct (gos st !! i) as [g|] eqn:Hi; [|done].
    destruct g; try done.
    destruct (returned st) eqn:Hret; [done|]. intros [= <-].
    use_lookup Hwf Hi.
    split; simpl; rewrite ?Hret; count_simpl; field_solve.
  - destruct (gos st !! i) as [g|] eqn:Hi; [|done].
    destruct g; try done.
    destruct (returned st) eqn:Hret; [done|]. intros [= <-].
    use_lookup Hwf Hi.
    split; simpl; rewrite ?Hret; count_simpl; field_solve.
  - destruct (gos st !! i) as [g|] eqn:Hi; [|done].
    destruct g; try done. intros [= <-].
    use_lookup Hwf Hi.
    match goal with
    | Hk : ∀ s, ∃ resp, _ |- _ => destruct (Hk s) as [resp ->]
    end.
    pose proof (owes_afterOut recv) as Hoa.
    split; simpl; count_simpl; field_solve.
  - unfold run_goroutine.
    destruct (gos st !! i) as [g|] eqn:Hi; [|done].
    destruct g; try done.
    + pose proof (count_gos_lookup owes _ _ _ Hi eq_refl) as Hge.
      assert (out_closed st = false) as ->.
      { rewrite Hcl. apply Z.leb_gt.
        destruct (Z_lt_le_dec
                    (count_gos sends_done (gos st) + Z.b2z (returned st)) 1);
          [done|]. lia. }
      intros [= <-]. use_lookup Hwf Hi.
      pose proof (owes_afterOut recv) as Hoa.
      pose proof (closing_afterOut closing recv ltac:(auto)) as Hca.
      pose proof (closing_afterOut past_wait recv ltac:(auto)) as Hpa.
      pose proof (closing_afterOut sends_done recv ltac:(auto)) as Hsa.
      split; simpl; count_simpl; rewrite ?Hoa, ?Hca, ?Hpa, ?Hsa; field_solve.
    + intros [= <-]. use_lookup Hwf Hi.
      split; simpl; count_simpl; field_solve.
    + pose proof (count_gos_lookup owes _ _ _ Hi eq_refl) as Hge.
      destruct (wg st - 1 <? 0) eqn:Hneg; [apply Z.ltb_lt in Hneg; lia|].
      intros [= <-]. use_lookup Hwf Hi.
      split; simpl; count_simpl; field_solve.
    + destruct (wg st =? 0) eqn:Hz; [|done]. apply Z.eqb_eq in Hz.
      intros [= <-]. use_lookup Hwf Hi.
      split; simpl; count_simpl; field_solve.
    + pose proof (count_gos_lookup closing _ _ _ Hi eq_refl) as Hge.
      pose proof (count_gos_lookup past_wait _ _ _ Hi eq_refl) as Hge'.
      pose proof (count_gos_lookup
                    (λ g, match g with GoCloseOut _ => true | _ => false end)
                    _ _ _ Hi eq_refl) as Hge''.
      pose proof (count_gos_split
                    (λ g, match g with GoCloseOut _ => true | _ => false end)
                    sends_done closing (gos st)) as Hsplit.
      assert (Hnot : out_closed st = false).
      { rewrite Hcl. apply Z.leb_gt.
        assert (count_gos (λ g, match g with GoCloseOut _ => true | _ => false end) (gos st)
                + count_gos sends_done (gos st) <= count_gos closing (gos st)).
        { apply Hsplit; intros []; done. }
        destruct (in_nil st), (returned st); simpl in *; lia. }
      rewrite Hnot. intros [= <-]. use_lookup Hwf Hi.
      assert (count_gos sends_done (gos st) + Z.b2z (returned st) = 0).
      { rewrite Hnot in Hcl. symmetry in Hcl. apply Z.leb_gt in Hcl.
        destruct (returned st); simpl in *; lia. }
      split; simpl; count_simpl; field_solve.
Qed.



Lemma endless_afterOut recv :
  endless recv →
  afterOut recv = GoTimer (Interval (ReqConfig recv)) (GoSendPin recv GoEnd).
Proof.
  intros [Hneg|[Hs Hc]]; unfold afterOut.
  - replace (0 <=? Count (ReqConfig recv)) with false by (symmetry; apply Z.leb_gt; lia).
    reflexivity.
  - unfold float64_to_int. rewrite int_wrap_small by lia.
    replace (Count (ReqConfig recv) <=? Sent recv) with false
      by (symmetry; apply Z.leb_gt; lia).
    rewrite andb_false_r. reflexivity.
Qed.

Lemma endless_incr recv0 s :
  endless (set_Sent recv0 s) → endless (set_Sent recv0 (float64_incr s)).
Proof.
  intros [Hneg|[Hs Hc]]; [left; exact Hneg|right]. simpl in *.
  split; [|exact Hc]. unfold float64_incr.
  destruct (s <? 2 ^ 53) eqn:Hlt; [apply Z.ltb_lt in Hlt|]; lia.
Qed.

Lemma endless_attempt recv0 s seq err :
  endless (set_Sent recv0 s) →
  endless_go recv0 (attempt (set_Sent recv0 s) seq err).
Proof.
  intros He. destruct err as [e|].
  - rewrite attempt_unfold_err. by apply endless_out.
  - rewrite attempt_unfold_nil. apply endless_select with (s := s); [done|].
    intros sel. eexists. split; [reflexivity|].
    destruct sel as [|r]; simpl; [done|].
    destruct (classify _); done.
Qed.

Lemma endless_go_owes recv0 g : endless_go recv0 g → owes g = true.
Proof. by intros []. Qed.

Lemma serves_endless_spawn recv0 g st :
  serves_endless recv0 st → serves_endless recv0 (spawn g st).
Proof.
  intros (i & g' & Hi & Hg). exists i, g'. split; [|done].
  simpl. by apply lookup_app_l_Some.
Qed.

Lemma serves_endless_continue recv0 i j g k st :
  gos st !! i = Some g → endless_go recv0 g →
  (j = i → endless_go recv0 k) →
  serves_endless recv0 (continue j k st).
Proof.
  intros Hi Hg Hk. destruct (decide (j = i)) as [->|Hne].
  - exists i, k. split; [|auto]. simpl.
    apply list_lookup_insert_eq. by eapply lookup_lt_Some.
  - exists i, g. split; [|done]. simpl. by rewrite list_lookup_insert_ne.
Qed.

(** Whatever happens, an endless request keeps a goroutine. *)
Lemma endless_step recv0 st e st' :
  step st e = Some st' → serves_endless recv0 st → serves_endless recv0 st'.
Proof.
  unfold step. destruct (panicked st); [done|].
  intros Hstep (i & g & Hi & Hg).
  destruct e as [recv| |j seq err|j|j|j s|j].
  - destruct (returned st || in_nil st); [done|]. injection Hstep as <-.
    unfold accept. destruct (_ =? 0).
    + by exists i, g.
    + apply serves_endless_spawn. by exists i, g.
  - destruct (returned st || in_nil st); [done|]. injection Hstep as <-.
    apply serves_endless_spawn. by exists i, g.
  - destruct (gos st !! j) as [gj|] eqn:Hj; [|done].
    destruct gj; try done. destruct (returned st); [done|].
    injection Hstep as <-. unfold dispatch.
    destruct (decide (j = i)) as [->|Hne].
    + rewrite Hi in Hj. injection Hj as ->. inversion Hg; subst.
      exists (length (gos st)), (attempt (set_Sent recv0 (float64_incr s)) seq err).
      split.
      * simpl. rewrite lookup_app_r by (rewrite length_insert; lia).
        rewrite length_insert, Nat.sub_diag. reflexivity.
      * apply endless_attempt. by apply endless_incr.
    + apply serves_endless_spawn.
      eapply serves_endless_continue; [done..|]. intros; done.
  - destruct (gos st !! j) as [gj|] eqn:Hj; [|done].
    destruct gj; try done. destruct (returned st); [done|].
    injection Hstep as <-. apply serves_endless_spawn.
    eapply serves_endless_continue; [done..|].
    intros ->. rewrite Hi in Hj. injection Hj as ->. inversion Hg.
  - destruct (gos st !! j) as [gj|] eqn:Hj; [|done].
    destruct gj; try done. destruct (returned st); [done|].
    injection Hstep as <-.
    destruct (serves_endless_continue recv0 i j g gj st Hi Hg) as (i' & g' & Hi' & Hg').
    { intros ->. rewrite Hi in Hj. injection Hj as ->. inversion Hg. }
    by exists i', g'.
  - destruct (gos st !! j) as [gj|] eqn:Hj; [|done].
    destruct gj; try done. injection Hstep as <-.
    eapply serves_endless_continue; [done..|].
    intros ->. rewrite Hi in Hj. injection Hj as ->. inversion Hg; subst.
    match goal with Hk : ∀ sel, ∃ resp, _ |- _ => destruct (Hk s) as (resp & -> & Hresp) end.
    by apply endless_out.
  - unfold run_goroutine in Hstep.
    destruct (gos st !! j) as [gj|] eqn:Hj; [|done].
    destruct gj; try done.
    + destruct (out_closed st); injection Hstep as <-; [by exists i, g|].
      destruct (serves_endless_continue recv0 i j g gj (set_out st (out st ++ [resp])) Hi Hg)
        as (i' & g' & Hi' & Hg'); [|by exists i', g'].
      intros ->. rewrite Hi in Hj. injection Hj as ->. inversion Hg; subst.
      rewrite endless_afterOut by done. by apply endless_timer.
    + injection Hstep as <-.
      eapply serves_endless_continue; [done..|].
      intros ->. rewrite Hi in Hj. injection Hj as ->. inversion Hg; subst.
      by apply endless_pin.
    + destruct (wg st - 1 <? 0); injection Hstep as <-; [by exists i, g|].
      destruct (serves_endless_continue recv0 i j g gj (set_wg st (wg st - 1)) Hi Hg)
        as (i' & g' & Hi' & Hg'); [|by exists i', g'].
      intros ->. rewrite Hi in Hj. injection Hj as ->. inversion Hg.
    + destruct (wg st =? 0); [|done]. injection Hstep as <-.
      eapply serves_endless_continue; [done..|].
      intros ->. rewrite Hi in Hj. injection Hj as ->. inversion Hg.
    + destruct (out_closed st); injection Hstep as <-; [by exists i, g|].
      destruct (serves_endless_continue recv0 i j g gj (set_out_closed st) Hi Hg)
        as (i' & g' & Hi' & Hg'); [|by exists i', g'].
      intros ->. rewrite Hi in Hj. injection Hj as ->. inversion Hg.
Qed.

Lemma run_app st evs1 evs2 :
  run st (evs1 ++ evs2)
  = match run st evs1 with Some st1 => run st1 evs2 | None => None end.
Proof.
  revert st. induction evs1 as [|e evs1 IH]; intros st; simpl; [done|].
  destruct (step st e); [apply IH|done].
Qed.

Lemma safe_run st evs st' : safe st → run st evs = Some st' → safe st'.
Proof.
  revert st. induction evs as [|e evs IH]; intros st Hs; simpl.
  - by intros [= <-].
  - destruct (step st e) as [st1|] eqn:He; [|done].
    apply IH. by eapply safe_step.
Qed.

Lemma endless_run recv0 st evs st' :
  serves_endless recv0 st → run st evs = Some st' → serves_endless recv0 st'.
Proof.
  revert st. induction evs as [|e evs IH]; intros st Hs; simpl.
  - by intros [= <-].
  - destruct (step st e) as [st1|] eqn:He; [|done].
    apply IH. by eapply endless_step.
Qed.

Lemma set_Sent_Sent recv : set_Sent recv (Sent recv) = recv.
Proof. by destruct recv. Qed.

Lemma endless_accepted recv st st' :
  endless recv → step st (InRecv recv) = Some st' → serves_endless recv st'.
Proof.
  intros He. unfold step. destruct (panicked st); [done|].
  destruct (returned st || in_nil st); [done|]. intros [= <-].
  unfold accept.
  replace (Count (ReqConfig recv) =? 0) with false.
  - exists (length (gos st)), (GoSendPin recv GoEnd). split.
    + simpl. rewrite lookup_app_r by lia. by rewrite Nat.sub_diag.
    + rewrite <- (set_Sent_Sent recv) at 2. apply endless_pin.
      by rewrite set_Sent_Sent.
  - symmetry. apply Z.eqb_neq. destruct He as [?|[_ ?]]; lia.
Qed.

(** While an endless request is served the wait group is above zero:
    the response channel cannot be closed and the loop cannot return. *)
Lemma endless_holds_out_open recv0 st :
  safe st → serves_endless recv0 st →
  1 <= wg st ∧ out_closed st = false ∧ returned st = false.
Proof.
  intros [Hp Hwf Hwg Htok Hzero Hcl] (i & g & Hi & Hg).
  pose proof (count_gos_lookup owes _ _ _ Hi (endless_go_owes _ _ Hg)) as Hge.
  pose proof (count_gos_nonneg past_wait (gos st)) as Hp0.
  pose proof (count_gos_nonneg sends_done (gos st)) as Hs0.
  pose proof (count_gos_mono _ _ (gos st) sends_done_past_wait) as Hsp.
  assert (count_gos past_wait (gos st) + Z.b2z (returned st) < 1) as Hlt.
  { destruct (Z_lt_le_dec (count_gos past_wait (gos st) + Z.b2z (returned st)) 1); [done|].
    lia. }
  split; [lia|]. split.
  - rewrite Hcl. apply Z.leb_gt. lia.
  - destruct (returned st); [simpl in Hlt; lia|done].
Qed.

Lemma endless_after_accept recv evsA evsB st :
  endless recv →
  run init (evsA ++ InRecv recv :: evsB) = Some st →
  safe st ∧ serves_endless recv st.
Proof.
  intros He. rewrite run_app.
  destruct (run init evsA) as [stA|] eqn:HA; [|done]. simpl.
  destruct (step stA (InRecv recv)) as [st1|] eqn:H1; [|done]. intros HB.
  split.
  - eapply safe_run; [|exact HB]. eapply safe_step; [|exact H1].
    eapply safe_run; [apply safe_init|exact HA].
  - eapply endless_run; [|exact HB]. by eapply endless_accepted.
Qed.

(** The goroutine of an endless request can always be led to its next
    response. *)
Lemma endless_go_responds recv0 st i g :
  safe st → gos st !! i = Some g → endless_go recv0 g →
  ∃ evs st' resp,
    run st evs = Some st' ∧ out st' = out st ++ [resp]
    ∧ ∃ s, RespRequest resp = set_Sent recv0 s.
Proof.
  intros Hsafe Hi Hg.
  destruct (endless_holds_out_open recv0 st Hsafe) as (Hwg & Hopen & Hret);
    [by exists i, g|].
  pose proof (safe_panicked _ Hsafe) as Hp.
  assert (Hout : ∀ st i resp k,
             panicked st = false → out_closed st = false →
             gos st !! i = Some (GoSendOut resp k) →
             step st (Run i) = Some (continue i k (set_out st (out st ++ [resp])))).
  { intros st0 i0 resp0 k0 Hp0 Ho0 Hi0. unfold step, run_goroutine.
    by rewrite Hp0, Hi0, Ho0. }
  inversion Hg as [s He Heq|d s He Heq|t k s He Hk Heq|resp s He Hresp Heq]; subst g.
  - exists [PinRecv i 0 (Some "send"%string); Run (length (gos st))].
    eexists. eexists. split; [|split].
    + simpl. unfold step at 1. rewrite Hp, Hi, Hret.
      erewrite Hout; [reflexivity|done|done|].
      unfold dispatch. simpl.
      rewrite lookup_app_r by (rewrite length_insert; lia).
      rewrite length_insert, Nat.sub_diag. reflexivity.
    + reflexivity.
    + by exists (float64_incr s).
  - exists [Run i; PinRecv i 0 (Some "send"%string); Run (length (gos st))].
    eexists. eexists. split; [|split].
    + simpl. unfold step at 1, run_goroutine. rewrite Hp, Hi.
      unfold step at 1. simpl. rewrite Hp, Hret.
      rewrite list_lookup_insert_eq by (by eapply lookup_lt_Some).
      erewrite Hout; [reflexivity|done|done|].
      unfold dispatch. simpl.
      rewrite lookup_app_r by (rewrite !length_insert; lia).
      rewrite !length_insert, Nat.sub_diag. reflexivity.
    + reflexivity.
    + by exists (float64_incr s).
  - destruct (Hk SelTimeout) as (resp & Hks & Hresp).
    exists [RunSelect i SelTimeout; Run i], (continue i (afterOut (set_Sent recv0 s))
              (set_out (continue i (k SelTimeout) st) (out st ++ [resp]))), resp.
    split; [|split; [reflexivity|by exists s]].
    simpl. unfold step at 1. rewrite Hp, Hi.
    erewrite Hout; [reflexivity|done|done|].
    simpl. rewrite list_lookup_insert_eq by (by eapply lookup_lt_Some).
    by rewrite Hks.
  - exists [Run i]. eexists. exists resp.
    split; [|split].
    + simpl. erewrite Hout; [reflexivity|done..].
    + reflexivity.
    + by exists s.
Qed.

Lemma endless_any_number recv0 (n : nat) : ∀ st,
  safe st → serves_endless recv0 st →
  ∃ evs st' rs,
    run st evs = Some st' ∧ out st' = out st ++ rs ∧ length rs = n
    ∧ Forall (λ resp, Id (RespRequest resp) = Id recv0) rs.
Proof.
  induction n as [|n IH]; intros st Hsafe Hserves.
  - exists [], st, []. by rewrite app_nil_r.
  - destruct Hserves as (i & g & Hi & Hg).
    destruct (endless_go_responds recv0 st i g Hsafe Hi Hg)
      as (evs1 & st1 & resp & Hrun1 & Hout1 & s & Hresp).
    destruct (IH st1) as (evs2 & st2 & rs & Hrun2 & Hout2 & Hlen & Hall).
    { by eapply safe_run. }
    { eapply endless_run; [|exact Hrun1]. by exists i, g. }
    exists (evs1 ++ evs2), st2, (resp :: rs). split; [|split; [|split]].
    + by rewrite run_app, Hrun1.
    + by rewrite Hout2, Hout1, <- app_assoc.
    + simpl. by rewrite Hlen.
    + constructor; [by rewrite Hresp|done].
Qed.

(** A request with a count of 0 is retired when it is accepted: the
    wait group is where it was, no goroutine is spawned for it and no
    response comes out. *)
Lemma zero_count_is_retired_at_once recv st st' :
  Count (ReqConfig recv) = 0 →
  step st (InRecv recv) = Some st' →
  wg st' = wg st ∧ gos st' = gos st ∧ out st' = out st.
Proof.
  intros Hzero. unfold step. destruct (panicked st); [done|].
  destruct (returned st || in_nil st); [done|]. intros [= <-].
  unfold accept. rewrite Hzero. simpl. repeat split. lia.
Qed.

(** C3, counterexample.  One request with count -1 is accepted, two
    attempts are dispatched, and the loop sees the sink closed.  The
    second response comes out, the goroutine that is to close the
    response channel is blocked in [wg.Wait], a third attempt is
    dispatched and its response comes out too; the channel is still
    open. *)
Lemma sink_close_does_not_stop_unbounded :
  ∃ st2 st3,
    run init (scenario.scenarioC_to_close ++ scenario.scenarioC_second_response)
    = Some st2
    ∧ dispatched scenario.scenarioC_to_close = 2%nat
    ∧ length (out st2) = 2%nat
    ∧ step st2 (Run 4) = None
    ∧ run st2 scenario.scenarioC_third_attempt = Some st3
    ∧ dispatched scenario.scenarioC_third_attempt = 1%nat
    ∧ length (out st3) = 3%nat
    ∧ out_closed st3 = false.
Proof.
  eexists. eexists.
  split; [vm_compute; reflexivity|].
  repeat split; vm_compute; reflexivity.
Qed.

(** C3, as the code has it.  A request with a negative count that was
    accepted keeps its unit of the wait group whatever happens next, the
    close of the sink included: the response channel is never closed,
    the loop never returns, and one more response of that request can
    always follow. *)
Theorem unbounded_request_outlives_close (recv : Request)
    (evsA evsB evsC : list event) (st : state) :
  Count (ReqConfig recv) < 0 →
  run init (evsA ++ InRecv recv :: evsB ++ InClosed :: evsC) = Some st →
  1 <= wg st ∧ out_closed st = false ∧ returned st = false
  ∧ ∃ evs st' resp,
      run st evs = Some st' ∧ out st' = out st ++ [resp]
      ∧ Id (RespRequest resp) = Id recv
      ∧ ReqConfig (RespRequest resp) = ReqConfig recv.
Proof.
  intros Hneg Hrun.
  destruct (endless_after_accept recv evsA (evsB ++ InClosed :: evsC) st)
    as [Hsafe Hserves]; [by left|done|].
  destruct (endless_holds_out_open recv st Hsafe Hserves) as (Hwg & Hopen & Hret).
  repeat (split; [done|]).
  destruct Hserves as (i & g & Hi & Hg).
  destruct (endless_go_responds recv st i g Hsafe Hi Hg)
    as (evs & st' & resp & Hrun' & Hout & s & Hresp).
  exists evs, st', resp. by rewrite Hresp.
Qed.

Lemma unbounded_request_outlives_close_witness :
  ∃ st, run init (scenario.scenarioC_to_close ++ scenario.scenarioC_second_response)
        = Some st
        ∧ out_closed st = false
        ∧ ∃ evs st' resp, run st evs = Some st' ∧ out st' = out st ++ [resp].
Proof.
  eexists. split; [vm_compute; reflexivity|].
  edestruct (unbounded_request_outlives_close
              (scenario.request scenario.cfgC) []
              [PinRecv 0 1 None;
               RunSelect 1 (SelFuture (scenario.echoReplyOf (Fin 10)));
               Run 1; Run 1; PinRecv 1 2 None]
              scenario.scenarioC_second_response)
    as (_ & Hopen & _ & evs & st' & resp & Hrun & Hout & _).
  - vm_compute. reflexivity.
  - vm_compute. reflexivity.
  - split; [exact Hopen|]. exists evs, st', resp. split; [exact Hrun|exact Hout].
Defined.

(** C1, at the failing input.  A request from the factory whose count
    is beyond [2 ^ 53] is never done: [Sent] is a [float64], stops at
    [2 ^ 53] and never reaches the count.  Its unit of the wait group
    is never released, and any number of responses can come out for it,
    more than its count included. *)
Theorem count_beyond_float64_never_done (recv : Request) :
  Sent recv = 0 →
  2 ^ 53 < Count (ReqConfig recv) →
  (∀ evsA evsB st,
      run init (evsA ++ InRecv recv :: evsB) = Some st →
      1 <= wg st ∧ out_closed st = false)
  ∧ ∀ n : nat, ∃ evs st,
      run init (InRecv recv :: evs) = Some st
      ∧ length (out st) = n
      ∧ Forall (λ resp, Id (RespRequest resp) = Id recv) (out st).
Proof.
  intros Hsent Hcount.
  assert (He : endless recv) by (right; lia).
  split.
  - intros evsA evsB st Hrun.
    destruct (endless_after_accept recv evsA evsB st He Hrun) as [Hsafe Hserves].
    destruct (endless_holds_out_open recv st Hsafe Hserves) as (? & ? & _). done.
  - intros n.
    assert (H1 : step init (InRecv recv) = Some (accept recv init))
      by reflexivity.
    assert (Hout1 : out (accept recv init) = []).
    { unfold accept. by destruct (_ =? 0). }
    destruct (endless_any_number recv n (accept recv init))
      as (evs & st' & rs & Hrun & Hout & Hlen & Hall).
    { eapply safe_step; [apply safe_init|exact H1]. }
    { by eapply endless_accepted. }
    exists evs, st'. rewrite Hout, Hout1. split; [|by split].
    change (run init (InRecv recv :: evs))
      with (match step init (InRecv recv) with
            | Some st => run st evs
            | None => None
            end).
    by rewrite H1.
Qed.

Lemma count_beyond_float64_never_done_witness :
  ∃ evs st,
    run init (InRecv (scenario.request scenario.cfgHuge) :: evs) = Some st
    ∧ length (out st) = 2%nat.
Proof.
  destruct (count_beyond_float64_never_done (scenario.request scenario.cfgHuge))
    as [_ Hany].
  - reflexivity.
  - vm_compute. reflexivity.
  - destruct (Hany 2%nat) as (evs & st & Hrun & Hlen & _).
    exists evs, st. split; [exact Hrun|exact Hlen].
Defined.

(** ** Bounded requests *)

Lemma total_owed_app P gs g :
  total_owed P (gs ++ [g]) = total_owed P gs + owed P g.
Proof.
  induction gs as [|a gs IH]; simpl; [lia|]. rewrite IH. lia.
Qed.

Lemma total_owed_insert P gs i g k :
  gs !! i = Some g →
  total_owed P (<[i:=k]> gs) = total_owed P gs - owed P g + owed P k.
Proof.
  revert i. induction gs as [|a gs IH]; intros [|i] Hi; simpl in *; try done.
  - injection Hi as ->. lia.
  - rewrite (IH i Hi). lia.
Qed.

Lemma owed_nonneg P g : within_count P g → 0 <= owed P g.
Proof.
  intros [recv Hb|d recv Hb|t k recv Hk Hb|resp Hb|g' Hg|]; simpl.
  - destruct (P recv); [|done]. destruct Hb; [done|]. lia.
  - destruct (P recv); [|done]. destruct Hb; [done|]. lia.
  - destruct (Hk SelTimeout) as (resp & -> & <-). simpl.
    destruct (P (RespRequest resp)); [|done]. destruct Hb; [done|]. lia.
  - destruct (P (RespRequest resp)); [|done]. destruct Hb; [done|]. lia.
  - by destruct g'.
  - done.
Qed.

Lemma total_owed_nonneg P gs : Forall (within_count P) gs → 0 <= total_owed P gs.
Proof.
  induction 1 as [|g gs Hg _ IH]; simpl; [done|].
  pose proof (owed_nonneg P g Hg). lia.
Qed.

Lemma owed_not_owes P g : owes g = false → owed P g = 0.
Proof. by destruct g. Qed.

Lemma total_owed_zero P gs : count_gos owes gs = 0 → total_owed P gs = 0.
Proof.
  induction gs as [|g gs IH]; [done|]. rewrite count_gos_cons. simpl.
  pose proof (count_gos_nonneg owes gs).
  destruct (owes g) eqn:Hg; simpl; [lia|]. intros Hz.
  rewrite owed_not_owes by done. rewrite IH; lia.
Qed.

Lemma answered_app P rs resp :
  answered P (rs ++ [resp])
  = answered P rs + (if P (RespRequest resp) then 1 else 0).
Proof.
  unfold answered. rewrite List.filter_app, length_app. simpl.
  destruct (P (RespRequest resp)); simpl; lia.
Qed.

Lemma asked_cons P e evs : asked P (e :: evs) = asked P [e] + asked P evs.
Proof. simpl. lia. Qed.

Section bounded.

Variable P : Request → bool.
Hypothesis P_Sent : ∀ recv s, P (set_Sent recv s) = P recv.

Lemma within_attempt recv seq err :
  (P recv = true →
   0 <= Sent recv < Count (ReqConfig recv)
   ∧ Count (ReqConfig recv) <= 2 ^ 53) →
  within_count P (attempt (set_Sent recv (float64_incr (Sent recv))) seq err)
  ∧ owed P (attempt (set_Sent recv (float64_incr (Sent recv))) seq err)
    = owed P (GoSendPin recv GoEnd).
Proof.
  intros Hb.
  assert (Hb' : P (set_Sent recv (float64_incr (Sent recv))) = true →
                1 <= float64_incr (Sent recv) <= Count (ReqConfig recv)
                ∧ Count (ReqConfig recv) <= 2 ^ 53
                ∧ float64_incr (Sent recv) = Sent recv + 1).
  { rewrite P_Sent. intros HP. destruct (Hb HP) as [Hs Hc].
    unfold float64_incr.
    replace (Sent recv <? 2 ^ 53) with true by (symmetry; apply Z.ltb_lt; lia).
    lia. }
  destruct err as [e|].
  - rewrite attempt_unfold_err. split.
    + apply (within_out P
               {| RespRequest := set_Sent recv (float64_incr (Sent recv));
                  Seq := seq; Err := Some e; Raw := untouched |}).
      simpl. intros HP. destruct (Hb' HP) as (? & ? & _). done.
    + simpl. rewrite P_Sent in *. destruct (P recv); [|done].
      destruct Hb' as (_ & _ & ->); [done|]. lia.
  - rewrite attempt_unfold_nil. split.
    + eapply within_select.
      * intros s. eexists. split; [reflexivity|].
        destruct s as [|r]; simpl; [done|]. by destruct (classify _).
      * simpl. intros HP. destruct (Hb' HP) as (? & ? & _). done.
    + simpl. rewrite P_Sent in *. destruct (P recv); [|done].
      destruct Hb' as (_ & _ & ->); [done|]. lia.
Qed.

Lemma within_afterOut resp :
  (P (RespRequest resp) = true →
   1 <= Sent (RespRequest resp) <= Count (ReqConfig (RespRequest resp))
   ∧ Count (ReqConfig (RespRequest resp)) <= 2 ^ 53) →
  within_count P (afterOut (RespRequest resp))
  ∧ owed P (afterOut (RespRequest resp))
    + (if P (RespRequest resp) then 1 else 0)
    = owed P (GoSendOut resp (afterOut (RespRequest resp))).
Proof.
  intros Hb. set (recv := RespRequest resp) in *. unfold afterOut.
  destruct (P recv) eqn:HP.
  - destruct Hb as [Hs Hc]; [done|].
    unfold float64_to_int. rewrite int_wrap_small by lia.
    destruct (0 <=? Count (ReqConfig recv)) eqn:H0;
      [|apply Z.leb_gt in H0; lia].
    destruct (Count (ReqConfig recv) <=? Sent recv) eqn:H1; simpl.
    + apply Z.leb_le in H1. fold recv. rewrite HP.
      split; [apply within_wgdone|lia].
    + apply Z.leb_gt in H1. fold recv. rewrite HP. split; [|lia].
      apply within_timer. intros _. lia.
  - simpl. fold recv. rewrite HP.
    destruct (_ && _); simpl; rewrite ?HP.
    + split; [apply within_wgdone|done].
    + split; [|done]. apply within_timer. intros HP'. congruence.
Qed.

Ltac use_within Hwf Hi :=
  let H := fresh "Hshape" in
  pose proof (Forall_lookup_1 _ _ _ _ Hwf Hi) as H; inversion H; subst;
  clear H; try discriminate.

Ltac use_wf Hwf Hi :=
  let H := fresh "Hshape" in
  pose proof (Forall_lookup_1 _ _ _ _ Hwf Hi) as H; inversion H; subst;
  clear H.

(** Every step keeps the books balanced. *)
Lemma accounted_step a st e st' :
  Forall wf_go (gos st) →
  accounted P a st → from_factory P e → step st e = Some st' →
  accounted P (a + asked P [e]) st'.
Proof.
  intros Hwf [Hw Hsum] He. unfold step. destruct (panicked st); [done|].
  destruct e as [recv| |i seq err|i|i|i s|i].
  - destruct (returned st || in_nil st); [done|]. intros [= <-].
    unfold accept. simpl in *.
    destruct (Count (ReqConfig recv) =? 0) eqn:Hz.
    + apply Z.eqb_eq in Hz. split; simpl; [done|].
      rewrite Hz. destruct (P recv); lia.
    + apply Z.eqb_neq in Hz. split; simpl.
      * apply Forall_app; split; [done|]. apply Forall_singleton.
        apply within_pin. intros HP. destruct (He HP) as [-> ?]. lia.
      * rewrite total_owed_app. simpl. destruct (P recv) eqn:HP; [|lia].
        destruct (He eq_refl) as [-> ?]. lia.
  - destruct (returned st || in_nil st); [done|]. intros [= <-].
    split; simpl.
    + apply Forall_app; split; [done|]. apply Forall_singleton.
      by apply within_other.
    + rewrite total_owed_app. simpl. lia.
  - destruct (gos st !! i) as [g|] eqn:Hi; [|done].
    destruct g; try done. destruct (returned st); [done|]. intros [= <-].
    use_within Hw Hi.
    match goal with Hb : P recv = true → _ |- _ =>
      destruct (within_attempt recv seq err Hb) as [Hwa Hoa] end.
    unfold dispatch. split; simpl.
    + apply Forall_app; split; [|by apply Forall_singleton].
      apply Forall_insert; [done|]. by apply within_other.
    + rewrite total_owed_app, (total_owed_insert P _ _ _ _ Hi), Hoa.
      simpl. lia.
  - destruct (gos st !! i) as [g|] eqn:Hi; [|done].
    destruct g; try done. destruct (returned st); [done|]. intros [= <-].
    assert (Hk : within_count P g ∧ owed P g = 0).
    { use_wf Hwf Hi. split; [by apply within_other|done]. }
    destruct Hk as [Hk Hk0]. split; simpl.
    + apply Forall_app; split; [|by apply Forall_singleton, within_other].
      by apply Forall_insert.
    + rewrite total_owed_app, (total_owed_insert P _ _ _ _ Hi), Hk0.
      simpl. lia.
  - destruct (gos st !! i) as [g|] eqn:Hi; [|done].
    destruct g; try done. destruct (returned st); [done|]. intros [= <-].
    assert (Hk : within_count P g ∧ owed P g = 0).
    { use_wf Hwf Hi. split; [by apply within_other|done]. }
    destruct Hk as [Hk Hk0]. split; simpl.
    + by apply Forall_insert.
    + rewrite (total_owed_insert P _ _ _ _ Hi), Hk0. simpl. lia.
  - destruct (gos st !! i) as [g|] eqn:Hi; [|done].
    destruct g; try done. intros [= <-].
    use_within Hw Hi.
    match goal with Hk : ∀ s, ∃ resp, _ |- _ =>
      destruct (Hk s) as (resp & Hks & Hresp);
      destruct (Hk SelTimeout) as (resp0 & Hk0 & Hresp0) end.
    split; simpl.
    + apply Forall_insert; [done|]. rewrite Hks, <- Hresp.
      apply within_out. by rewrite Hresp.
    + rewrite (total_owed_insert P _ _ _ _ Hi). simpl.
      rewrite Hks, Hk0. simpl. rewrite Hresp, Hresp0. lia.
  - unfold run_goroutine.
    destruct (gos st !! i) as [g|] eqn:Hi; [|done].
    destruct g; try done.
    + destruct (out_closed st); intros [= <-]; [split; simpl; [done|lia]|].
      use_within Hw Hi.
      match goal with Hb : P (RespRequest resp) = true → _ |- _ =>
        destruct (within_afterOut resp Hb) as [Hwa Hoa] end.
      split; simpl.
      * by apply Forall_insert.
      * rewrite (total_owed_insert P _ _ _ _ Hi), answered_app.
        rewrite <- Hoa. lia.
    + intros [= <-]. use_within Hw Hi. split; simpl.
      * apply Forall_insert; [done|]. by apply within_pin.
      * rewrite (total_owed_insert P _ _ _ _ Hi). simpl. lia.
    + destruct (wg st - 1 <? 0); intros [= <-]; [split; simpl; [done|lia]|].
      use_wf Hwf Hi. split; simpl.
      * apply Forall_insert; [done|]. by apply within_other.
      * rewrite (total_owed_insert P _ _ _ _ Hi). simpl. lia.
    + destruct (wg st =? 0); [|done]. intros [= <-].
      assert (Hk : within_count P g ∧ owed P g = 0).
      { use_wf Hwf Hi. split; [by apply within_other|done]. }
      destruct Hk as [Hk Hk0]. split; simpl.
      * by apply Forall_insert.
      * rewrite (total_owed_insert P _ _ _ _ Hi), Hk0. simpl. lia.
    + destruct (out_closed st); intros [= <-]; [split; simpl; [done|lia]|].
      assert (Hk : within_count P g ∧ owed P g = 0).
      { use_wf Hwf Hi. split; [by apply within_other|done]. }
      destruct Hk as [Hk Hk0]. split; simpl.
      * by apply Forall_insert.
      * rewrite (total_owed_insert P _ _ _ _ Hi), Hk0. simpl. lia.
Qed.

End bounded.

Lemma accounted_run P evs : ∀ a st st',
  (∀ recv s, P (set_Sent recv s) = P recv) →
  safe st → accounted P a st → Forall (from_factory P) evs →
  run st evs = Some st' →
  accounted P (a + asked P evs) st'.
Proof.
  induction evs as [|e evs IH]; intros a st st' HP Hsafe Hacc Hevs; simpl.
  - intros [= <-]. by rewrite Z.add_0_r.
  - destruct (step st e) as [st1|] eqn:He; [|done]. intros Hrun.
    apply Forall_cons in Hevs as [He' Hevs].
    replace (a + (match e with
                  | InRecv recv => if P recv then Count (ReqConfig recv) else 0
                  | _ => 0
                  end + asked P evs))
      with (a + asked P [e] + asked P evs) by (simpl; lia).
    eapply IH; [done| |  |done|exact Hrun].
    + by eapply safe_step.
    + eapply accounted_step; [done|apply (safe_wf _ Hsafe)|done..].
Qed.

Lemma accounted_init P : accounted P 0 init.
Proof. split; [constructor|done]. Qed.

(** The responses of the requests that satisfy [P] never exceed the sum
    of their counts, and when the response channel is closed they are
    exactly that many. *)
Theorem bounded_requests_get_their_count (P : Request → bool)
    (evs : list event) (st : state) :
  (∀ recv s, P (set_Sent recv s) = P recv) →
  Forall (from_factory P) evs →
  run init evs = Some st →
  answered P (out st) <= asked P evs
  ∧ (out_closed st = true → answered P (out st) = asked P evs).
Proof.
  intros HP Hevs Hrun.
  destruct (accounted_run P evs 0 init st HP safe_init (accounted_init P) Hevs Hrun)
    as [Hw Hsum].
  pose proof (total_owed_nonneg P _ Hw) as Hnn.
  rewrite Z.add_0_l in Hsum. split; [lia|].
  intros Hclosed.
  pose proof (safe_run init evs st safe_init Hrun) as [_ _ Hwg _ Hzero Hcl].
  rewrite Hclosed in Hcl. symmetry in Hcl. apply Z.leb_le in Hcl.
  pose proof (count_gos_mono _ _ (gos st) sends_done_past_wait) as Hsp.
  rewrite (total_owed_zero P (gos st)) in Hsum by lia. lia.
Qed.

Lemma asked_app P evs1 evs2 : asked P (evs1 ++ evs2) = asked P evs1 + asked P evs2.
Proof.
  induction evs1 as [|e evs1 IH]; simpl; [done|]. rewrite IH. lia.
Qed.

Lemma asked_other_id id evs :
  Forall (other_id id) evs → asked (has_id id) evs = 0.
Proof.
  induction 1 as [|e evs He _ IH]; [done|]. simpl. rewrite IH.
  destruct e as [recv| | | | | |]; try done. simpl in He.
  unfold has_id. by rewrite bool_decide_false.
Qed.

Lemma from_factory_other_id id evs :
  Forall (other_id id) evs → Forall (from_factory (has_id id)) evs.
Proof.
  intros Hall. eapply Forall_impl; [exact Hall|].
  intros [recv| | | | | |]; simpl; try done.
  intros Hne HP. unfold has_id in HP. by apply bool_decide_eq_true in HP.
Qed.

(** A request from the factory with a count [N] of at most [2 ^ 53],
    the only one with its identifier, never has more than [N] responses,
    and has exactly [N] when the response channel is closed. *)
Theorem request_within_float64_yields_count (recv : Request)
    (evsA evsB : list event) (st : state) :
  Sent recv = 0 →
  0 <= Count (ReqConfig recv) <= 2 ^ 53 →
  Forall (other_id (Id recv)) (evsA ++ evsB) →
  run init (evsA ++ InRecv recv :: evsB) = Some st →
  answered (has_id (Id recv)) (out st) <= Count (ReqConfig recv)
  ∧ (out_closed st = true →
     answered (has_id (Id recv)) (out st) = Count (ReqConfig recv)).
Proof.
  intros Hsent Hcount Hothers Hrun.
  apply Forall_app in Hothers as [HA HB].
  assert (Hasked : asked (has_id (Id recv)) (evsA ++ InRecv recv :: evsB)
                   = Count (ReqConfig recv)).
  { rewrite asked_app, asked_cons.
    rewrite (asked_other_id _ evsA), (asked_other_id _ evsB) by done.
    simpl. unfold has_id. rewrite bool_decide_true by done. lia. }
  rewrite <- Hasked.
  apply bounded_requests_get_their_count; [done| |done].
  apply Forall_app. split; [by apply from_factory_other_id|].
  constructor; [|by apply from_factory_other_id]. simpl. done.
Qed.

(** Scenario A runs to its end: three responses without error, the
    response channel closed, the loop returned. *)
Lemma scenarioA_three_responses :
  ∃ st, run init scenario.scenarioA = Some st
        ∧ length (out st) = 3%nat
        ∧ Forall (λ resp, Err resp = None) (out st)
        ∧ out_closed st = true ∧ returned st = true ∧ wg st = 0.
Proof.
  eexists. split; [vm_compute; reflexivity|].
  split; [vm_compute; reflexivity|]. split; [|by vm_compute].
  vm_compute. repeat constructor.
Qed.

(** ** What [Start] never does *)

Lemma count_gos_zero f gs :
  count_gos f gs = 0 → Forall (λ g, f g = false) gs.
Proof.
  induction gs as [|g gs IH]; [constructor|]. rewrite count_gos_cons.
  pose proof (count_gos_nonneg f gs). intros Hz.
  destruct (f g) eqn:Hg; simpl in Hz; [lia|].
  constructor; [done|]. apply IH. lia.
Qed.

Lemma wf_go_ended g :
  wf_go g → owes g = false → closing g = false → g = GoEnd.
Proof. by intros []. Qed.

(** X1.  [Start] never panics: whatever the caller, the pinger and the
    scheduler do, no goroutine sends on the closed response channel,
    closes it twice or takes the wait group below zero, and the wait
    group always counts the goroutines that still owe a [wg.Done]. *)
Theorem start_never_panics (evs : list event) (st : state) :
  run init evs = Some st →
  panicked st = false
  ∧ wg st = count_gos owes (gos st)
  ∧ 0 <= wg st.
Proof.
  intros Hrun. destruct (safe_run init evs st safe_init Hrun) as [Hp _ Hwg _ _ _].
  pose proof (count_gos_nonneg owes (gos st)). repeat split; [done|done|lia].
Qed.

Lemma start_never_panics_witness :
  ∃ st, run init scenario.scenarioA = Some st ∧ panicked st = false.
Proof.
  eexists. split; [vm_compute; reflexivity|].
  eapply (start_never_panics scenario.scenarioA). vm_compute. reflexivity.
Defined.

(** X2.  The response channel is closed last.  When it is closed, the
    sink has been seen closed, the wait group is at zero and no
    goroutine has a request left; when the loop has returned, the
    response channel is closed and every goroutine has run to its
    end. *)
Theorem response_channel_closes_last (evs : list event) (st : state) :
  run init evs = Some st →
  (out_closed st = true →
   in_nil st = true ∧ wg st = 0 ∧ Forall (λ g, owes g = false) (gos st))
  ∧ (returned st = true →
     out_closed st = true ∧ Forall (λ g, g = GoEnd) (gos st)).
Proof.
  intros Hrun.
  destruct (safe_run init evs st safe_init Hrun) as [Hp Hwf Hwg Htok Hzero Hcl].
  pose proof (count_gos_nonneg closing (gos st)) as Hc0.
  pose proof (count_gos_nonneg past_wait (gos st)) as Hp0.
  pose proof (count_gos_nonneg sends_done (gos st)) as Hs0.
  pose proof (count_gos_mono _ _ (gos st) past_wait_closing) as Hpc.
  pose proof (count_gos_mono _ _ (gos st) sends_done_past_wait) as Hsp.
  split.
  - intros Hclosed. rewrite Hclosed in Hcl. symmetry in Hcl.
    apply Z.leb_le in Hcl.
    assert (Hwg0 : wg st = 0) by (apply Hzero; lia).
    split; [|split; [done|]].
    + destruct (in_nil st); [done|]. destruct (returned st); simpl in *; lia.
    + apply count_gos_zero. lia.
  - intros Hret. rewrite Hret in *. simpl in *.
    assert (Hwg0 : wg st = 0) by (apply Hzero; lia).
    split; [rewrite Hcl; apply Z.leb_le; lia|].
    assert (Hno_c : count_gos closing (gos st) = 0)
      by (destruct (in_nil st); simpl in *; lia).
    assert (Hno_o : count_gos owes (gos st) = 0) by lia.
    apply count_gos_zero in Hno_c, Hno_o.
    apply Forall_forall. intros g Hg.
    rewrite Forall_forall in Hwf, Hno_c, Hno_o.
    apply wf_go_ended; auto.
Qed.

Lemma response_channel_closes_last_witness :
  ∃ st, run init scenario.scenarioA = Some st
        ∧ Forall (λ g, g = GoEnd) (gos st).
Proof.
  eexists. split; [vm_compute; reflexivity|].
  eapply (response_channel_closes_last scenario.scenarioA).
  - vm_compute. reflexivity.
  - vm_compute. reflexivity.
Defined.

Lemma closed_step st e st' :
  out_closed st = true → step st e = Some st' →
  out st' = out st ∧ out_closed st' = true.
Proof.
  intros Hc. unfold step. destruct (panicked st); [done|].
  destruct e as [recv| |i seq err|i|i|i s|i].
  - destruct (_ || _); [done|]. intros [= <-]. unfold accept.
    by destruct (_ =? 0).
  - destruct (_ || _); [done|]. by intros [= <-].
  - destruct (gos st !! i) as [[]|]; try done.
    destruct (returned st); [done|]. by intros [= <-].
  - destruct (gos st !! i) as [[]|]; try done.
    destruct (returned st); [done|]. by intros [= <-].
  - destruct (gos st !! i) as [[]|]; try done.
    destruct (returned st); [done|]. by intros [= <-].
  - destruct (gos st !! i) as [[]|]; try done. by intros [= <-].
  - unfold run_goroutine. destruct (gos st !! i) as [[]|]; try done.
    + rewrite Hc. by intros [= <-].
    + by intros [= <-].
    + destruct (_ <? 0); by intros [= <-].
    + destruct (_ =? 0); [|done]. by intros [= <-].
    + rewrite Hc. by intros [= <-].
Qed.

(** X3.  Once the response channel is closed nothing more comes out of
    it, and nothing that happens afterwards panics. *)
Theorem no_response_after_close (evs1 evs2 : list event) (st1 st2 : state) :
  run init evs1 = Some st1 →
  out_closed st1 = true →
  run st1 evs2 = Some st2 →
  out st2 = out st1 ∧ out_closed st2 = true ∧ panicked st2 = false.
Proof.
  intros Hrun1 Hc Hrun2.
  assert (Hsafe : safe st2).
  { eapply safe_run; [|exact Hrun2]. eapply safe_run; [apply safe_init|done]. }
  split; [|split; [|apply (safe_panicked _ Hsafe)]];
    clear Hrun1 Hsafe; revert st1 Hc Hrun2;
    induction evs2 as [|e evs2 IH]; intros st1 Hc; simpl;
    try (by intros [= <-]);
    destruct (step st1 e) as [st|] eqn:He; try done;
    destruct (closed_step st1 e st Hc He) as [Ho Hc']; intros Hrun.
  - rewrite <- Ho. by eapply IH.
  - by eapply IH.
Qed.

Lemma no_response_after_close_witness :
  ∃ st, run init scenario.scenarioA = Some st ∧ length (out st) = 3%nat.
Proof.
  eexists. split; [vm_compute; reflexivity|].
  edestruct (no_response_after_close
               (take 17 scenario.scenarioA) (drop 17 scenario.scenarioA))
    as (Hout & _).
  - vm_compute. reflexivity.
  - vm_compute. reflexivity.
  - vm_compute. reflexivity.
  - rewrite Hout. vm_compute. reflexivity.
Defined.

(** ** Identifiers *)

(** X4.  Successive calls of [NewRequest] hand out the identifiers that
    follow the generator, one after the other and without repetition, as
    long as the [uint64] has not wrapped; each request has the host and
    the data it was made for, the configuration of the receiver, and
    nothing sent. *)
Theorem NewRequest_ids_ascend (jobs : list (string * gmap string string))
    (g : goping) :
  0 <= idGen g →
  idGen g + Z.of_nat (length jobs) < 2 ^ 64 →
  let '(rs, g') := NewRequests g jobs in
  Id <$> rs = seqZ (idGen g + 1) (Z.of_nat (length jobs))
  ∧ NoDup (Id <$> rs)
  ∧ Host <$> rs = jobs.*1
  ∧ UserData <$> rs = jobs.*2
  ∧ Forall (λ r, Sent r = 0 ∧ ReqConfig r = cfg g) rs
  ∧ idGen g' = idGen g + Z.of_nat (length jobs)
  ∧ cfg g' = cfg g.
Proof.
  revert g. induction jobs as [|[hostname userData] jobs IH]; intros g H0 Hlt.
  - simpl. rewrite Z.add_0_r. repeat split; try done; constructor.
  - change (length ((hostname, userData) :: jobs)) with (S (length jobs)) in *.
    rewrite Nat2Z.inj_succ in *.
    simpl NewRequests. unfold NewRequest.
    rewrite uint64_wrap_small by lia.
    specialize (IH {| idGen := idGen g + 1; cfg := cfg g |}).
    destruct (NewRequests {| idGen := idGen g + 1; cfg := cfg g |} jobs)
      as [rs g'] eqn:Hrs.
    cbn [idGen cfg] in IH.
    destruct IH as (Hids & Hnd & Hh & Hu & Hall & Hgen & Hcfg); [lia|lia|].
    assert (Hseq : Id <$> ({| Id := idGen g + 1; Host := hostname;
                              ReqConfig := cfg g; UserData := userData;
                              Sent := 0 |} :: rs)
                   = seqZ (idGen g + 1) (Z.succ (Z.of_nat (length jobs)))).
    { rewrite fmap_cons, Hids. cbn [Id].
      rewrite (seqZ_cons (idGen g + 1)) by lia. do 2 f_equal; lia. }
    split; [exact Hseq|]. split; [rewrite Hseq; apply NoDup_seqZ|].
    split; [by rewrite fmap_cons, Hh|]. split; [by rewrite fmap_cons, Hu|].
    split; [by constructor|]. split; [lia|done].
Qed.

Lemma NewRequest_ids_ascend_witness :
  Id <$> (NewRequests (New scenario.cfgA)
            [("a"%string, ∅); ("b"%string, ∅); ("c"%string, ∅)]).1
  = [1; 2; 3].
Proof.
  pose proof (NewRequest_ids_ascend
                [("a"%string, ∅); ("b"%string, ∅); ("c"%string, ∅)]
                (New scenario.cfgA)) as H.
  destruct (NewRequests _ _) as [rs g'].
  destruct H as (Hids & _); [simpl; lia|simpl; lia|].
  simpl. rewrite Hids. reflexivity.
Defined.

Lemma answered_all rs : answered (λ _, true) rs = Z.of_nat (length rs).
Proof.
  unfold answered. f_equal. f_equal.
  induction rs as [|r rs IH]; simpl; [done|]. by rewrite IH.
Qed.

(** X5.  When every accepted request has a count that its counter can
    reach, the responses never number more than the counts put
    together, and exactly that many once the response channel is
    closed. *)
Theorem responses_total_the_counts (evs : list event) (st : state) :
  Forall (λ e, match e with
               | InRecv recv =>
                   Sent recv = 0 ∧ 0 <= Count (ReqConfig recv) <= 2 ^ 53
               | _ => True
               end) evs →
  run init evs = Some st →
  Z.of_nat (length (out st)) <= asked (λ _, true) evs
  ∧ (out_closed st = true →
     Z.of_nat (length (out st)) = asked (λ _, true) evs).
Proof.
  intros Hevs Hrun. rewrite <- answered_all.
  apply bounded_requests_get_their_count; [done| |done].
  eapply Forall_impl; [exact Hevs|]. intros [recv| | | | | |]; simpl; auto.
Qed.

Lemma responses_total_the_counts_witness :
  ∃ st, run init scenario.scenarioA = Some st
        ∧ Z.of_nat (length (out st)) = 3.
Proof.
  eexists. split; [vm_compute; reflexivity|].
  edestruct (responses_total_the_counts scenario.scenarioA) as [_ Heq].
  - repeat constructor; vm_compute; congruence.
  - vm_compute. reflexivity.
  - rewrite Heq; vm_compute; reflexivity.
Defined.

(** ** The order of the responses of a request *)

Lemma incr_capped m : 0 <= m → float64_incr (capped m) = capped (m + 1).
Proof.
  intros Hm. unfold float64_incr, capped.
  destruct (Z.min m (2 ^ 53) <? 2 ^ 53) eqn:Hlt.
  - apply Z.ltb_lt in Hlt. lia.
  - apply Z.ltb_ge in Hlt. lia.
Qed.

Lemma job_of_attempt recv seq err : job_of (attempt recv seq err) = Some recv.
Proof. by destruct err. Qed.

Lemma in_flight_attempt recv seq err : in_flight (attempt recv seq err) = 1.
Proof. by destruct err. Qed.

Lemma job_of_not_owes g : owes g = false → job_of g = None.
Proof. by destruct g. Qed.

Lemma job_of_afterOut recv :
  job_of (afterOut recv) = None
  ∨ (job_of (afterOut recv) = Some recv ∧ in_flight (afterOut recv) = 0).
Proof. unfold afterOut. destruct (_ && _); simpl; auto. Qed.

Lemma has_id_set_Sent id recv s : has_id id (set_Sent recv s) = has_id id recv.
Proof. done. Qed.

Lemma answered_nonneg P rs : 0 <= answered P rs.
Proof. unfold answered. lia. Qed.

Lemma count_gos_unique f gs i j g g' :
  count_gos f gs <= 1 → gs !! i = Some g → f g = true →
  gs !! j = Some g' → f g' = true → i = j.
Proof.
  revert i j. induction gs as [|a gs IH]; intros [|i] [|j]; simpl;
    rewrite ?count_gos_cons; try done.
  - intros Hc [= ->] Hg Hj Hg'. rewrite Hg in Hc.
    pose proof (count_gos_lookup f gs j g' Hj Hg'). simpl in Hc. lia.
  - intros Hc Hi Hg [= ->] Hg'. rewrite Hg' in Hc.
    pose proof (count_gos_lookup f gs i g Hi Hg). simpl in Hc. lia.
  - intros Hc Hi Hg Hj Hg'. f_equal. eapply IH; eauto.
    destruct (f a); simpl in Hc; lia.
Qed.

Lemma count_gos_app_list f gs gs' :
  count_gos f (gs ++ gs') = count_gos f gs + count_gos f gs'.
Proof. unfold count_gos. rewrite List.filter_app, length_app. lia. Qed.

Section order.

Variable recv : Request.

Let P := has_id (Id recv).

Lemma serves_job g r : job_of g = Some r → serves (Id recv) g = P r.
Proof. unfold serves. by intros ->. Qed.

Lemma serves_no_job g : job_of g = None → serves (Id recv) g = false.
Proof. unfold serves. by intros ->. Qed.

Lemma tracks_idle rs g : serves (Id recv) g = false → tracks recv rs g.
Proof.
  intros Hs r Hr HP. rewrite (serves_job _ _ Hr) in Hs.
  unfold P in Hs. congruence.
Qed.

(** Goroutine [i] goes on as [k], and [tail] is spawned; [out] stays. *)
Lemma in_order_replace st st' i g k tail :
  in_order recv st → gos st !! i = Some g →
  gos st' = <[i:=k]> (gos st) ++ tail → out st' = out st →
  Z.b2z (serves (Id recv) k) + count_gos (serves (Id recv)) tail
    <= Z.b2z (serves (Id recv) g) →
  Forall (tracks recv (out st)) (k :: tail) →
  in_order recv st'
  ∧ count_gos (serves (Id recv)) (gos st')
    <= count_gos (serves (Id recv)) (gos st)
  ∧ answered P (out st') = answered P (out st).
Proof.
  intros [Ho Hone Hj] Hi Hg Hout Hc Hk. rewrite Hout.
  apply Forall_cons in Hk as [Hk Htail].
  assert (Hle : count_gos (serves (Id recv)) (gos st')
                <= count_gos (serves (Id recv)) (gos st)).
  { rewrite Hg, count_gos_app_list, (count_gos_insert _ _ _ _ _ Hi). lia. }
  split; [|done]. split.
  - by rewrite Hout.
  - lia.
  - rewrite Hout, Hg. apply Forall_app. split; [|done].
    by apply Forall_insert.
Qed.

(** A goroutine that does not serve [recv] is spawned. *)
Lemma in_order_spawn st st' g :
  in_order recv st →
  gos st' = gos st ++ [g] → out st' = out st →
  serves (Id recv) g = false →
  in_order recv st'
  ∧ count_gos (serves (Id recv)) (gos st')
    <= count_gos (serves (Id recv)) (gos st)
  ∧ answered P (out st') = answered P (out st).
Proof.
  intros [Ho Hone Hj] Hg Hout Hs. rewrite Hout.
  assert (Hle : count_gos (serves (Id recv)) (gos st')
                <= count_gos (serves (Id recv)) (gos st)).
  { rewrite Hg, count_gos_app, Hs. simpl. lia. }
  split; [|done]. split.
  - by rewrite Hout.
  - lia.
  - rewrite Hout, Hg. apply Forall_app. split; [done|].
    apply Forall_singleton. by apply tracks_idle.
Qed.

(** Nothing of [gos] and [out] changes. *)
Lemma in_order_same st st' :
  in_order recv st → gos st' = gos st → out st' = out st →
  in_order recv st'
  ∧ count_gos (serves (Id recv)) (gos st')
    <= count_gos (serves (Id recv)) (gos st)
  ∧ answered P (out st') = answered P (out st).
Proof.
  intros [Ho Hone Hj] Hg Hout. rewrite Hout, Hg.
  split; [|done]. split; by rewrite ?Hout, ?Hg.
Qed.

(** The response of goroutine [i] comes out. *)
Lemma in_order_send st i resp :
  in_order recv st →
  gos st !! i = Some (GoSendOut resp (afterOut (RespRequest resp))) →
  let st' := continue i (afterOut (RespRequest resp))
               (set_out st (out st ++ [resp])) in
  in_order recv st'
  ∧ count_gos (serves (Id recv)) (gos st')
    <= count_gos (serves (Id recv)) (gos st)
  ∧ (count_gos (serves (Id recv)) (gos st) = 0 →
     answered P (out st') = answered P (out st)).
Proof.
  intros [Ho Hone Hj] Hi st'. simpl.
  pose proof (Forall_lookup_1 _ _ _ _ Hj Hi) as Hg.
  specialize (Hg (RespRequest resp) eq_refl). simpl in Hg.
  assert (Hsk : serves (Id recv) (afterOut (RespRequest resp)) = true →
                P (RespRequest resp) = true).
  { destruct (job_of_afterOut (RespRequest resp)) as [Hn|[Hn _]].
    - by rewrite (serves_no_job _ Hn).
    - by rewrite (serves_job _ _ Hn). }
  assert (Hle : count_gos (serves (Id recv))
                  (<[i:=afterOut (RespRequest resp)]> (gos st))
                <= count_gos (serves (Id recv)) (gos st)).
  { rewrite (count_gos_insert _ _ _ _ _ Hi).
    change (serves (Id recv) (GoSendOut resp (afterOut (RespRequest resp))))
      with (P (RespRequest resp)).
    destruct (serves (Id recv) (afterOut (RespRequest resp)));
      [rewrite Hsk by done|destruct (P (RespRequest resp))]; simpl; lia. }
  rewrite answered_app. fold P.
  destruct (P (RespRequest resp)) eqn:HP.
  - specialize (Hg HP). split; [|split; [done|]].
    + split; simpl.
      * intros k r. rewrite List.filter_app. simpl. fold P. rewrite HP.
        intros Hk. apply lookup_app_Some in Hk as [Hk|[Hlen Hk]].
        { by apply Ho. }
        apply list_lookup_singleton_Some in Hk as [Hk <-].
        rewrite Hg. f_equal. f_equal. unfold answered. fold P. lia.
      * lia.
      * eapply (Forall_insert_unique (serves (Id recv))); [exact Hone|exact Hi|..].
        { unfold serves. simpl. exact HP. }
        { intros r Hr HPr.
          destruct (job_of_afterOut (RespRequest resp)) as [Hn|[Hn Hf]];
            [congruence|].
          rewrite Hf. rewrite Hn in Hr. injection Hr as <-.
          rewrite Hg. f_equal. f_equal. rewrite answered_app. fold P.
          rewrite HP. lia. }
        { intros g'. apply tracks_idle. }
    + intros H0.
      pose proof (count_gos_lookup (serves (Id recv)) _ _ _ Hi) as H1.
      unfold serves in H1 at 1. simpl in H1. specialize (H1 HP). lia.
  - split; [|split; [done|lia]].
    split; simpl.
    + intros k r. rewrite List.filter_app. simpl. fold P. rewrite HP.
      rewrite app_nil_r. apply Ho.
    + lia.
    + apply Forall_insert.
      * eapply Forall_impl; [exact Hj|]. intros g' Hg' r Hr HPr.
        rewrite answered_app. fold P. rewrite HP, Z.add_0_r. by apply Hg'.
      * apply tracks_idle.
        destruct (serves (Id recv) (afterOut (RespRequest resp))); [|done].
        by specialize (Hsk eq_refl).
Qed.

End order.

Ltac shape_of Hw Hi :=
  let H := fresh "Hshape" in
  pose proof (Forall_lookup_1 _ _ _ _ Hw Hi) as H; inversion H; subst;
  clear H; try discriminate.

Ltac loosen H :=
  destruct H as (? & ? & ?); split; [done|split; [done|intros _; done]].

Lemma count_gos_one f g : count_gos f [g] = Z.b2z (f g).
Proof. rewrite count_gos_cons. unfold count_gos. simpl. lia. Qed.

Lemma set_Sent_set_Sent recv s s' :
  set_Sent (set_Sent recv s) s' = set_Sent recv s'.
Proof. done. Qed.

Lemma from_factory_none e : from_factory (λ _, false) e.
Proof. by destruct e. Qed.

Section order_steps.

Variable recv : Request.

Let P := has_id (Id recv).

Lemma in_order_step st e st' :
  Forall wf_go (gos st) →
  Forall (within_count (λ _, false)) (gos st) →
  in_order recv st → other_id (Id recv) e → step st e = Some st' →
  in_order recv st'
  ∧ count_gos (serves (Id recv)) (gos st')
    <= count_gos (serves (Id recv)) (gos st)
  ∧ (count_gos (serves (Id recv)) (gos st) = 0 →
     answered P (out st') = answered P (out st)).
Proof.
  intros Hwf Hw Hin He. unfold step. destruct (panicked st); [done|].
  destruct e as [recv0| |i seq err|i|i|i s|i].
  - destruct (returned st || in_nil st); [done|]. intros [= <-].
    unfold accept. destruct (Count (ReqConfig recv0) =? 0).
    + assert (H := in_order_same recv st
                     (set_wg (set_wg st (wg st + 1))
                        (wg (set_wg st (wg st + 1)) - 1)) Hin eq_refl eq_refl).
      loosen H.
    + assert (H := in_order_spawn recv st
                     (spawn (GoSendPin recv0 GoEnd) (set_wg st (wg st + 1)))
                     (GoSendPin recv0 GoEnd) Hin eq_refl eq_refl).
      simpl in He. unfold serves, has_id in H. simpl in H.
      rewrite bool_decide_eq_false_2 in H by done. specialize (H eq_refl).
      loosen H.
  - destruct (returned st || in_nil st); [done|]. intros [= <-].
    assert (H := in_order_spawn recv st
                   (spawn (GoSendDoneIn GoEnd) (set_in_nil st))
                   (GoSendDoneIn GoEnd) Hin eq_refl eq_refl eq_refl).
    loosen H.
  - destruct (gos st !! i) as [g|] eqn:Hi; [|done].
    destruct g; try done. destruct (returned st); [done|]. intros [= <-].
    shape_of Hw Hi.
    pose proof (Forall_lookup_1 _ _ _ _ (in_order_job _ _ Hin) Hi) as Hg.
    specialize (Hg recv0 eq_refl). simpl in Hg.
    assert (H := in_order_replace recv st
                   (dispatch recv0 seq err (continue i GoEnd st)) i
                   (GoSendPin recv0 GoEnd) GoEnd
                   [attempt (set_Sent recv0 (float64_incr (Sent recv0))) seq err]
                   Hin Hi eq_refl eq_refl).
    rewrite count_gos_one in H.
    rewrite (serves_job recv _ _ (job_of_attempt _ seq err)) in H.
    rewrite (serves_job recv (GoSendPin recv0 GoEnd) recv0 eq_refl) in H.
    rewrite has_id_set_Sent in H. simpl in H.
    assert (Ht : Forall (tracks recv (out st))
                   [GoEnd;
                    attempt (set_Sent recv0 (float64_incr (Sent recv0)))
                      seq err]).
    { constructor; [by apply tracks_idle|]. apply Forall_singleton.
      intros r. rewrite job_of_attempt, in_flight_attempt. intros [= <-] HP.
      rewrite has_id_set_Sent in HP. specialize (Hg HP).
      rewrite Z.add_0_r in Hg. rewrite Hg at 1. rewrite set_Sent_set_Sent.
      f_equal. rewrite Hg. simpl. apply incr_capped, answered_nonneg. }
    specialize (H ltac:(lia) Ht). loosen H.
  - destruct (gos st !! i) as [g|] eqn:Hi; [|done].
    destruct g; try done. destruct (returned st); [done|]. intros [= <-].
    assert (H := in_order_replace recv st
                   (spawn closer (continue i g st)) i
                   (GoSendDoneIn g) g [closer] Hin Hi eq_refl eq_refl).
    assert (g = GoEnd) as -> by (by shape_of Hwf Hi).
    rewrite count_gos_one in H. simpl in H.
    specialize (H ltac:(done)
                  ltac:(repeat constructor; by apply tracks_idle)).
    loosen H.
  - destruct (gos st !! i) as [g|] eqn:Hi; [|done].
    destruct g; try done. destruct (returned st); [done|]. intros [= <-].
    assert (H := in_order_replace recv st
                   (set_returned (continue i g st)) i
                   (GoSendDone g) g [] Hin Hi).
    assert (g = GoEnd) as -> by (by shape_of Hwf Hi).
    simpl in H. rewrite app_nil_r in H.
    specialize (H eq_refl eq_refl ltac:(done)
                  ltac:(repeat constructor; by apply tracks_idle)).
    loosen H.
  - destruct (gos st !! i) as [g|] eqn:Hi; [|done].
    destruct g; try done. intros [= <-].
    shape_of Hw Hi.
    match goal with Hk : ∀ s, ∃ resp, _ |- _ =>
      destruct (Hk s) as (resp & Hks & Hresp);
      destruct (Hk SelTimeout) as (resp0 & Hk0 & Hresp0) end.
    pose proof (Forall_lookup_1 _ _ _ _ (in_order_job _ _ Hin) Hi) as Hg.
    assert (H := in_order_replace recv st (continue i (k s) st) i
                   (GoSelect timeout k) (k s) [] Hin Hi).
    simpl in H. rewrite app_nil_r in H.
    specialize (H eq_refl eq_refl).
    assert (Hs : serves (Id recv) (k s) = serves (Id recv) (GoSelect timeout k)).
    { unfold serves. simpl. rewrite Hks, Hk0. simpl. congruence. }
    rewrite Hs in H.
    assert (Ht : Forall (tracks recv (out st)) [k s]).
    { apply Forall_singleton. intros r Hr HPr. rewrite Hks in *. simpl in *.
      apply Hg; [|done]. simpl. rewrite Hk0. simpl. congruence. }
    change (count_gos (serves (Id recv)) []) with 0 in H.
    specialize (H ltac:(lia) Ht). loosen H.
  - unfold run_goroutine.
    destruct (gos st !! i) as [g|] eqn:Hi; [|done].
    destruct g; try done.
    + destruct (out_closed st); intros [= <-].
      { assert (H := in_order_same recv st (panic st) Hin eq_refl eq_refl).
        loosen H. }
      shape_of Hw Hi. by apply in_order_send.
    + intros [= <-]. shape_of Hw Hi.
      assert (H := in_order_replace recv st
                     (continue i (GoSendPin recv0 GoEnd) st) i
                     (GoTimer d (GoSendPin recv0 GoEnd))
                     (GoSendPin recv0 GoEnd) [] Hin Hi).
      simpl in H. rewrite app_nil_r in H.
      specialize (H eq_refl eq_refl).
      change (count_gos (serves (Id recv)) []) with 0 in H.
      change (serves (Id recv) (GoTimer d (GoSendPin recv0 GoEnd)))
        with (serves (Id recv) (GoSendPin recv0 GoEnd)) in H.
      pose proof (Forall_lookup_1 _ _ _ _ (in_order_job _ _ Hin) Hi) as Hg.
      specialize (H ltac:(lia) ltac:(by apply Forall_singleton)).
      loosen H.
    + destruct (wg st - 1 <? 0); intros [= <-].
      { assert (H := in_order_same recv st (panic st) Hin eq_refl eq_refl).
        loosen H. }
      assert (H := in_order_replace recv st
                     (continue i g (set_wg st (wg st - 1))) i
                     (GoWgDone g) g [] Hin Hi).
      assert (g = GoEnd) as -> by (by shape_of Hwf Hi).
      simpl in H. rewrite app_nil_r in H.
      specialize (H eq_refl eq_refl ltac:(done)
                    ltac:(repeat constructor; by apply tracks_idle)).
      loosen H.
    + destruct (wg st =? 0); [|done]. intros [= <-].
      assert (H := in_order_replace recv st (continue i g st) i
                     (GoWgWait g) g [] Hin Hi).
      assert (g = GoCloseOut (GoSendDone GoEnd)) as ->
        by (by shape_of Hwf Hi).
      simpl in H. rewrite app_nil_r in H.
      specialize (H eq_refl eq_refl ltac:(done)
                    ltac:(repeat constructor; by apply tracks_idle)).
      loosen H.
    + destruct (out_closed st); intros [= <-].
      { assert (H := in_order_same recv st (panic st) Hin eq_refl eq_refl).
        loosen H. }
      assert (H := in_order_replace recv st
                     (continue i g (set_out_closed st)) i
                     (GoCloseOut g) g [] Hin Hi).
      assert (g = GoSendDone GoEnd) as -> by (by shape_of Hwf Hi).
      simpl in H. rewrite app_nil_r in H.
      specialize (H eq_refl eq_refl ltac:(done)
                    ltac:(repeat constructor; by apply tracks_idle)).
      loosen H.
Qed.

Lemma in_order_run evs : ∀ st st' a,
  safe st → accounted (λ _, false) a st →
  in_order recv st → Forall (other_id (Id recv)) evs →
  run st evs = Some st' →
  in_order recv st'
  ∧ count_gos (serves (Id recv)) (gos st')
    <= count_gos (serves (Id recv)) (gos st)
  ∧ (count_gos (serves (Id recv)) (gos st) = 0 →
     answered P (out st') = answered P (out st)).
Proof.
  induction evs as [|e evs IH]; intros st st' a Hsafe Hacc Hin Hevs; simpl.
  - intros [= <-]. done.
  - destruct (step st e) as [st1|] eqn:He; [|done]. intros Hrun.
    apply Forall_cons in Hevs as [He' Hevs].
    destruct (in_order_step st e st1 (safe_wf _ Hsafe)
                (accounted_within _ _ _ Hacc) Hin He' He) as (Hin1 & Hc1 & Ha1).
    destruct (IH st1 st' (a + asked (λ _, false) [e])) as (Hin' & Hc' & Ha');
      [by eapply safe_step| |done..|].
    { eapply accounted_step; [done|apply (safe_wf _ Hsafe)|done|
                              apply from_factory_none|done]. }
    split; [done|]. split; [lia|]. intros H0.
    pose proof (count_gos_nonneg (serves (Id recv)) (gos st1)).
    rewrite Ha', Ha1; [done|lia..].
Qed.

Lemma in_order_init : in_order recv init.
Proof. split; simpl; [done|done|constructor]. Qed.

Lemma in_order_accept st st' :
  in_order recv st → Sent recv = 0 →
  count_gos (serves (Id recv)) (gos st) = 0 →
  answered P (out st) = 0 →
  step st (InRecv recv) = Some st' → in_order recv st'.
Proof.
  intros [Ho Hone Hj] Hs H0 Ha. unfold step.
  destruct (panicked st); [done|].
  destruct (returned st || in_nil st); [done|]. intros [= <-].
  unfold accept. destruct (Count (ReqConfig recv) =? 0); [done|].
  split; simpl; [done| |].
  - rewrite count_gos_app. unfold count_gos in *.
    destruct (serves (Id recv) (GoSendPin recv GoEnd)); simpl; lia.
  - apply Forall_app. split; [done|]. apply Forall_singleton.
    intros r [= <-] _. fold P. rewrite Ha. simpl.
    transitivity (set_Sent recv (Sent recv)); [by rewrite set_Sent_Sent|].
    by rewrite Hs.
Qed.

End order_steps.

(** X6.  A request that is accepted once, with nothing sent, gets its
    responses in the order of its attempts: the response at position
    [k] among them carries the request as submitted with [Sent] equal
    to [k + 1], held at [2 ^ 53] where the [float64] stops counting;
    and at no time do two goroutines serve the request. *)
Theorem responses_follow_attempts (recv : Request) (evsA evsB : list event)
    (st : state) :
  Sent recv = 0 →
  Forall (other_id (Id recv)) (evsA ++ evsB) →
  run init (evsA ++ InRecv recv :: evsB) = Some st →
  (∀ k resp,
     List.filter (λ resp, has_id (Id recv) (RespRequest resp)) (out st) !! k
     = Some resp →
     RespRequest resp = set_Sent recv (Z.min (Z.of_nat k + 1) (2 ^ 53)))
  ∧ count_gos (serves (Id recv)) (gos st) <= 1.
Proof.
  intros Hs Hevs Hrun. apply Forall_app in Hevs as [HA HB].
  rewrite run_app in Hrun.
  destruct (run init evsA) as [stA|] eqn:HrunA; [|done]. simpl in Hrun.
  destruct (step stA (InRecv recv)) as [st1|] eqn:He; [|done].
  destruct (in_order_run recv evsA init stA 0 safe_init (accounted_init _)
              (in_order_init recv) HA HrunA) as (HinA & HcA & HaA).
  change (count_gos (serves (Id recv)) (gos init)) with 0 in *.
  pose proof (count_gos_nonneg (serves (Id recv)) (gos stA)).
  pose proof (safe_run _ _ _ safe_init HrunA) as HsafeA.
  pose proof (accounted_run (λ _, false) evsA 0 init stA ltac:(done) safe_init
                (accounted_init _)
                ltac:(apply Forall_forall; intros; apply from_factory_none)
                HrunA) as HaccA.
  assert (Hin1 : in_order recv st1).
  { eapply in_order_accept; [done..| | |done]; [lia|].
    rewrite HaA by done. done. }
  destruct (in_order_run recv evsB st1 st
              (0 + asked (λ _, false) evsA + asked (λ _, false) [InRecv recv]))
    as (Hin & _ & _); [..|done|done|].
  - by eapply safe_step.
  - eapply accounted_step; [done|apply (safe_wf _ HsafeA)|done|done|done].
  - done.
  - split; [apply (in_order_out _ _ Hin)|apply (in_order_one _ _ Hin)].
Qed.

Lemma responses_follow_attempts_witness :
  ∃ st resp,
    run init scenario.scenarioA = Some st
    ∧ out st !! 2%nat = Some resp
    ∧ RespRequest resp = set_Sent (scenario.request scenario.cfgA) 3.
Proof.
  do 2 eexists. split; [vm_compute; reflexivity|].
  split; [vm_compute; reflexivity|].
  refine (proj1 (responses_follow_attempts (scenario.request scenario.cfgA)
                   [] (tail scenario.scenarioA) _ eq_refl _ _) 2%nat _ _).
  - simpl. repeat constructor.
  - vm_compute. reflexivity.
  - vm_compute. reflexivity.
Defined.

(** X7.  No response is made up: while no request with identifier [id]
    has been accepted, no response carries that identifier and no
    goroutine serves it. *)
Theorem no_response_without_request (id : Z) (evs : list event) (st : state) :
  Forall (other_id id) evs →
  run init evs = Some st →
  Forall (λ resp, Id (RespRequest resp) ≠ id) (out st)
  ∧ Forall (λ g, serves id g = false) (gos st).
Proof.
  intros Hevs Hrun.
  set (recv := {| Id := id; Host := ""; ReqConfig := cfg (New scenario.cfgA);
                  UserData := ∅; Sent := 0 |}).
  destruct (in_order_run recv evs init st 0 safe_init (accounted_init _)
              (in_order_init recv) Hevs Hrun) as (_ & Hc & Ha).
  change (count_gos (serves (Id recv)) (gos init)) with 0 in *.
  pose proof (count_gos_nonneg (serves (Id recv)) (gos st)).
  specialize (Ha eq_refl). change (answered _ (out init)) with 0 in Ha.
  split.
  - unfold answered in Ha. apply Forall_forall. intros resp Hin Hid.
    assert (In resp (List.filter (λ resp, has_id (Id recv) (RespRequest resp))
                       (out st))).
    { apply List.filter_In. split; [by apply list_elem_of_In|].
      unfold has_id. by apply bool_decide_eq_true. }
    destruct (List.filter _ (out st)); [done|simpl in Ha; lia].
  - apply count_gos_zero. simpl in *. lia.
Qed.

Lemma no_response_without_request_witness :
  ∃ st, run init scenario.scenarioA = Some st
        ∧ Forall (λ resp, Id (RespRequest resp) ≠ 2) (out st).
Proof.
  eexists. split; [vm_compute; reflexivity|].
  refine (proj1 (no_response_without_request 2 scenario.scenarioA _ _ _)).
  - repeat constructor. vm_compute. congruence.
  - vm_compute. reflexivity.
Defined.

(** ** Sessions that run to their end *)

Lemma afterOut_last recv :
  0 <= Count (ReqConfig recv) <= Sent recv → Sent recv <= 2 ^ 53 →
  afterOut recv = GoWgDone GoEnd.
Proof.
  intros Hc Hs. unfold afterOut, float64_to_int.
  rewrite int_wrap_small by lia.
  replace (0 <=? Count (ReqConfig recv)) with true
    by (symmetry; apply Z.leb_le; lia).
  replace (Count (ReqConfig recv) <=? Sent recv) with true
    by (symmetry; apply Z.leb_le; lia).
  done.
Qed.

Lemma afterOut_more recv :
  0 <= Sent recv < Count (ReqConfig recv) → Sent recv <= 2 ^ 53 →
  afterOut recv = GoTimer (Interval (ReqConfig recv)) (GoSendPin recv GoEnd).
Proof.
  intros Hc Hs. unfold afterOut, float64_to_int.
  rewrite int_wrap_small by lia.
  replace (Count (ReqConfig recv) <=? Sent recv) with false
    by (symmetry; apply Z.leb_gt; lia).
  by rewrite andb_false_r.
Qed.

(** A state with a goroutine that owes a [wg.Done] is neither closed
    nor returned. *)
Lemma owing_open st i g :
  safe st → gos st !! i = Some g → owes g = true →
  returned st = false ∧ out_closed st = false ∧ panicked st = false
  ∧ 1 <= wg st.
Proof.
  intros [Hp Hwf Hwg Htok Hzero Hcl] Hi Hg.
  pose proof (count_gos_lookup owes _ _ _ Hi Hg) as H1.
  pose proof (count_gos_nonneg past_wait (gos st)) as Hp0.
  pose proof (count_gos_nonneg sends_done (gos st)) as Hs0.
  pose proof (count_gos_mono _ _ (gos st) sends_done_past_wait) as Hsp.
  assert (Hno : ¬ 1 <= count_gos past_wait (gos st) + Z.b2z (returned st)).
  { intros H. apply Hzero in H. lia. }
  assert (Hr : returned st = false).
  { destruct (returned st); [|done]. simpl in Hno. lia. }
  rewrite Hr in *. simpl in *. repeat split; [|done|lia].
  rewrite Hcl. apply Z.leb_gt. lia.
Qed.

(** The attempts that are left of a bounded request can all be made:
    each is dispatched, answered and sent on [out], and the last one
    releases the wait group. *)
Lemma attempts_complete (m : nat) : ∀ st i recv,
  safe st →
  gos st !! i = Some (GoSendPin recv GoEnd) →
  0 <= Sent recv →
  Count (ReqConfig recv) - Sent recv = Z.of_nat (S m) →
  Count (ReqConfig recv) <= 2 ^ 53 →
  ∃ evs st' rs,
    run st evs = Some st'
    ∧ accepted evs = []
    ∧ out st' = out st ++ rs
    ∧ length rs = S m
    ∧ Forall (λ resp, Id (RespRequest resp) = Id recv) rs
    ∧ wg st' = wg st - 1
    ∧ in_nil st' = in_nil st.
Proof.
  induction m as [|m IH]; intros st i recv Hsafe Hi Hs Hm Hc.
  - destruct (owing_open st i _ Hsafe Hi eq_refl) as (Hr & Hcl & Hp & Hwg).
    set (recv' := set_Sent recv (float64_incr (Sent recv))).
    set (resp := {| RespRequest := recv'; Seq := 0; Err := Some "e"%string;
                    Raw := untouched |}).
    set (j := length (gos st)).
    assert (Hincr : float64_incr (Sent recv) = Sent recv + 1).
    { unfold float64_incr.
      replace (Sent recv <? 2 ^ 53) with true
        by (symmetry; apply Z.ltb_lt; lia). done. }
    assert (Hafter : afterOut recv' = GoWgDone GoEnd).
    { apply afterOut_last; simpl; lia. }
    set (st1 := dispatch recv 0 (Some "e"%string) (continue i GoEnd st)).
    assert (H1 : step st (PinRecv i 0 (Some "e"%string)) = Some st1).
    { unfold step. by rewrite Hp, Hi, Hr. }
    assert (Hj1 : gos st1 !! j = Some (GoSendOut resp (GoWgDone GoEnd))).
    { unfold st1, dispatch. simpl. fold recv'. rewrite attempt_unfold_err, Hafter.
      unfold j. rewrite lookup_app_r by (rewrite length_insert; lia).
      by rewrite length_insert, Nat.sub_diag. }
    set (st2 := continue j (GoWgDone GoEnd) (set_out st1 (out st1 ++ [resp]))).
    assert (H2 : step st1 (Run j) = Some st2).
    { unfold step, run_goroutine. rewrite Hj1.
      replace (panicked st1) with false by done.
      replace (out_closed st1) with false by done. done. }
    assert (Hsafe2 : safe st2).
    { eapply safe_step; [|exact H2]. by eapply safe_step. }
    assert (Hj2 : gos st2 !! j = Some (GoWgDone GoEnd)).
    { unfold st2. simpl. apply list_lookup_insert_eq.
      by eapply lookup_lt_Some. }
    destruct (owing_open st2 j _ Hsafe2 Hj2 eq_refl) as (_ & _ & Hp2 & Hwg2).
    set (st3 := continue j GoEnd (set_wg st2 (wg st2 - 1))).
    assert (H3 : step st2 (Run j) = Some st3).
    { unfold step, run_goroutine. rewrite Hp2, Hj2.
      replace (wg st2 - 1 <? 0) with false by (symmetry; apply Z.ltb_ge; lia).
      done. }
    exists [PinRecv i 0 (Some "e"%string); Run j; Run j], st3, [resp].
    split; [simpl; by rewrite H1, H2, H3|].
    split; [done|].
    repeat split; try done. by repeat constructor.
  - destruct (owing_open st i _ Hsafe Hi eq_refl) as (Hr & Hcl & Hp & Hwg).
    set (recv' := set_Sent recv (float64_incr (Sent recv))).
    set (resp := {| RespRequest := recv'; Seq := 0; Err := Some "e"%string;
                    Raw := untouched |}).
    set (j := length (gos st)).
    assert (Hincr : float64_incr (Sent recv) = Sent recv + 1).
    { unfold float64_incr.
      replace (Sent recv <? 2 ^ 53) with true
        by (symmetry; apply Z.ltb_lt; lia). done. }
    assert (Hafter : afterOut recv'
                     = GoTimer (Interval (ReqConfig recv')) (GoSendPin recv' GoEnd)).
    { apply afterOut_more; simpl; lia. }
    set (st1 := dispatch recv 0 (Some "e"%string) (continue i GoEnd st)).
    assert (H1 : step st (PinRecv i 0 (Some "e"%string)) = Some st1).
    { unfold step. by rewrite Hp, Hi, Hr. }
    assert (Hj1 : gos st1 !! j = Some (GoSendOut resp (afterOut recv'))).
    { unfold st1, dispatch. simpl. fold recv'. rewrite attempt_unfold_err.
      unfold j. rewrite lookup_app_r by (rewrite length_insert; lia).
      by rewrite length_insert, Nat.sub_diag. }
    set (st2 := continue j (afterOut recv') (set_out st1 (out st1 ++ [resp]))).
    assert (H2 : step st1 (Run j) = Some st2).
    { unfold step, run_goroutine. rewrite Hj1.
      replace (panicked st1) with false by done.
      replace (out_closed st1) with false by done. done. }
    assert (Hj2 : gos st2 !! j = Some (afterOut recv')).
    { unfold st2. simpl. apply list_lookup_insert_eq.
      by eapply lookup_lt_Some. }
    rewrite Hafter in Hj2.
    set (st3 := continue j (GoSendPin recv' GoEnd) st2).
    assert (H3 : step st2 (Run j) = Some st3).
    { unfold step, run_goroutine. rewrite Hj2.
      replace (panicked st2) with false by done. done. }
    assert (Hsafe3 : safe st3).
    { eapply safe_step; [|exact H3]. eapply safe_step; [|exact H2].
      by eapply safe_step. }
    assert (Hj3 : gos st3 !! j = Some (GoSendPin recv' GoEnd)).
    { unfold st3. simpl. apply list_lookup_insert_eq.
      by eapply lookup_lt_Some. }
    destruct (IH st3 j recv' Hsafe3 Hj3) as (evs & st' & rs & Hrun & Hev & Hout & Hlen & Hrs & Hwg' & Hnil);
      [simpl; lia..|].
    exists ([PinRecv i 0 (Some "e"%string); Run j; Run j] ++ evs), st', (resp :: rs).
    split; [rewrite run_app; simpl; by rewrite H1, H2, H3|].
    split; [unfold accepted in *; rewrite omap_app, Hev; done|].
    split; [rewrite Hout; simpl; by rewrite <- app_assoc|].
    split; [simpl; lia|]. split; [by constructor|].
    split; [rewrite Hwg'; done|]. by rewrite Hnil.
Qed.

(** A request with a count that its counter can reach is accepted and
    served to its end. *)
Lemma request_completes st recv :
  safe st → in_nil st = false →
  Sent recv = 0 → 0 <= Count (ReqConfig recv) <= 2 ^ 53 →
  ∃ evs' st' rs,
    run st (InRecv recv :: evs') = Some st'
    ∧ accepted evs' = []
    ∧ out st' = out st ++ rs
    ∧ Z.of_nat (length rs) = Count (ReqConfig recv)
    ∧ Forall (λ resp, Id (RespRequest resp) = Id recv) rs
    ∧ wg st' = wg st
    ∧ in_nil st' = false
    ∧ safe st'.
Proof.
  intros Hsafe Hnil Hs Hc.
  pose proof (count_gos_nonneg closing (gos st)) as Hc0.
  assert (Hr : returned st = false).
  { pose proof (safe_token _ Hsafe) as Htok. rewrite Hnil in Htok.
    destruct (returned st); [simpl in Htok; lia|done]. }
  assert (Hacc : step st (InRecv recv) = Some (accept recv st)).
  { unfold step. by rewrite (safe_panicked _ Hsafe), Hr, Hnil. }
  assert (Hsafe1 : safe (accept recv st)) by (by eapply safe_step).
  destruct (decide (Count (ReqConfig recv) = 0)) as [H0|H0].
  - exists [], (accept recv st), [].
    split; [simpl; by rewrite Hacc|]. split; [done|].
    split; [unfold accept; rewrite H0; simpl; by rewrite app_nil_r|].
    split; [simpl; lia|]. split; [constructor|].
    split; [unfold accept; rewrite H0; simpl; lia|].
    split; [unfold accept; by rewrite H0|done].
  - destruct (attempts_complete (Z.to_nat (Count (ReqConfig recv) - 1))
                (accept recv st) (length (gos st)) recv Hsafe1)
      as (evs' & st' & rs & Hrun' & Hev & Hout & Hlen & Hrs & Hwg & Hnil');
      [|lia|lia|lia|].
    { unfold accept. apply Z.eqb_neq in H0. rewrite H0. simpl.
      apply lookup_snoc. }
    exists evs', st', rs.
    split; [simpl; by rewrite Hacc|]. split; [done|].
    assert (Hfields : out (accept recv st) = out st
                      ∧ wg (accept recv st) = wg st + 1
                      ∧ in_nil (accept recv st) = false).
    { unfold accept. apply Z.eqb_neq in H0. by rewrite H0. }
    destruct Hfields as (Ho & Hw & Hn).
    rewrite Hout, Hwg, Hnil', Ho, Hw, Hn.
    split; [done|]. split; [lia|]. split; [done|]. split; [lia|].
    split; [done|]. by eapply safe_run.
Qed.

(** X8.  A request with a count that its counter can reach can always
    be served to its end: from every state that [Start] reaches with
    the sink still open there is a run that accepts the request, brings
    out exactly [Count] responses, all of them its own, and leaves the
    wait group where it was. *)
Theorem bounded_request_can_complete (evs : list event) (st : state)
    (recv : Request) :
  run init evs = Some st →
  in_nil st = false →
  Sent recv = 0 →
  0 <= Count (ReqConfig recv) <= 2 ^ 53 →
  ∃ evs' st' rs,
    run st (InRecv recv :: evs') = Some st'
    ∧ accepted evs' = []
    ∧ out st' = out st ++ rs
    ∧ Z.of_nat (length rs) = Count (ReqConfig recv)
    ∧ Forall (λ resp, Id (RespRequest resp) = Id recv) rs
    ∧ wg st' = wg st
    ∧ in_nil st' = false
    ∧ panicked st' = false.
Proof.
  intros Hrun Hnil Hs Hc.
  pose proof (safe_run _ _ _ safe_init Hrun) as Hsafe.
  destruct (request_completes st recv Hsafe Hnil Hs Hc)
    as (evs' & st' & rs & H1 & H2 & H3 & H4 & H5 & H6 & H7 & H8).
  exists evs', st', rs. repeat (split; [done|]).
  apply (safe_panicked _ H8).
Qed.

Lemma bounded_request_can_complete_witness :
  ∃ evs' st',
    run init (InRecv (scenario.request scenario.cfgA) :: evs') = Some st'
    ∧ length (out st') = 3%nat.
Proof.
  destruct (bounded_request_can_complete [] init
              (scenario.request scenario.cfgA))
    as (evs' & st' & rs & Hrun & _ & Hout & Hlen & _);
    [reflexivity|reflexivity|reflexivity|vm_compute; split; congruence|].
  exists evs', st'. split; [exact Hrun|].
  rewrite Hout. simpl in *. lia.
Defined.

(** Closing the sink of a coordinator with nothing under way. *)
Lemma idle_close st :
  safe st → in_nil st = false → wg st = 0 →
  let n := length (gos st) in
  ∃ st',
    run st [InClosed; DoneInRecv n; Run (S n); Run (S n); DoneRecv (S n)]
    = Some st'
    ∧ out st' = out st
    ∧ out_closed st' = true
    ∧ returned st' = true
    ∧ safe st'.
Proof.
  intros Hsafe Hin Hwg n.
  pose proof Hsafe as [Hp Hwf Hwg' Htok Hzero Hcl].
  pose proof (count_gos_nonneg closing (gos st)) as Hc0.
  pose proof (count_gos_nonneg sends_done (gos st)) as Hs0.
  pose proof (count_gos_mono _ _ (gos st) sends_done_past_wait) as Hsp.
  pose proof (count_gos_mono _ _ (gos st) past_wait_closing) as Hpc.
  rewrite Hin in Htok.
  assert (Hret : returned st = false).
  { destruct (returned st); [|done]. simpl in Htok. lia. }
  rewrite Hret in Htok. simpl in Htok.
  assert (Hopen : out_closed st = false).
  { rewrite Hcl, Hret. apply Z.leb_gt. simpl. lia. }
  set (st1 := spawn (GoSendDoneIn GoEnd) (set_in_nil st)).
  set (st2 := spawn closer (continue n GoEnd st1)).
  set (st3 := continue (S n) (GoCloseOut (GoSendDone GoEnd)) st2).
  set (st4 := continue (S n) (GoSendDone GoEnd) (set_out_closed st3)).
  set (st5 := set_returned (continue (S n) GoEnd st4)).
  assert (H1 : step st InClosed = Some st1).
  { unfold step. by rewrite Hp, Hret, Hin. }
  assert (H2 : step st1 (DoneInRecv n) = Some st2).
  { unfold step. cbn [panicked st1 spawn set_gos set_in_nil returned gos].
    rewrite Hp, Hret, lookup_app_r by done. unfold n.
    by rewrite Nat.sub_diag. }
  assert (Hlen2 : length (gos st2) = S (S n)).
  { cbn. rewrite length_app, length_insert, length_app. simpl.
    unfold n. lia. }
  assert (Hg2 : gos st2 !! S n = Some closer).
  { cbn. rewrite lookup_app_r by (rewrite length_insert, length_app; simpl; lia).
    rewrite length_insert, length_app. simpl.
    by replace (S n - (length (gos st) + 1))%nat with 0%nat by (unfold n; lia). }
  assert (H3 : step st2 (Run (S n)) = Some st3).
  { unfold step, run_goroutine. rewrite Hg2.
    change (panicked st2) with (panicked st). change (wg st2) with (wg st).
    by rewrite Hp, Hwg. }
  assert (H4 : step st3 (Run (S n)) = Some st4).
  { unfold step, run_goroutine.
    change (panicked st3) with (panicked st).
    change (out_closed st3) with (out_closed st).
    change (gos st3) with (<[S n := GoCloseOut (GoSendDone GoEnd)]> (gos st2)).
    rewrite list_lookup_insert_eq by lia. by rewrite Hp, Hopen. }
  assert (H5 : step st4 (DoneRecv (S n)) = Some st5).
  { unfold step.
    change (panicked st4) with (panicked st).
    change (returned st4) with (returned st).
    change (gos st4)
      with (<[S n := GoSendDone GoEnd]>
              (<[S n := GoCloseOut (GoSendDone GoEnd)]> (gos st2))).
    rewrite list_lookup_insert_eq by (rewrite length_insert; lia).
    by rewrite Hp, Hret. }
  assert (Hrun : run st [InClosed; DoneInRecv n; Run (S n); Run (S n);
                         DoneRecv (S n)] = Some st5).
  { simpl. by rewrite H1, H2, H3, H4, H5. }
  exists st5. split; [done|]. split; [done|]. split; [done|].
  split; [done|]. by eapply safe_run.
Qed.

(** X9.  When the sink is closed while nothing is under way, the closer
    gets through [wg.Wait] at once: the response channel is closed with
    no further response, and the loop returns. *)
Theorem idle_close_closes_out (evs : list event) (st : state) :
  run init evs = Some st →
  in_nil st = false →
  wg st = 0 →
  let n := length (gos st) in
  ∃ st',
    run st [InClosed; DoneInRecv n; Run (S n); Run (S n); DoneRecv (S n)]
    = Some st'
    ∧ out st' = out st
    ∧ out_closed st' = true
    ∧ returned st' = true.
Proof.
  intros Hrun Hin Hwg n.
  destruct (idle_close st (safe_run _ _ _ safe_init Hrun) Hin Hwg)
    as (st' & H1 & H2 & H3 & H4 & _).
  by exists st'.
Qed.

Lemma idle_close_closes_out_witness :
  ∃ st', run init [InClosed; DoneInRecv 0; Run 1; Run 1; DoneRecv 1] = Some st'
         ∧ out_closed st' = true.
Proof.
  destruct (idle_close_closes_out [] init) as (st' & Hrun & _ & Hc & _);
    [reflexivity..|].
  exists st'. split; [exact Hrun|exact Hc].
Defined.

Lemma accepted_app evs1 evs2 :
  accepted (evs1 ++ evs2) = accepted evs1 ++ accepted evs2.
Proof. apply omap_app. Qed.

(** One request after the other is served to its end. *)
Lemma batch_completes recvs : ∀ st,
  safe st → in_nil st = false →
  Forall (λ recv, Sent recv = 0 ∧ 0 <= Count (ReqConfig recv) <= 2 ^ 53)
    recvs →
  ∃ evs st',
    run st evs = Some st'
    ∧ accepted evs = recvs
    ∧ Z.of_nat (length (out st'))
      = Z.of_nat (length (out st)) + asked (λ _, true) (InRecv <$> recvs)
    ∧ wg st' = wg st
    ∧ in_nil st' = false
    ∧ safe st'.
Proof.
  induction recvs as [|recv recvs IH]; intros st Hsafe Hnil Hall.
  - exists [], st. simpl. split; [done|]. split; [done|]. split; [lia|done].
  - apply Forall_cons in Hall as [[Hs Hc] Hall].
    destruct (request_completes st recv Hsafe Hnil Hs Hc)
      as (evs1 & st1 & rs & Hrun1 & Hacc1 & Hout1 & Hlen1 & _ & Hwg1 & Hnil1
          & Hsafe1).
    destruct (IH st1 Hsafe1 Hnil1 Hall)
      as (evs2 & st2 & Hrun2 & Hacc2 & Hout2 & Hwg2 & Hnil2 & Hsafe2).
    exists ((InRecv recv :: evs1) ++ evs2), st2.
    split; [by rewrite run_app, Hrun1|].
    split; [rewrite accepted_app, Hacc2;
            change (accepted (InRecv recv :: evs1))
              with (recv :: accepted evs1); by rewrite Hacc1|].
    split; [|split; [lia|done]].
    rewrite Hout2, Hout1, length_app, fmap_cons, asked_cons.
    change (asked (λ _, true) [InRecv recv])
      with (Count (ReqConfig recv) + 0).
    lia.
Qed.

(** X10.  A whole session can finish: for any batch of requests with
    counts that their counters can reach there is a run of [Start] that
    accepts exactly these requests, in order, brings out as many
    responses as the counts put together, closes the response channel
    and returns, without a panic. *)
Theorem bounded_batch_can_finish (recvs : list Request) :
  Forall (λ recv, Sent recv = 0 ∧ 0 <= Count (ReqConfig recv) <= 2 ^ 53)
    recvs →
  ∃ evs st,
    run init evs = Some st
    ∧ accepted evs = recvs
    ∧ Z.of_nat (length (out st)) = asked (λ _, true) (InRecv <$> recvs)
    ∧ out_closed st = true
    ∧ returned st = true
    ∧ panicked st = false.
Proof.
  intros Hall.
  destruct (batch_completes recvs init safe_init eq_refl Hall)
    as (evs1 & st1 & Hrun1 & Hacc1 & Hout1 & Hwg1 & Hnil1 & Hsafe1).
  destruct (idle_close st1 Hsafe1 Hnil1 Hwg1)
    as (st2 & Hrun2 & Hout2 & Hcl2 & Hret2 & Hsafe2).
  eexists (evs1 ++ _), st2.
  split; [by rewrite run_app, Hrun1|].
  split; [rewrite accepted_app, Hacc1; by rewrite app_nil_r|].
  split; [rewrite Hout2, Hout1; simpl; lia|].
  split; [done|]. split; [done|]. apply (safe_panicked _ Hsafe2).
Qed.

Lemma bounded_batch_can_finish_witness :
  ∃ evs st,
    run init evs = Some st
    ∧ accepted evs = [scenario.request scenario.cfgA]
    ∧ Z.of_nat (length (out st)) = 3
    ∧ returned st = true.
Proof.
  destruct (bounded_batch_can_finish [scenario.request scenario.cfgA])
    as (evs & st & Hrun & Hacc & Hlen & _ & Hret & _).
  - repeat constructor; vm_compute; congruence.
  - exists evs, st. repeat split; assumption.
Defined.

(** ** The error of a response *)




(** ** What a response is made of *)

Lemma made_of_mono S S' j seq err resp :
  S ⊆ S' → made_of S j seq err resp → made_of S' j seq err resp.
Proof.
  intros Hsub [Hseq Hm]. split; [done|]. destruct err as [e|]; [done|].
  destruct Hm as [(Hin & Hm)|(r & Hin & Hm)].
  - left. split; [by apply Hsub|done].
  - right. exists r. split; [by apply Hsub|done].
Qed.

Lemma answers_mono L L' S S' j g :
  L ⊆ L' → S ⊆ S' → answers L S j g → answers L' S' j g.
Proof.
  intros HL HS. destruct g; simpl; try done.
  - intros (seq & Hin & Hk). exists seq. split; [by apply HL|done].
  - intros (seq & err & Hin & Hm). exists seq, err.
    split; [by apply HL|by eapply made_of_mono].
Qed.

Lemma answers_attempt recv seq err L S j :
  (j, seq, err) ∈ L → answers L S j (attempt recv seq err).
Proof.
  intros Hin. destruct err as [e|].
  - rewrite attempt_unfold_err. simpl. by exists seq, (Some e).
  - rewrite attempt_unfold_nil. simpl. exists seq. split; [done|].
    intros s. do 2 eexists. split; [reflexivity|].
    destruct s as [|r]; cbn [selectBody].
    + done.
    + destruct (classify (icmp.Type_ (ICMPMessage r))) eqn:Hc;
        cbn [Seq Err Raw set_Err set_Raw]; by rewrite ?Hc.
Qed.

Lemma under_way_attempt recv seq err : under_way (attempt recv seq err) = true.
Proof. by destruct err. Qed.

Lemma under_way_afterOut recv : under_way (afterOut recv) = false.
Proof. unfold afterOut. by destruct (_ && _). Qed.

Lemma answers_afterOut L S j recv : answers L S j (afterOut recv).
Proof. unfold afterOut. by destruct (_ && _). Qed.

Ltac shape_wf Hwf Hi :=
  let H := fresh "Hshape" in
  pose proof (Forall_lookup_1 _ _ _ _ Hwf Hi) as H; inversion H; subst;
  clear H.

(** Goroutine [i] goes on as a goroutine that has no response to
    send, and another such goroutine may be spawned. *)
Lemma answers_insert_app L S (gs : list goroutine) i k tail :
  (∀ j g, gs !! j = Some g → answers L S j g) →
  (∀ j, answers L S j k) →
  (∀ g, g ∈ tail → ∀ j, answers L S j g) →
  ∀ j g, (<[i:=k]> gs ++ tail) !! j = Some g → answers L S j g.
Proof.
  intros Hg Hk Ht j g Hj. apply lookup_app_Some in Hj as [Hj|[_ Hj]].
  - apply list_lookup_insert_Some in Hj as [(_ & <- & _)|[_ Hj]]; [done|].
    by apply Hg.
  - apply Ht. by eapply list_elem_of_lookup_2.
Qed.

Lemma attempts_one st e st' :
  step st e = Some st' →
  attempts st [e]
  = match e with
    | PinRecv _ seq err => [(length (gos st), seq, err)]
    | _ => []
    end.
Proof. intros He. simpl. rewrite He. by rewrite app_nil_r. Qed.

Lemma attempts_cons st e st' evs :
  step st e = Some st' →
  attempts st (e :: evs) = attempts st [e] ++ attempts st' evs.
Proof. intros He. simpl. rewrite He. by rewrite app_nil_r. Qed.

Lemma selects_cons e evs : selects (e :: evs) = selects [e] ++ selects evs.
Proof. unfold selects. simpl. by destruct e. Qed.

Lemma reported_step L S st e st' :
  Forall wf_go (gos st) → reported L S st → step st e = Some st' →
  reported (L ++ attempts st [e]) (S ++ selects [e]) st'.
Proof.
  intros Hwf [Hg Ho He] Hstep. rewrite (attempts_one st e st' Hstep).
  revert Hstep. unfold step. destruct (panicked st); [done|].
  destruct e as [recv| |i seq err|i|i|i s|i];
    try change (selects [_]) with (@nil (nat * selected)).
  - destruct (returned st || in_nil st); [done|]. intros [= <-].
    rewrite !app_nil_r. unfold accept.
    destruct (Count (ReqConfig recv) =? 0); [by split|].
    split; simpl; [|done|].
    + intros j g Hj. apply lookup_app_Some in Hj as [Hj|[_ Hj]]; [by apply Hg|].
      by apply list_lookup_singleton_Some in Hj as [_ <-].
    + rewrite count_gos_app. simpl. lia.
  - destruct (returned st || in_nil st); [done|]. intros [= <-].
    rewrite !app_nil_r. split; simpl; [|done|].
    + intros j g Hj. apply lookup_app_Some in Hj as [Hj|[_ Hj]]; [by apply Hg|].
      by apply list_lookup_singleton_Some in Hj as [_ <-].
    + rewrite count_gos_app. simpl. lia.
  - destruct (gos st !! i) as [g|] eqn:Hi; [|done].
    destruct g; try done. destruct (returned st); [done|]. intros [= <-].
    shape_wf Hwf Hi. unfold dispatch. rewrite app_nil_r. split; simpl.
    + intros j g Hj. apply lookup_app_Some in Hj as [Hj|[Hlen Hj]].
      * apply list_lookup_insert_Some in Hj as [(_ & <- & _)|[_ Hj]]; [done|].
        eapply answers_mono; [| |by apply Hg]; set_solver.
      * apply list_lookup_singleton_Some in Hj as [Hj <-].
        rewrite length_insert in Hlen, Hj.
        assert (j = length (gos st)) as -> by lia.
        apply answers_attempt. set_solver.
    + eapply Forall_impl; [exact Ho|]. intros resp (j & seq' & err' & Hin & Hm).
      exists j, seq', err'. split; [set_solver|done].
    + rewrite count_gos_app, (count_gos_insert _ _ _ _ _ Hi), under_way_attempt.
      rewrite length_app. simpl. lia.
  - destruct (gos st !! i) as [g|] eqn:Hi; [|done].
    destruct g; try done. destruct (returned st); [done|]. intros [= <-].
    shape_wf Hwf Hi. rewrite !app_nil_r. split; simpl; [|done|].
    + apply answers_insert_app; [done|done|].
      intros g Hin%list_elem_of_singleton. by subst.
    + rewrite count_gos_app, (count_gos_insert _ _ _ _ _ Hi). simpl. lia.
  - destruct (gos st !! i) as [g|] eqn:Hi; [|done].
    destruct g; try done. destruct (returned st); [done|]. intros [= <-].
    shape_wf Hwf Hi. rewrite !app_nil_r. split; simpl; [|done|].
    + intros j g Hj.
      apply list_lookup_insert_Some in Hj as [(_ & <- & _)|[_ Hj]]; [done|].
      by apply Hg.
    + rewrite (count_gos_insert _ _ _ _ _ Hi). simpl. lia.
  - destruct (gos st !! i) as [g|] eqn:Hi; [|done].
    destruct g; try done. intros [= <-].
    change (selects [RunSelect i s]) with [(i, s)]. rewrite app_nil_r.
    pose proof (Hg i _ Hi) as (seq & Hin & Hk).
    destruct (Hk s) as (resp & rest & Hks & Hseq & Hm).
    split; simpl.
    + intros j g Hj.
      apply list_lookup_insert_Some in Hj as [(-> & <- & _)|[_ Hj]].
      * rewrite Hks. simpl. exists seq, None. split; [done|]. split; [done|].
        destruct s as [|r].
        -- left. split; [|done]. apply elem_of_app. right.
           by apply list_elem_of_singleton.
        -- right. exists r. split; [|done]. apply elem_of_app. right.
           by apply list_elem_of_singleton.
      * eapply answers_mono; [| |by apply Hg]; set_solver.
    + eapply Forall_impl; [exact Ho|]. intros resp' (j & seq' & err' & Hin' & Hm').
      exists j, seq', err'. split; [done|].
      eapply made_of_mono; [|done]. set_solver.
    + rewrite (count_gos_insert _ _ _ _ _ Hi), Hks. simpl. lia.
  - rewrite !app_nil_r. unfold run_goroutine.
    destruct (gos st !! i) as [g|] eqn:Hi; [|done].
    destruct g; try done.
    + destruct (out_closed st); intros [= <-]; [by split|].
      pose proof (Hg i _ Hi) as Hresp. simpl in Hresp.
      shape_wf Hwf Hi. split; simpl.
      * intros j g Hj.
        apply list_lookup_insert_Some in Hj as [(_ & <- & _)|[_ Hj]];
          [apply answers_afterOut|by apply Hg].
      * apply Forall_app. split; [done|]. apply Forall_singleton.
        destruct Hresp as (seq & err & Hin & Hm). by exists i, seq, err.
      * rewrite (count_gos_insert _ _ _ _ _ Hi), under_way_afterOut, length_app.
        simpl. lia.
    + intros [= <-]. shape_wf Hwf Hi. split; simpl; [|done|].
      * intros j g Hj.
        apply list_lookup_insert_Some in Hj as [(_ & <- & _)|[_ Hj]]; [done|].
        by apply Hg.
      * rewrite (count_gos_insert _ _ _ _ _ Hi). simpl. lia.
    + destruct (wg st - 1 <? 0); intros [= <-]; [by split|].
      shape_wf Hwf Hi. split; simpl; [|done|].
      * intros j g Hj.
        apply list_lookup_insert_Some in Hj as [(_ & <- & _)|[_ Hj]]; [done|].
        by apply Hg.
      * rewrite (count_gos_insert _ _ _ _ _ Hi). simpl. lia.
    + destruct (wg st =? 0); [|done]. intros [= <-].
      shape_wf Hwf Hi. split; simpl; [|done|].
      * intros j g Hj.
        apply list_lookup_insert_Some in Hj as [(_ & <- & _)|[_ Hj]]; [done|].
        by apply Hg.
      * rewrite (count_gos_insert _ _ _ _ _ Hi). simpl. lia.
    + destruct (out_closed st); intros [= <-]; [by split|].
      shape_wf Hwf Hi. split; simpl; [|done|].
      * intros j g Hj.
        apply list_lookup_insert_Some in Hj as [(_ & <- & _)|[_ Hj]]; [done|].
        by apply Hg.
      * rewrite (count_gos_insert _ _ _ _ _ Hi). simpl. lia.
Qed.

Lemma reported_run evs : ∀ L S st st',
  safe st → reported L S st → run st evs = Some st' →
  reported (L ++ attempts st evs) (S ++ selects evs) st'.
Proof.
  induction evs as [|e evs IH]; intros L S st st' Hsafe Hrep.
  - intros [= <-]. change (attempts st []) with (@nil (nat * Z * error)).
    change (selects []) with (@nil (nat * selected)).
    by rewrite !app_nil_r.
  - cbn [run]. destruct (step st e) as [st1|] eqn:He; [|done]. intros Hrun.
    rewrite (attempts_cons st e st1 evs He), selects_cons, !app_assoc.
    eapply IH; [| |exact Hrun].
    + by eapply safe_step.
    + eapply reported_step; [apply (safe_wf _ Hsafe)|done|done].
Qed.

(** X18.  Every response is what its attempt made of the answer of the
    pinger and of its select.  It carries the [seq] that the call of
    [g.pinger.Ping] for its attempt returned.  If that call returned an
    error, the response carries that error and an untouched
    [RawResponse].  Otherwise the select of the same goroutine either
    took the timeout, and the response carries "Timeout" with an
    untouched [RawResponse], or took a reply from [future], and the
    response carries that very reply as its [RawResponse], with the
    error that belongs to its ICMP type.  And every call of the pinger
    has exactly one response, out or still under way. *)
Theorem responses_report_the_pinger (evs : list event) (st : state) :
  run init evs = Some st →
  Forall (λ resp, ∃ j seq err,
            (j, seq, err) ∈ attempts init evs
            ∧ made_of (selects evs) j seq err resp) (out st)
  ∧ Z.of_nat (length (out st)) + count_gos under_way (gos st)
    = Z.of_nat (length (attempts init evs)).
Proof.
  intros Hrun.
  destruct (reported_run evs [] [] init st safe_init) as [_ Ho He]; [|done|].
  - split; [done|constructor|done].
  - done.
Qed.

Lemma responses_report_the_pinger_witness :
  ∃ st resp,
    run init scenario.scenarioA = Some st
    ∧ out st !! 0%nat = Some resp
    ∧ ∃ j seq err,
        (j, seq, err) ∈ attempts init scenario.scenarioA
        ∧ made_of (selects scenario.scenarioA) j seq err resp.
Proof.
  do 2 eexists. split; [vm_compute; reflexivity|].
  split; [vm_compute; reflexivity|].
  refine (List.Forall_inv
            (proj1 (responses_report_the_pinger scenario.scenarioA
                      {| in_nil := _; wg := _; gos := _; out := _ :: _;
                         out_closed := _; returned := _; panicked := _ |} _))).
  vm_compute. reflexivity.
Defined.

End goping_facts.

(** * Properties of package ggping *)

Module ggping_facts.

Import ggping.

Section send.

Context `{os : Platform}.

(** The five points of a send that succeeds. *)
Lemma casePing_ok st pi w dst wb :
  resolved w = Some dst →
  Marshal (echoRequest (int_wrap (seq st + 1))) = Some wb →
  written w = true →
  let st1 := set_seq st (int_wrap (seq st + 1)) in
  let st2 := set_sent st1 (sent st ++ [(wb, dst)]) in
  let c := length (chans st) in
  let st3 := set_chans st2 (chans st ++ [{| buf := []; closed := false |}]) in
  let st4 := set_pingmap st3 (<[int_wrap (seq st + 1) := c]> (pingmap st)) in
  let pi' := set_pongchan (set_When (set_Seq pi (int_wrap (seq st + 1))) (now w)) c in
  casePing_points st pi w = [st1; st2; st3; st4; spawn (GoRecvPong pi') st4].
Proof.
  intros Hres Hm Hw. unfold casePing_points, sendMessage. simpl.
  rewrite Hres, Hm, Hw. reflexivity.
Qed.

(** A send that fails changes the counter, and hands the ping back or
    logs; the table, the channels and the socket are as before. *)
Lemma casePing_failed st pi w :
  resolved w = None ∨ Marshal (echoRequest (int_wrap (seq st + 1))) = None
  ∨ written w = false →
  ∃ gs msgs,
    casePing st pi w
    = {| seq := int_wrap (seq st + 1); pingmap := pingmap st;
         chans := chans st; gos := gos st ++ gs; sent := sent st;
         echoed := echoed st; logged := logged st ++ msgs;
         panicked := panicked st |}
    ∧ Forall (λ g, ∃ pi', g = GoSendEcho pi') gs.
Proof.
  intros Hfail. unfold casePing, casePing_points, sendMessage.
  cbn [seq set_seq Seq set_Seq sent].
  destruct (resolved w) as [dst|] eqn:Hres.
  - destruct (Marshal _) as [wb|] eqn:Hm.
    + destruct (written w) eqn:Hw; [destruct Hfail as [?|[?|?]]; discriminate|].
      destruct (EchoChannel pi) eqn:Hc; cbn; rewrite ?Hc; cbn.
      * eexists [_], []. rewrite app_nil_r. split; [reflexivity|].
        repeat constructor. eauto.
      * eexists [], [_]. rewrite app_nil_r. split; [reflexivity|constructor].
    + destruct (EchoChannel pi) eqn:Hc; cbn; rewrite ?Hc; cbn.
      * eexists [_], []. rewrite app_nil_r. split; [reflexivity|].
        repeat constructor. eauto.
      * eexists [], [_]. rewrite app_nil_r. split; [reflexivity|constructor].
  - destruct (EchoChannel pi) eqn:Hc; cbn; rewrite ?Hc; cbn.
    + eexists [_], []. rewrite app_nil_r. split; [reflexivity|].
      repeat constructor. eauto.
    + eexists [], [_]. rewrite app_nil_r. split; [reflexivity|constructor].
Qed.

Lemma casePing_cases st w :
  (∃ dst wb, resolved w = Some dst
             ∧ Marshal (echoRequest (int_wrap (seq st + 1))) = Some wb
             ∧ written w = true)
  ∨ (resolved w = None ∨ Marshal (echoRequest (int_wrap (seq st + 1))) = None
     ∨ written w = false).
Proof.
  destruct (resolved w) as [dst|]; [|by right; left].
  destruct (Marshal _) as [wb|]; [|by right; right; left].
  destruct (written w); [left; eauto|by right; right; right].
Qed.

Lemma seq_casePing st pi w : seq (casePing st pi w) = int_wrap (seq st + 1).
Proof.
  destruct (casePing_cases st w) as [(dst & wb & Hres & Hm & Hw)|Hfail].
  - unfold casePing. by rewrite (casePing_ok st pi w dst wb).
  - by destruct (casePing_failed st pi w Hfail) as (gs & msgs & -> & _).
Qed.

End send.


Section numbers.

Context `{os : Platform}.

Lemma pings_cons e evs : pings (e :: evs) = pings [e] + pings evs.
Proof. unfold pings. simpl. destruct e; simpl; lia. Qed.

Lemma pings_nonneg evs : 0 <= pings evs.
Proof. unfold pings. lia. Qed.

Lemma lookup_waiting_insert (gs : list goroutine) i j g pi :
  <[i := g]> gs !! j = Some (GoRecvPong pi) →
  (∀ pi', g ≠ GoRecvPong pi') →
  gs !! j = Some (GoRecvPong pi).
Proof.
  intros Hj Hg. apply list_lookup_insert_Some in Hj as [(-> & Heq & _)|[_ Hj]].
  - by destruct (Hg pi).
  - done.
Qed.

Lemma lookup_waiting_app (gs gs' : list goroutine) j pi :
  (gs ++ gs') !! j = Some (GoRecvPong pi) →
  Forall (λ g, ∃ pi', g = GoSendEcho pi') gs' →
  gs !! j = Some (GoRecvPong pi).
Proof.
  intros Hj Hall. apply lookup_app_Some in Hj as [Hj|[_ Hj]]; [done|].
  apply (Forall_lookup_1 _ _ _ _ Hall) in Hj as [pi' Heq]. done.
Qed.

Lemma casePong_fields st ri :
  seq (casePong st ri) = seq st
  ∧ gos (casePong st ri) = gos st
  ∧ sent (casePong st ri) = sent st
  ∧ (pingmap (casePong st ri) = pingmap st
     ∨ (validReply ri
        ∧ pingmap (casePong st ri) = delete (seq st) (pingmap st))).
Proof.
  unfold casePong, validReply.
  destruct (ParseMessage _ _) as [rm|] eqn:Hparse; [|by auto].
  case_decide as Hty; [|by auto].
  destruct (icmp.Body rm) as [|body|] eqn:Hbody; [by auto| |by auto].
  case_decide as Hid; [|by auto].
  destruct (pingmap st !! seq st) as [c|]; [|by auto].
  assert (∀ st', seq (deliver c ri st') = seq st'
                 ∧ gos (deliver c ri st') = gos st'
                 ∧ sent (deliver c ri st') = sent st') as Hd.
  { intros st'. unfold deliver. destruct (chans st' !! c) as [ch|]; [|done].
    by destruct (closed ch || _). }
  destruct (Hd st) as (? & ? & ?). simpl.
  repeat (split; [done|]). right. split; [|done]. by exists rm, body.
Qed.

Lemma run_goroutine_fields st i st' :
  run_goroutine i st = Some st' →
  seq st' = seq st ∧ pingmap st' = pingmap st ∧ sent st' = sent st
  ∧ (gos st' = gos st
     ∨ ∃ g, gos st' = <[i := g]> (gos st) ∧ ∀ pi, g ≠ GoRecvPong pi).
Proof.
  unfold run_goroutine. destruct (gos st !! i) as [[pi|pi|]|]; try done.
  - destruct (pongchan pi) as [c|]; [|done].
    destruct (chans st !! c) as [[[|ri rest] [|]]|]; try done.
    + intros [= <-]. auto.
    + intros [= <-]. simpl. repeat (split; [done|]). right.
      eexists. split; [reflexivity|]. by destruct (EchoChannel _).
    + intros [= <-]. simpl. repeat (split; [done|]). right.
      eexists. split; [reflexivity|]. by destruct (EchoChannel _).
  - intros [= <-]. simpl. repeat (split; [done|]). right.
    eexists. split; [reflexivity|]. done.
Qed.

(** Every step keeps the numbering, as long as [seq] does not overflow. *)
Lemma numbered_step n st e st' :
  numbered n st → step st e = Some st' → n + pings [e] < 2 ^ 63 →
  numbered (n + pings [e]) st'.
Proof.
  intros [Hseq Hn Hkeys Hwait Hdist]. unfold step.
  destruct (panicked st); [done|].
  destruct e as [pi w|ri|i]; [intros [= <-] Hlt|intros [= <-] Hlt|intros Hrun Hlt].
  - change (pings [PingRecv pi w]) with 1 in *.
    assert (Hw : int_wrap (seq st + 1) = n + 1)
      by (rewrite Hseq; apply int_wrap_small; lia).
    destruct (casePing_cases st w) as [(dst & wb & Hres & Hm & Hwr)|Hfail].
    + unfold casePing. rewrite (casePing_ok st pi w dst wb) by done.
      cbn [List.last]. rewrite Hw. split; simpl.
      * done.
      * lia.
      * intros k c Hk. apply lookup_insert_Some in Hk as [[<- _]|[_ Hk]]; [lia|].
        apply Hkeys in Hk. lia.
      * intros i pi' Hi. apply lookup_app_Some in Hi as [Hi|[_ Hi]].
        -- apply Hwait in Hi. lia.
        -- apply list_lookup_singleton_Some in Hi as [_ [= <-]]. simpl. lia.
      * intros i j pi1 pi2 Hi Hj Heq.
        apply lookup_app_Some in Hi as [Hi|[Hi1 Hi]];
          apply lookup_app_Some in Hj as [Hj|[Hj1 Hj]].
        -- by eapply Hdist.
        -- apply Hwait in Hi.
           apply list_lookup_singleton_Some in Hj as [_ [= <-]].
           simpl in Heq. lia.
        -- apply Hwait in Hj.
           apply list_lookup_singleton_Some in Hi as [_ [= <-]].
           simpl in Heq. lia.
        -- apply list_lookup_singleton_Some in Hi as [Hi _].
           apply list_lookup_singleton_Some in Hj as [Hj _]. lia.
    + destruct (casePing_failed st pi w Hfail) as (gs & msgs & -> & Hgs).
      rewrite Hw. split; simpl.
      * done.
      * lia.
      * intros k c Hk. apply Hkeys in Hk. lia.
      * intros i pi' Hi. apply lookup_waiting_app in Hi; [|done].
        apply Hwait in Hi. lia.
      * intros i j pi1 pi2 Hi Hj. apply lookup_waiting_app in Hi; [|done].
        apply lookup_waiting_app in Hj; [|done]. by eapply Hdist.
  - change (pings [PongRecv ri]) with 0 in *. rewrite Z.add_0_r.
    destruct (casePong_fields st ri) as (Hs & Hg & _ & Hm).
    split; rewrite ?Hs, ?Hg; try done.
    intros k c. destruct Hm as [->|[_ ->]]; [apply Hkeys|].
    intros Hk. apply lookup_delete_Some in Hk as [_ Hk]. by eapply Hkeys.
  - change (pings [Run i]) with 0 in *. rewrite Z.add_0_r.
    destruct (run_goroutine_fields st i st' Hrun) as (Hs & Hm & _ & Hg).
    split; rewrite ?Hs, ?Hm; try done.
    + intros j pi Hj. destruct Hg as [Hg|(g & Hg & Hne)]; rewrite Hg in Hj.
      * by eapply Hwait.
      * eapply Hwait. by eapply lookup_waiting_insert.
    + intros j1 j2 pi1 pi2 Hj1 Hj2.
      destruct Hg as [Hg|(g & Hg & Hne)]; rewrite Hg in Hj1, Hj2.
      * by eapply Hdist.
      * eapply Hdist; by eapply lookup_waiting_insert.
Qed.
End numbers.

Section counting.

Context `{os : Platform}.

Lemma coordinator_run_app st evs1 evs2 :
  run st (evs1 ++ evs2)
  = match run st evs1 with Some st1 => run st1 evs2 | None => None end.
Proof.
  revert st. induction evs1 as [|e evs1 IH]; intros st; simpl; [done|].
  destruct (step st e); [apply IH|done].
Qed.

Lemma numbered_init : numbered 0 init.
Proof. split; try done. Qed.

Lemma numbered_run evs : ∀ n st st',
  numbered n st → run st evs = Some st' → n + pings evs < 2 ^ 63 →
  numbered (n + pings evs) st'.
Proof.
  induction evs as [|e evs IH]; intros n st st' Hn; simpl.
  - intros [= <-] _. change (pings []) with 0. by rewrite Z.add_0_r.
  - destruct (step st e) as [st1|] eqn:He; [|done]. intros Hrun.
    rewrite pings_cons. intros Hlt.
    pose proof (pings_nonneg evs). pose proof (pings_nonneg [e]).
    rewrite Z.add_assoc. eapply IH; [|exact Hrun|lia].
    eapply numbered_step; [exact Hn|exact He|lia].
Qed.

Lemma panicked_casePing st pi w : panicked (casePing st pi w) = panicked st.
Proof.
  destruct (casePing_cases st w) as [(dst & wb & Hres & Hm & Hw)|Hfail].
  - unfold casePing. by rewrite (casePing_ok st pi w dst wb).
  - by destruct (casePing_failed st pi w Hfail) as (gs & msgs & -> & _).
Qed.

Lemma run_pings pi w (n : nat) : ∀ st,
  panicked st = false →
  ∃ st', run st (replicate n (PingRecv pi w)) = Some st'
         ∧ panicked st' = false.
Proof.
  induction n as [|n IH]; intros st Hp; simpl.
  - by exists st.
  - unfold step. rewrite Hp. apply IH. by rewrite panicked_casePing.
Qed.

Lemma pings_replicate pi w (n : nat) :
  pings (replicate n (PingRecv pi w)) = Z.of_nat n.
Proof.
  induction n as [|n IH]; [done|].
  change (replicate (S n) (PingRecv pi w))
    with (PingRecv pi w :: replicate n (PingRecv pi w)).
  rewrite pings_cons, IH. change (pings [PingRecv pi w]) with 1. lia.
Qed.

(** C7, as the code has it.  While the [int] counter has not overflowed,
    [seq] is the number of pings taken so far and the next send gets
    that number plus one, with no reduction to 16 bits; the number is
    fresh in the table, whose keys lie between 1 and [seq], and no two
    waiting attempts carry the same number. *)
Theorem seq_counts_pings (evs : list event) (st : state) :
  run init evs = Some st →
  pings evs + 1 < 2 ^ 63 →
  seq st = pings evs
  ∧ (∀ pi w, seq (casePing st pi w) = seq st + 1)
  ∧ pingmap st !! (seq st + 1) = None
  ∧ (∀ k c, pingmap st !! k = Some c → 1 <= k <= seq st)
  ∧ (∀ i j pi pj,
        gos st !! i = Some (GoRecvPong pi) →
        gos st !! j = Some (GoRecvPong pj) →
        Seq pi = Seq pj → i = j).
Proof.
  intros Hrun Hlt.
  destruct (numbered_run evs 0 init st numbered_init Hrun) as [Hseq Hn Hkeys Hwait Hdist];
    [lia|].
  rewrite Z.add_0_l in *. rewrite Hseq.
  split; [done|]. split; [|split; [|split]].
  - intros pi w. rewrite seq_casePing, Hseq. apply int_wrap_small. lia.
  - destruct (pingmap st !! (pings evs + 1)) as [c|] eqn:Hk; [|done].
    apply Hkeys in Hk. lia.
  - done.
  - done.
Qed.

End counting.

Lemma seq_counts_pings_witness :
  ∃ st, run (os := scenario.os) init scenario.twoPings = Some st
        ∧ seq st = 2 ∧ pingmap st !! 3 = None.
Proof.
  eexists. split; [vm_compute; reflexivity|].
  edestruct (seq_counts_pings (os := scenario.os) scenario.twoPings)
    as (Hseq & _ & Hfresh & _).
  - vm_compute. reflexivity.
  - vm_compute. reflexivity.
  - split; [exact Hseq|exact Hfresh].
Defined.

(** C7, counterexample.  After 65536 pings the sequence number is
    [2 ^ 16], which is not a value of the 16-bit field. *)
Lemma seq_is_not_reduced_to_16_bits :
  ∃ st,
    run (os := scenario.os) init
      (replicate (Z.to_nat 65536)
         (PingRecv (scenario.ping "a") (scenario.sendsAt 0)))
    = Some st
    ∧ seq st = 2 ^ 16.
Proof.
  destruct (run_pings (os := scenario.os) (scenario.ping "a")
              (scenario.sendsAt 0) (Z.to_nat 65536) init eq_refl)
    as (st & Hrun & _).
  exists st. split; [exact Hrun|].
  destruct (numbered_run (os := scenario.os) _ 0 init st numbered_init Hrun)
    as [Hseq _ _ _ _].
  - rewrite pings_replicate. lia.
  - rewrite Hseq, pings_replicate. lia.
Qed.

(** C6, counterexample.  In the first iteration of the loop the echo
    request with sequence number 1 has been written to the socket at
    the second point of the case, and the table has no entry for 1
    there. *)
Lemma written_before_registered :
  ∃ st1 st2 st3 st4 st5 wb,
    casePing_points (os := scenario.os) init (scenario.ping "a")
      (scenario.sendsAt 0)
    = [st1; st2; st3; st4; st5]
    ∧ Marshal (Platform := scenario.os) (echoRequest (os := scenario.os) 1)
      = Some wb
    ∧ sent st2 = [(wb, scenario.host)]
    ∧ pingmap st2 !! 1 = None.
Proof.
  do 6 eexists. split; [vm_compute; reflexivity|].
  split; [vm_compute; reflexivity|]. split; vm_compute; reflexivity.
Qed.

Section registration.

Context `{os : Platform}.

(** C6, as the code has it.  When the send succeeds the datagram is
    written first and the entry is registered after [sendMessage] has
    returned.  Both happen inside one iteration of the loop, which is
    one step of the coordinator: the case that looks replies up cannot
    run in between, and after the step the table has the entry for the
    number that was sent. *)
Theorem registered_within_the_send (st : state) (pi : Ping) (w : world)
    (dst : IPAddr) (wb : list Byte.byte) :
  panicked st = false →
  resolved w = Some dst →
  Marshal (echoRequest (int_wrap (seq st + 1))) = Some wb →
  written w = true →
  ∃ st1 st2 st3 st4 st5 c,
    casePing_points st pi w = [st1; st2; st3; st4; st5]
    ∧ sent st1 = sent st ∧ pingmap st1 = pingmap st
    ∧ sent st2 = sent st ++ [(wb, dst)] ∧ pingmap st2 = pingmap st
    ∧ sent st4 = sent st ++ [(wb, dst)]
    ∧ pingmap st4 = <[int_wrap (seq st + 1) := c]> (pingmap st)
    ∧ step st (PingRecv pi w) = Some st5
    ∧ seq st5 = int_wrap (seq st + 1)
    ∧ sent st5 = sent st ++ [(wb, dst)]
    ∧ pingmap st5 !! seq st5 = Some c.
Proof.
  intros Hp Hres Hm Hw. do 5 eexists. exists (length (chans st)).
  split; [by apply (casePing_ok st pi w dst wb)|].
  repeat (split; [reflexivity|]).
  split; [|split; [reflexivity|split; [reflexivity|]]].
  - unfold step. rewrite Hp. unfold casePing.
    by rewrite (casePing_ok st pi w dst wb).
  - simpl. apply lookup_insert_eq.
Qed.

End registration.

Lemma registered_within_the_send_witness :
  ∃ st5 c,
    step (os := scenario.os) init
      (PingRecv (scenario.ping "a") (scenario.sendsAt 0)) = Some st5
    ∧ pingmap st5 !! seq st5 = Some c.
Proof.
  edestruct (registered_within_the_send (os := scenario.os) init
               (scenario.ping "a") (scenario.sendsAt 0))
    as (st1 & st2 & st3 & st4 & st5 & c & _ & _ & _ & _ & _ & _ & _
        & Hstep & _ & _ & Hreg).
  - reflexivity.
  - reflexivity.
  - vm_compute. reflexivity.
  - reflexivity.
  - exists st5, c. split; [exact Hstep|exact Hreg].
Defined.

Section delivery.

Context `{os : Platform}.

Lemma pingmap_casePing st pi w :
  pingmap (casePing st pi w) = pingmap st
  ∨ ∃ c, pingmap (casePing st pi w)
         = <[int_wrap (seq st + 1) := c]> (pingmap st).
Proof.
  destruct (casePing_cases st w) as [(dst & wb & Hres & Hm & Hw)|Hfail].
  - right. unfold casePing. rewrite (casePing_ok st pi w dst wb) by done.
    by eexists.
  - left. by destruct (casePing_failed st pi w Hfail) as (gs & msgs & -> & _).
Qed.

(** The table after a reply does not depend on the reply's own number. *)
Lemma casePong_ignores_reply_seq st ri :
  validReply ri →
  pingmap (casePong st ri) = delete (seq st) (pingmap st).
Proof.
  intros (rm & body & Hparse & Hty & Hbody & Hid). unfold casePong.
  rewrite Hparse. rewrite decide_True by done. rewrite Hbody.
  rewrite decide_True by done.
  destruct (pingmap st !! seq st) as [c|] eqn:Hc; [done|].
  by rewrite delete_id.
Qed.

(** An entry that is not the one of the latest send stays in the table
    for good: the only removal is of the entry of [seq], and [seq] only
    grows. *)
Lemma stale_entry_stays evs : ∀ n st st' s c,
  numbered n st → run st evs = Some st' → n + pings evs < 2 ^ 63 →
  pingmap st !! s = Some c → s < n →
  pingmap st' !! s = Some c.
Proof.
  induction evs as [|e evs IH]; intros n st st' s c Hn; simpl.
  - by intros [= <-].
  - destruct (step st e) as [st1|] eqn:He; [|done]. intros Hrun.
    rewrite pings_cons. intros Hlt Hs Hsn.
    pose proof (pings_nonneg evs). pose proof (pings_nonneg [e]).
    pose proof (numbered_seq _ _ Hn) as Hseq.
    pose proof (numbered_nonneg _ _ Hn) as Hnn.
    apply (IH (n + pings [e]) st1 st' s c); [|done|lia| |lia].
    + eapply numbered_step; [exact Hn|exact He|lia].
    + unfold step in He. destruct (panicked st); [done|].
      destruct e as [pi w|ri|i].
      * injection He as <-.
        destruct (pingmap_casePing st pi w) as [->|[c' ->]]; [done|].
        rewrite lookup_insert_ne; [done|].
        change (pings [PingRecv pi w]) with 1 in *.
        rewrite Hseq, int_wrap_small by lia. lia.
      * injection He as <-.
        destruct (casePong_fields st ri) as (_ & _ & _ & [->|[_ ->]]); [done|].
        rewrite lookup_delete_ne; [done|lia].
      * destruct (run_goroutine_fields st i st1 He) as (_ & -> & _). done.
Qed.

(** C4, as the code has it.  An entry leaves the table only in the
    match branch, the case that handles a valid echo reply; the
    goroutine of an attempt whose channel is empty has no step of its
    own, whatever the time: the transport has no timeout branch. *)
Theorem pending_entry_leaves_only_on_match (st : state) :
  (∀ e st' s c,
      step st e = Some st' →
      pingmap st !! s = Some c →
      pingmap st' !! s = None →
      ∃ ri, e = PongRecv ri ∧ validReply ri)
  ∧ (∀ i pi c,
        gos st !! i = Some (GoRecvPong pi) →
        pongchan pi = Some c →
        chans st !! c = Some {| buf := []; closed := false |} →
        step st (Run i) = None).
Proof.
  split.
  - intros e st' s c. unfold step. destruct (panicked st); [done|].
    destruct e as [pi w|ri|i].
    + intros [= <-] Hs Hs'.
      destruct (pingmap_casePing st pi w) as [Heq|[c' Heq]];
        rewrite Heq in Hs'; [congruence|].
      apply lookup_insert_None in Hs' as [Hs' _]. congruence.
    + intros [= <-] Hs Hs'.
      destruct (casePong_fields st ri) as (_ & _ & _ & [Heq|[Hvalid Heq]]);
        rewrite Heq in Hs'; [congruence|].
      by exists ri.
    + intros Hrun Hs Hs'.
      destruct (run_goroutine_fields st i st' Hrun) as (_ & Heq & _).
      rewrite Heq in Hs'. congruence.
  - intros i pi c Hi Hc Hch. unfold step, run_goroutine.
    destruct (panicked st); [done|]. by rewrite Hi, Hc, Hch.
Qed.

(** C8, as the code has it.  A failure to open or to configure the raw
    socket, in the listener and in the coordinator, and a failure of a
    read of the listener after any number of good reads, each end the
    process through [log.Fatal]: the message is logged and the exit
    status is 1.  Nothing is returned to a caller. *)
Theorem socket_failure_is_fatal (e : string) (setControlErr : error)
    (reads before after : list read) (r : read) :
  runListener (Some e) setControlErr reads
  = Exited 1 [("Could not open raw socket ip4:icmp: %v" +:+ e)%string]
  ∧ coordinator (Some e) setControlErr
    = Exited 1 [("Could not open raw socket ip4:icmp: %v" +:+ e)%string]
  ∧ runListener None (Some e) reads = Exited 1 [e]
  ∧ coordinator None (Some e) = Exited 1 [e]
  ∧ (Forall (λ r, read_err r = None) before →
     read_err r = Some e →
     runListener None None (before ++ r :: after)
     = Exited 1 [("Could not read from socket: %v" +:+ e)%string]).
Proof.
  repeat (split; [reflexivity|]).
  intros Hbefore Hr. unfold runListener. simpl.
  generalize (@nil rawIcmp) as handled.
  induction Hbefore as [|r0 before Hr0 _ IH]; intros handled; simpl.
  - by rewrite Hr.
  - rewrite Hr0. apply IH.
Qed.

(** The RTT of a reply captured a delay [d] after the send is the
    [float64] of [- d] divided by the [float64] of a million. *)
Lemma rtt_of_delay pi ri d :
  when ri = When pi + d → - 2 ^ 63 < d <= 2 ^ 63 →
  rtt pi ri
  = Fin (float64_div (float64_of_int (- d)) (float64_of_int 1000000)).
Proof.
  intros Hwhen Hd. unfold rtt, time_Sub. rewrite Hwhen.
  replace (When pi - (When pi + d)) with (- d) by lia.
  rewrite Z.min_r by lia. rewrite Z.max_r by lia. reflexivity.
Qed.

(** It is never positive for a reply that is captured after the send. *)
Lemma rtt_nonpositive pi ri d :
  when ri = When pi + d → 0 <= d <= 2 ^ 63 →
  ∃ q, rtt pi ri = Fin q ∧ (q <= 0)%Q.
Proof.
  intros Hwhen Hd. eexists. split; [apply (rtt_of_delay pi ri d); [done|lia]|].
  apply float64_div_million_nonpos. lia.
Qed.

(** For a delay of whole milliseconds, [k] of them, it is [- k]. *)
Lemma rtt_whole_milliseconds pi ri k :
  when ri = When pi + k * 1000000 → - 2 ^ 53 <= k * 1000000 <= 2 ^ 53 →
  ∃ q, rtt pi ri = Fin q ∧ (q == - inject_Z k)%Q.
Proof.
  intros Hwhen Hk. eexists.
  split; [apply (rtt_of_delay pi ri (k * 1000000)); [done|lia]|].
  replace (- (k * 1000000)) with (- k * 1000000) by lia.
  rewrite float64_div_million_exact by lia.
  unfold Qeq. simpl. lia.
Qed.

End delivery.

(** C2, at the failing input.  Two pings are outstanding, with sequence
    numbers 1 and 2.  A valid echo reply that carries 1 is delivered to
    the channel of 2, whose entry is removed, and the entry of 1 stays;
    a valid echo reply that carries 7, for which there is no entry, is
    delivered to the channel of 2 as well instead of being dropped. *)
Theorem reply_goes_to_latest_seq :
  let reply1 := wire.echoReply 4242 1 (scenario.ms 1500) in
  let reply7 := wire.echoReply 4242 7 (scenario.ms 1500) in
  ∃ st st1 st7 rm1 body1 rm7 body7,
    run (os := scenario.os) init scenario.twoPings = Some st
    ∧ pingmap st !! 1 = Some 0%nat
    ∧ pingmap st !! 2 = Some 1%nat
    ∧ pingmap st !! 7 = None
    ∧ ParseMessage (Platform := scenario.os) 1
        (take (Z.to_nat (size reply1)) (bytes reply1)) = Some rm1
    ∧ icmp.Body rm1 = icmp.EchoBody body1 ∧ icmp.Seq body1 = 1
    ∧ step (os := scenario.os) st (PongRecv reply1) = Some st1
    ∧ pingmap st1 !! 1 = Some 0%nat
    ∧ pingmap st1 !! 2 = None
    ∧ chans st1 !! 0%nat = Some {| buf := []; closed := false |}
    ∧ chans st1 !! 1%nat = Some {| buf := [reply1]; closed := true |}
    ∧ ParseMessage (Platform := scenario.os) 1
        (take (Z.to_nat (size reply7)) (bytes reply7)) = Some rm7
    ∧ icmp.Body rm7 = icmp.EchoBody body7 ∧ icmp.Seq body7 = 7
    ∧ step (os := scenario.os) st (PongRecv reply7) = Some st7
    ∧ pingmap st7 !! 2 = None
    ∧ chans st7 !! 1%nat = Some {| buf := [reply7]; closed := true |}.
Proof.
  cbv zeta. do 7 eexists.
  split; [vm_compute; reflexivity|].
  do 3 (split; [vm_compute; reflexivity|]).
  split; [vm_compute; reflexivity|].
  split; [vm_compute; reflexivity|].
  split; [vm_compute; reflexivity|].
  split; [vm_compute; reflexivity|].
  do 4 (split; [vm_compute; reflexivity|]).
  split; [vm_compute; reflexivity|].
  split; [vm_compute; reflexivity|].
  split; [vm_compute; reflexivity|].
  split; [vm_compute; reflexivity|].
  split; vm_compute; reflexivity.
Qed.

(** C4, counterexample.  The first ping has a timeout of one second and
    is sent at time 0; at 5 s, when the second ping is sent, its entry
    is still in the table and its goroutine cannot move. *)
Lemma entry_outlives_timeout :
  ∃ st pi1 pi2,
    run (os := scenario.os) init scenario.lateSecondPing = Some st
    ∧ gos st !! 0%nat = Some (GoRecvPong pi1)
    ∧ gos st !! 1%nat = Some (GoRecvPong pi2)
    ∧ Seq pi1 = 1
    ∧ When pi1 + Timeout pi1 * 1000000000 < When pi2
    ∧ pingmap st !! 1 = Some 0%nat
    ∧ step (os := scenario.os) st (Run 0) = None.
Proof.
  do 3 eexists.
  split; [vm_compute; reflexivity|].
  split; [vm_compute; reflexivity|].
  split; [vm_compute; reflexivity|].
  split; [vm_compute; reflexivity|].
  split; [vm_compute; reflexivity|].
  split; vm_compute; reflexivity.
Qed.

Lemma pending_entry_leaves_only_on_match_witness :
  ∃ st, run (os := scenario.os) init scenario.lateSecondPing = Some st
        ∧ step (os := scenario.os) st (Run 0) = None.
Proof.
  eexists. split; [vm_compute; reflexivity|].
  eapply (pending_entry_leaves_only_on_match (os := scenario.os)).
  - vm_compute. reflexivity.
  - vm_compute. reflexivity.
  - vm_compute. reflexivity.
Defined.

(** C8, counterexample.  The socket cannot be opened, or a read fails:
    the process exits with status 1. *)
Lemma socket_failure_ends_the_process :
  runListener (Some "operation not permitted"%string) None []
  = Exited 1
      ["Could not open raw socket ip4:icmp: %voperation not permitted"%string]
  ∧ coordinator (Some "operation not permitted"%string) None
    = Exited 1
        ["Could not open raw socket ip4:icmp: %voperation not permitted"%string]
  ∧ runListener None None [scenario.failedRead]
    = Exited 1 ["Could not read from socket: %vnetwork is down"%string].
Proof. repeat split; reflexivity. Qed.

Lemma socket_failure_is_fatal_witness :
  runListener None None [scenario.failedRead]
  = Exited 1 ["Could not read from socket: %vnetwork is down"%string].
Proof.
  apply (socket_failure_is_fatal "network is down" None [] [] []
           scenario.failedRead).
  - constructor.
  - reflexivity.
Defined.

(** C9, at the failing input.  A ping is sent at time 0 and its reply is
    captured 10 ms later, well within the timeout.  The transport hands
    the ping back without error, with an RTT of -10 ms: line 118 takes
    the time of the send minus the time of the arrival.  An attempt of
    the coordinator that gets this value from its pinger 10 ms into a
    timeout of 50 ms puts it into its Response unchanged, with a nil
    error. *)
Theorem rtt_is_send_minus_arrival :
  ∃ st pi q k resp,
    run (os := scenario.os) init scenario.roundTrip = Some st
    ∧ echoed st = [pi]
    ∧ When pi = 0
    ∧ PingPong pi = {| Rtt := Fin q; Err := None |}
    ∧ (q == - 10)%Q
    ∧ goping.attempt (scenario.request scenario.cfgA) 1 None
      = goping.GoSelect (scenario.ms 50) k
    ∧ goping.select_takes (scenario.ms 50)
        (Some (scenario.ms 10, scenario.echoReplyOf (Fin q)))
        (goping.SelFuture (scenario.echoReplyOf (Fin q)))
    ∧ k (goping.SelFuture (scenario.echoReplyOf (Fin q)))
      = goping.GoSendOut resp
          (goping.afterOut (scenario.request scenario.cfgA))
    ∧ goping.Err resp = None
    ∧ goping.RTT (goping.Raw resp) = Fin q.
Proof.
  do 5 eexists.
  split; [vm_compute; reflexivity|].
  split; [vm_compute; reflexivity|].
  split; [vm_compute; reflexivity|].
  split; [vm_compute; reflexivity|].
  split; [vm_compute; reflexivity|].
  split; [apply goping_facts.attempt_unfold_nil|].
  split.
  { exists (scenario.ms 10). split; [reflexivity|]. vm_compute. discriminate. }
  split; [reflexivity|].
  split; vm_compute; reflexivity.
Qed.

(** ** The listener *)

Lemma listen_captures reads : ∀ before,
  Forall (λ r, read_err r = None) reads →
  listen reads before = Running (before ++ (capture <$> reads)).
Proof.
  induction reads as [|r reads IH]; intros before Hall; simpl.
  - by rewrite app_nil_r.
  - apply Forall_cons in Hall as [Hr Hall]. rewrite Hr, IH by done.
    by rewrite <- app_assoc.
Qed.

Lemma runHandler_keeps i h h' :
  runHandler i h = Some h' →
  handed h' ++ started h' ≡ₚ handed h ++ started h.
Proof.
  unfold runHandler. destruct (started h !! i) as [ri|] eqn:Hi; [|done].
  intros [= <-]. simpl. rewrite <- app_assoc. simpl.
  apply Permutation_app_head. symmetry. by apply delete_Permutation.
Qed.

Lemma runHandlers_keeps sched : ∀ h h',
  runHandlers sched h = Some h' →
  handed h' ++ started h' ≡ₚ handed h ++ started h.
Proof.
  induction sched as [|i sched IH]; intros h h'; simpl.
  - by intros [= <-].
  - destruct (runHandler i h) as [h1|] eqn:Hi; [|done]. intros Hrun.
    rewrite (IH h1 h' Hrun). by apply (runHandler_keeps i).
Qed.

(** Every order of the captures is the order of the calls under some
    schedule. *)
Lemma runHandlers_any_order order : ∀ waiting done,
  order ≡ₚ waiting →
  ∃ sched,
    runHandlers sched {| started := waiting; handed := done |}
    = Some {| started := []; handed := done ++ order |}.
Proof.
  induction order as [|ri order IH]; intros waiting done Hperm.
  - apply Permutation_nil_l in Hperm as <-. exists []. simpl.
    by rewrite app_nil_r.
  - assert (Hin : ri ∈ waiting) by (rewrite <- Hperm; left).
    apply list_elem_of_lookup_1 in Hin as [i Hi].
    destruct (IH (delete i waiting) (done ++ [ri])) as [sched Hsched].
    { apply (Permutation_cons_inv (a := ri)).
      by rewrite Hperm, <- (delete_Permutation waiting i ri Hi). }
    exists (i :: sched). simpl. unfold runHandler. simpl. rewrite Hi.
    by rewrite Hsched, <- app_assoc.
Qed.

(** X11.  As long as the reads succeed the listener starts one goroutine
    for every datagram, in the order of the reads, each with a capture
    that holds the bytes and the size of its read and the time at which
    the read returned.  Whatever the schedule, the handler is called
    with each capture at most once and with nothing else; the order of
    the calls is not fixed: every order of the captures is the order of
    the calls under some schedule. *)
Theorem listener_starts_a_handler_per_read (reads : list read) :
  Forall (λ r, read_err r = None) reads →
  let fresh := {| started := capture <$> reads; handed := [] |} in
  runListener None None reads = Running (capture <$> reads)
  ∧ (∀ sched h,
        runHandlers sched fresh = Some h →
        handed h ++ started h ≡ₚ capture <$> reads)
  ∧ (∀ order,
        order ≡ₚ capture <$> reads →
        ∃ sched,
          runHandlers sched fresh = Some {| started := []; handed := order |}).
Proof.
  intros Hall fresh. split; [|split].
  - unfold runListener. simpl. by rewrite listen_captures.
  - intros sched h Hrun. by rewrite (runHandlers_keeps sched fresh h Hrun).
  - intros order Hperm.
    by destruct (runHandlers_any_order order (capture <$> reads) [] Hperm)
      as [sched Hsched]; exists sched.
Qed.

Lemma listener_starts_a_handler_per_read_witness :
  let r1 := {| read_buf := [Byte.x00]; read_size := 1; read_cm := None;
               read_peer := []; read_err := None; read_now := 7 |} in
  let r2 := {| read_buf := [Byte.x01]; read_size := 1; read_cm := None;
               read_peer := []; read_err := None; read_now := 9 |} in
  runListener None None [r1; r2] = Running [capture r1; capture r2]
  ∧ ∃ sched,
      runHandlers sched {| started := [capture r1; capture r2]; handed := [] |}
      = Some {| started := []; handed := [capture r2; capture r1] |}.
Proof.
  intros r1 r2.
  destruct (listener_starts_a_handler_per_read [r1; r2]) as (Hrun & _ & Hany).
  - by repeat constructor.
  - split; [exact Hrun|]. apply Hany. apply Permutation_swap.
Defined.

(** ** Sends and round trips *)

Section transport.

Context `{os : Platform}.

(** [sendMessage] returns an error only when nothing was written. *)
Lemma sendMessage_error pi w socket pi' socket' e :
  sendMessage pi w socket = (pi', socket', Some e) →
  socket' = socket
  ∧ ((resolved w = None ∧ pi' = pi
      ∧ e = ("Could not resolve hostname: " +:+ To pi)%string)
     ∨ (resolved w ≠ None ∧ Marshal (echoRequest (Seq pi)) = None
        ∧ pi' = pi ∧ e = "Could not Marshall the icmp message"%string)
     ∨ (resolved w ≠ None ∧ Marshal (echoRequest (Seq pi)) ≠ None
        ∧ written w = false ∧ pi' = set_When pi (now w)
        ∧ e = "Could not send message through network"%string)).
Proof.
  unfold sendMessage. destruct (resolved w) as [dst|].
  - destruct (Marshal _) as [wb|].
    + destruct (written w); [done|]. intros [= <- <- <-].
      split; [done|]. right. right. done.
    + intros [= <- <- <-]. split; [done|]. right. left. done.
  - intros [= <- <- <-]. split; [done|]. left. done.
Qed.

(** X12.  A send that fails registers nothing: the sequence number is
    used up, but the table, the channels and the socket are as before.
    A ping with an [EchoChannel] is handed back by the next step of its
    goroutine, with the error of [sendMessage], the new sequence number,
    and the time of the send only if it was the write that failed; a
    ping without one leaves a log line and is dropped. *)
Theorem failed_send_registers_nothing (st : state) (pi pi' : Ping)
    (w : world) (socket : list (list Byte.byte * IPAddr)) (e : string) :
  panicked st = false →
  sendMessage (set_Seq pi (int_wrap (seq st + 1))) w (sent st)
  = (pi', socket, Some e) →
  let back := set_Pong pi' {| Rtt := Fin 0; Err := Some e |} in
  ∃ st',
    step st (PingRecv pi w) = Some st'
    ∧ seq st' = int_wrap (seq st + 1)
    ∧ pingmap st' = pingmap st ∧ chans st' = chans st
    ∧ sent st' = sent st ∧ echoed st' = echoed st
    ∧ panicked st' = false
    ∧ Seq back = int_wrap (seq st + 1)
    ∧ (When back = When pi ∨ (When back = now w ∧ written w = false))
    ∧ match EchoChannel pi with
      | Some _ =>
          gos st' = gos st ++ [GoSendEcho back]
          ∧ logged st' = logged st
          ∧ ∃ st'', step st' (Run (length (gos st))) = Some st''
                    ∧ echoed st'' = echoed st ++ [back]
                    ∧ pingmap st'' = pingmap st
      | None =>
          gos st' = gos st
          ∧ logged st' = logged st ++ ["Could not send ping"%string]
      end.
Proof.
  intros Hp Hsend back.
  destruct (sendMessage_error _ _ _ _ _ _ Hsend) as [-> Hcause].
  assert (Hpi' : EchoChannel pi' = EchoChannel pi ∧ Seq pi' = int_wrap (seq st + 1)
                 ∧ (When pi' = When pi ∨ (When pi' = now w ∧ written w = false))).
  { destruct Hcause as [(_ & -> & _)|[(_ & _ & -> & _)|(_ & _ & Hw & -> & _)]];
      simpl; auto. }
  destruct Hpi' as (Hch & Hseq & Hwhen).
  unfold step. rewrite Hp. unfold casePing, casePing_points.
  cbn [seq set_seq sent]. rewrite Hsend. cbn [EchoChannel set_Pong].
  rewrite Hch. destruct (EchoChannel pi) as [ch|]; cbn [List.last].
  - eexists. split; [reflexivity|]. simpl.
    repeat (split; [done|]).
    unfold run_goroutine. simpl. rewrite lookup_snoc, Hp.
    eexists. split; [reflexivity|]. done.
  - eexists. split; [reflexivity|]. simpl. done.
Qed.

(** X13.  One round trip.  A ping is sent, a valid echo reply is
    captured, and the goroutine of the attempt takes the capture and
    hands the ping back with its sequence number, the time of the send,
    no error, and the RTT of line 118.  For a capture [d] nanoseconds
    after the send that is the [float64] of [- d] divided by the
    [float64] of a million, each rounded as Go rounds: it is never
    positive, and for a delay of [k] whole milliseconds it is [- k].
    The entry is removed and the channel is left closed and empty. *)
Theorem reply_completes_latest_ping (st : state) (pi : Ping) (w : world)
    (dst : IPAddr) (wb : list Byte.byte) (ri : rawIcmp) (ch : nat) :
  panicked st = false →
  resolved w = Some dst →
  Marshal (echoRequest (int_wrap (seq st + 1))) = Some wb →
  written w = true →
  EchoChannel pi = Some ch →
  validReply ri →
  let s := int_wrap (seq st + 1) in
  let n := length (gos st) in
  let sent_pi :=
    set_pongchan (set_When (set_Seq pi s) (now w)) (length (chans st)) in
  let back := set_Pong sent_pi {| Rtt := rtt sent_pi ri; Err := None |} in
  ∃ st',
    run st [PingRecv pi w; PongRecv ri; Run n; Run n] = Some st'
    ∧ echoed st' = echoed st ++ [back]
    ∧ gos st' = gos st ++ [GoEnd]
    ∧ sent st' = sent st ++ [(wb, dst)]
    ∧ pingmap st' = delete s (pingmap st)
    ∧ chans st' = chans st ++ [{| buf := []; closed := true |}]
    ∧ panicked st' = false
    ∧ (∀ d, when ri = now w + d → - 2 ^ 63 < d <= 2 ^ 63 →
         Rtt (PingPong back)
         = Fin (float64_div (float64_of_int (- d)) (float64_of_int 1000000)))
    ∧ (∀ d, when ri = now w + d → 0 <= d <= 2 ^ 63 →
         ∃ q, Rtt (PingPong back) = Fin q ∧ (q <= 0)%Q)
    ∧ (∀ k, when ri = now w + k * 1000000 →
         - 2 ^ 53 <= k * 1000000 <= 2 ^ 53 →
         ∃ q, Rtt (PingPong back) = Fin q ∧ (q == - inject_Z k)%Q).
Proof.
  intros Hp Hres Hm Hw Hch (rm & body & Hparse & Hty & Hbody & Hid) s n sent_pi back.
  set (st1 := casePing st pi w).
  assert (Hst1 : st1 = {| seq := s; pingmap := <[s := length (chans st)]> (pingmap st);
                          chans := chans st ++ [{| buf := []; closed := false |}];
                          gos := gos st ++ [GoRecvPong sent_pi];
                          sent := sent st ++ [(wb, dst)];
                          echoed := echoed st; logged := logged st;
                          panicked := false |}).
  { unfold st1, casePing. rewrite (casePing_ok st pi w dst wb) by done.
    cbn [List.last]. unfold spawn, set_gos, set_pingmap, set_chans, set_sent, set_seq.
    cbn. by rewrite Hp. }
  set (st2 := casePong st1 ri).
  assert (Hst2 : st2 = {| seq := s; pingmap := delete s (pingmap st);
                          chans := chans st ++ [{| buf := [ri]; closed := true |}];
                          gos := gos st ++ [GoRecvPong sent_pi];
                          sent := sent st ++ [(wb, dst)];
                          echoed := echoed st; logged := logged st;
                          panicked := false |}).
  { unfold st2, casePong. rewrite Hparse, decide_True by done.
    rewrite Hbody, decide_True by done. rewrite Hst1. cbn [seq pingmap].
    rewrite lookup_insert_eq. unfold deliver. cbn [chans].
    rewrite lookup_snoc. cbn. by rewrite insert_snoc, delete_insert_eq. }
  set (st3 := {| seq := s; pingmap := delete s (pingmap st);
                 chans := chans st ++ [{| buf := []; closed := true |}];
                 gos := gos st ++ [GoSendEcho back];
                 sent := sent st ++ [(wb, dst)];
                 echoed := echoed st; logged := logged st;
                 panicked := false |}).
  assert (H3 : step st2 (Run n) = Some st3).
  { rewrite Hst2. unfold step, run_goroutine. cbn [panicked gos].
    unfold n. rewrite lookup_snoc. cbn [pongchan sent_pi set_pongchan chans].
    rewrite lookup_snoc. cbn. rewrite !insert_snoc, Hch. done. }
  eexists. split.
  - cbn [run]. unfold step at 1. rewrite Hp. fold st1.
    assert (Hp1 : panicked st1 = false) by (by rewrite Hst1).
    unfold step at 1. rewrite Hp1. fold st2. rewrite H3.
    unfold step, run_goroutine. cbn [panicked st3 gos].
    unfold n. rewrite lookup_snoc. reflexivity.
  - cbn. rewrite insert_snoc. repeat (split; [done|]).
    split; [|split].
    + intros d Hd Hrange. apply rtt_of_delay; [|done]. exact Hd.
    + intros d Hd Hrange. apply (rtt_nonpositive sent_pi ri d); [|done].
      exact Hd.
    + intros k Hk Hrange. apply (rtt_whole_milliseconds sent_pi ri k); [|done].
      exact Hk.
Qed.

(** X14.  The identifier written into an echo request is the process id
    cut to 16 bits, while the reader compares the identifier of a reply
    with the whole process id.  A reply that echoes the identifier of a
    request passes that check exactly when the process id fits into 16
    bits; with a larger process id every such reply is ignored as
    coming from another process. *)
Theorem own_reply_accepted_iff_pid_fits (ri : rawIcmp) (rm : icmp.Message)
    (body req : icmp.Echo) (s : Z) :
  ParseMessage 1 (take (Z.to_nat (size ri)) (bytes ri)) = Some rm →
  icmp.Type_ rm = Some ipv4.ICMPTypeEchoReply →
  icmp.Body rm = icmp.EchoBody body →
  icmp.Body (echoRequest s) = icmp.EchoBody req →
  icmp.ID body = icmp.ID req →
  (validReply ri ↔ 0 <= Getpid < 2 ^ 16)
  ∧ (¬ 0 <= Getpid < 2 ^ 16 →
     ∀ st, casePong st ri = log "Ignoring packet from external process" st).
Proof.
  intros Hparse Hty Hbody Hreq Hecho.
  assert (Hid : icmp.ID body = Z.land Getpid 65535).
  { unfold echoRequest in Hreq. simpl in Hreq. injection Hreq as <-.
    exact Hecho. }
  assert (Hland : Z.land Getpid 65535 = Getpid `mod` 2 ^ 16).
  { change 65535 with (Z.ones 16). by rewrite Z.land_ones. }
  assert (Hiff : icmp.ID body = Getpid ↔ 0 <= Getpid < 2 ^ 16).
  { rewrite Hid, Hland. split.
    - intros <-. apply Z.mod_pos_bound. lia.
    - intros Hr. by apply Z.mod_small. }
  split.
  - rewrite <- Hiff. split.
    + intros (rm' & body' & Hparse' & _ & Hbody' & Hid'). congruence.
    + intros Heq. by exists rm, body.
  - intros Hout st. unfold casePong. rewrite Hparse, decide_True by done.
    rewrite Hbody. rewrite decide_False; [done|]. by rewrite Hiff.
Qed.

End transport.

Lemma failed_send_registers_nothing_witness :
  ∃ st',
    step (os := scenario.os) init
      (PingRecv (scenario.ping "nowhere")
         {| resolved := None; now := 5; written := true |}) = Some st'
    ∧ seq st' = 1 ∧ pingmap st' = ∅ ∧ sent st' = [].
Proof.
  destruct (failed_send_registers_nothing (os := scenario.os) init
              (scenario.ping "nowhere")
              (set_Seq (scenario.ping "nowhere") 1)
              {| resolved := None; now := 5; written := true |} []
              "Could not resolve hostname: nowhere")
    as (st' & Hstep & Hseq & Hmap & _ & Hsent & _).
  - reflexivity.
  - vm_compute. reflexivity.
  - exists st'. split; [exact Hstep|]. split; [exact Hseq|].
    split; [exact Hmap|exact Hsent].
Defined.

Lemma reply_completes_latest_ping_witness :
  ∃ st' pi q,
    run (os := scenario.os) init scenario.roundTrip = Some st'
    ∧ echoed st' = [pi]
    ∧ Rtt (PingPong pi) = Fin q ∧ (q == - 10)%Q.
Proof.
  destruct (reply_completes_latest_ping (os := scenario.os) init
              (scenario.ping "a") (scenario.sendsAt 0) scenario.host
              (default [] (Marshal (Platform := scenario.os)
                             (echoRequest (os := scenario.os) 1)))
              (wire.echoReply 4242 1 (scenario.ms 10)) 0%nat)
    as (st' & Hrun & Hecho & _ & _ & _ & _ & _ & _ & _ & Hrtt).
  - reflexivity.
  - reflexivity.
  - vm_compute. reflexivity.
  - reflexivity.
  - reflexivity.
  - do 2 eexists. split; [vm_compute; reflexivity|].
    split; [vm_compute; reflexivity|]. split; vm_compute; reflexivity.
  - destruct (Hrtt 10) as (q & Hq & Hten); [reflexivity|lia|].
    exists st'. eexists. exists q. split; [exact Hrun|].
    split; [exact Hecho|]. split; [exact Hq|exact Hten].
Defined.

Lemma own_reply_accepted_iff_pid_fits_witness :
  casePong (os := wire.platform 70000) init
    (wire.echoReply (Z.land 70000 65535) 1 0)
  = log "Ignoring packet from external process" init.
Proof.
  edestruct (own_reply_accepted_iff_pid_fits (os := wire.platform 70000)
               (wire.echoReply (Z.land 70000 65535) 1 0)) with (s := 1)
    as [_ Hout].
  - vm_compute. reflexivity.
  - vm_compute. reflexivity.
  - vm_compute. reflexivity.
  - vm_compute. reflexivity.
  - vm_compute. reflexivity.
  - apply Hout. simpl. lia.
Defined.

(** ** The channels of the attempts *)

Section channels.

Context `{os : Platform}.

Hypothesis codec : echoBodies.

Lemma casePong_outcome st ri :
  (seq (casePong st ri) = seq st ∧ pingmap (casePong st ri) = pingmap st
   ∧ chans (casePong st ri) = chans st ∧ gos (casePong st ri) = gos st
   ∧ sent (casePong st ri) = sent st ∧ echoed (casePong st ri) = echoed st
   ∧ panicked (casePong st ri) = panicked st)
  ∨ (validReply ri
     ∧ ∃ c, pingmap st !! seq st = Some c
            ∧ casePong st ri
              = set_pingmap (deliver c ri st) (delete (seq st) (pingmap st))).
Proof.
  unfold casePong, validReply.
  destruct (ParseMessage _ _) as [rm|] eqn:Hparse; [|by left].
  case_decide as Hty; [|by left].
  destruct (codec _ _ Hparse Hty) as [body Hbody]. rewrite Hbody.
  case_decide as Hid; [|by left].
  destruct (pingmap st !! seq st) as [c|]; [|by left].
  right. split; [by exists rm, body|]. by exists c.
Qed.

Lemma deliver_idle st c ri :
  chans st !! c = Some idleChan →
  deliver c ri st
  = set_chans st (<[c := {| buf := [ri]; closed := true |}]> (chans st)).
Proof. unfold deliver. by intros ->. Qed.

Lemma wired_step st e st' : wired st → step st e = Some st' → wired st'.
Proof.
  intros [Hp Hent Hinj Hwait Hdist]. unfold step. rewrite Hp.
  destruct e as [pi w|ri|i].
  - intros [= <-].
    destruct (casePing_cases st w) as [(dst & wb & Hres & Hm & Hw)|Hfail].
    + unfold casePing. rewrite (casePing_ok st pi w dst wb) by done.
      cbn [List.last]. split; simpl.
      * done.
      * intros k c Hk. apply lookup_insert_Some in Hk as [[_ <-]|[_ Hk]].
        -- apply lookup_snoc.
        -- apply lookup_app_l_Some. by eapply Hent.
      * intros k k' c Hk Hk'.
        apply lookup_insert_Some in Hk as [[<- <-]|[Hne Hk]];
          apply lookup_insert_Some in Hk' as [[<- Hc]|[Hne' Hk']]; try done.
        -- apply Hent in Hk'. by rewrite lookup_ge_None_2 in Hk' by lia.
        -- subst c. apply Hent in Hk. by rewrite lookup_ge_None_2 in Hk by lia.
        -- by eapply Hinj.
      * intros i pi' Hi. apply lookup_app_Some in Hi as [Hi|[_ Hi]].
        -- destruct (Hwait i pi' Hi) as (c & Hc & Hch). exists c.
           split; [done|].
           destruct Hch as [Hch|[ri Hch]]; [left|right; exists ri];
             by apply lookup_app_l_Some.
        -- apply list_lookup_singleton_Some in Hi as [_ [= <-]].
           eexists. split; [reflexivity|]. left. apply lookup_snoc.
      * assert (Hold : ∀ i pi', gos st !! i = Some (GoRecvPong pi') →
                         pongchan pi' ≠ Some (length (chans st))).
        { intros i pi' Hi Heq. destruct (Hwait i pi' Hi) as (c & Hc & Hch).
          assert (c = length (chans st)) as -> by congruence.
          destruct Hch as [Hch|[ri Hch]];
            by rewrite lookup_ge_None_2 in Hch by lia. }
        intros i j pi1 pi2 Hi Hj Heq.
        apply lookup_app_Some in Hi as [Hi|[Hi1 Hi]];
          apply lookup_app_Some in Hj as [Hj|[Hj1 Hj]].
        -- by eapply Hdist.
        -- apply list_lookup_singleton_Some in Hj as [_ [= <-]].
           simpl in Heq. by apply Hold in Hi.
        -- apply list_lookup_singleton_Some in Hi as [_ [= <-]].
           simpl in Heq. symmetry in Heq. by apply Hold in Hj.
        -- apply list_lookup_singleton_Some in Hi as [Hi _].
           apply list_lookup_singleton_Some in Hj as [Hj _]. lia.
    + destruct (casePing_failed st pi w Hfail) as (gs & msgs & -> & Hgs).
      split; simpl; try done.
      * intros i pi' Hi. apply lookup_waiting_app in Hi; [|done]. by eapply Hwait.
      * intros i j pi1 pi2 Hi Hj. apply lookup_waiting_app in Hi; [|done].
        apply lookup_waiting_app in Hj; [|done]. by eapply Hdist.
  - intros [= <-].
    destruct (casePong_outcome st ri)
      as [(Hs & Hm & Hc & Hg & _ & _ & Hp')|(_ & c & Hc & ->)].
    + split; rewrite ?Hm, ?Hc, ?Hg, ?Hp'; done.
    + pose proof (Hent _ _ Hc) as Hidle. rewrite (deliver_idle _ _ _ Hidle).
      split; simpl.
      * done.
      * intros k c' Hk. apply lookup_delete_Some in Hk as [Hne Hk].
        rewrite list_lookup_insert_ne; [by eapply Hent|].
        intros <-. apply Hne. by eapply Hinj.
      * intros k k' c' Hk Hk'. apply lookup_delete_Some in Hk as [_ Hk].
        apply lookup_delete_Some in Hk' as [_ Hk']. by eapply Hinj.
      * intros i pi Hi. destruct (Hwait i pi Hi) as (c' & Hc' & Hch).
        exists c'. split; [done|]. destruct (decide (c' = c)) as [->|Hne].
        -- right. exists ri. apply list_lookup_insert_eq.
           by eapply lookup_lt_Some.
        -- by rewrite list_lookup_insert_ne.
      * done.
  - unfold run_goroutine. destruct (gos st !! i) as [[pi|pi|]|] eqn:Hi; try done.
    + destruct (Hwait i pi Hi) as (c & Hc & Hch). rewrite Hc.
      destruct Hch as [Hch|[ri Hch]]; rewrite Hch; [done|]. intros [= <-].
      assert (Hother : ∀ j pj, gos st !! j = Some (GoRecvPong pj) → j ≠ i →
                         pongchan pj ≠ Some c).
      { intros j pj Hj Hne Heq. apply Hne. eapply Hdist; [done..|]. congruence. }
      split; simpl.
      * done.
      * intros k c' Hk. rewrite list_lookup_insert_ne; [by eapply Hent|].
        intros <-. apply Hent in Hk. unfold idleChan in Hk. congruence.
      * done.
      * intros j pj Hj.
        apply list_lookup_insert_Some in Hj as [(_ & Heq & _)|[Hne Hj]].
        { by destruct (EchoChannel pi). }
        destruct (Hwait j pj Hj) as (c' & Hc' & Hch'). exists c'.
        split; [done|]. rewrite list_lookup_insert_ne; [done|].
        intros <-. by eapply Hother.
      * intros j1 j2 p1 p2 Hj1 Hj2.
        apply list_lookup_insert_Some in Hj1 as [(_ & Heq & _)|[_ Hj1]].
        { by destruct (EchoChannel pi). }
        apply list_lookup_insert_Some in Hj2 as [(_ & Heq & _)|[_ Hj2]].
        { by destruct (EchoChannel pi). }
        by eapply Hdist.
    + intros [= <-]. split; simpl; try done.
      * intros j pj Hj.
        apply list_lookup_insert_Some in Hj as [(_ & Heq & _)|[_ Hj]]; [done|].
        by eapply Hwait.
      * intros j1 j2 p1 p2 Hj1 Hj2.
        apply list_lookup_insert_Some in Hj1 as [(_ & Heq & _)|[_ Hj1]]; [done|].
        apply list_lookup_insert_Some in Hj2 as [(_ & Heq & _)|[_ Hj2]]; [done|].
        by eapply Hdist.
Qed.

Lemma wired_init : wired init.
Proof. split; done. Qed.

Lemma wired_run evs : ∀ st st', wired st → run st evs = Some st' → wired st'.
Proof.
  induction evs as [|e evs IH]; intros st st' Hw; simpl.
  - by intros [= <-].
  - destruct (step st e) as [st1|] eqn:He; [|done].
    apply IH. by eapply wired_step.
Qed.

End channels.

Lemma wire_echoBodies pid : echoBodies (os := wire.platform pid).
Proof.
  intros b rm. simpl. unfold wire.ParseMessage.
  destruct b as [|t [|c [|k1 [|k2 body]]]]; try done.
  case_decide as Hty.
  - destruct body as [|i1 [|i2 [|s1 [|s2 data]]]]; try done.
    intros [= <-] _. simpl. eauto.
  - intros [= <-]. simpl. intros [= Heq]. tauto.
Qed.

Section never.

Context `{os : Platform}.

(** X15.  The coordinator never panics, provided the codec gives every
    echo reply an echo body: the channel of an entry of the table has
    never been sent on or closed, so the send and the close of lines
    150-151 succeed, and no goroutine receives from a channel that was
    closed empty. *)
Theorem coordinator_never_panics (evs : list event) (st : state) :
  echoBodies →
  run init evs = Some st →
  panicked st = false
  ∧ (∀ e st', step st e = Some st' → panicked st' = false)
  ∧ (∀ k c, pingmap st !! k = Some c →
            chans st !! c = Some {| buf := []; closed := false |}).
Proof.
  intros Hcodec Hrun.
  pose proof (wired_run Hcodec evs init st wired_init Hrun) as Hw.
  split; [apply (wired_panicked _ Hw)|]. split.
  - intros e st' He. apply (wired_panicked st').
    by eapply wired_step.
  - apply (wired_entries _ Hw).
Qed.

Lemma overtaken_run s c i pi evs : ∀ n st st',
  echoBodies →
  numbered n st → wired st → run st evs = Some st' →
  n + pings evs < 2 ^ 63 →
  pingmap st !! s = Some c → s < n →
  gos st !! i = Some (GoRecvPong pi) → pongchan pi = Some c →
  gos st' !! i = Some (GoRecvPong pi) ∧ pingmap st' !! s = Some c
  ∧ wired st'.
Proof.
  induction evs as [|e evs IH]; intros n st st' Hcodec Hn Hw; simpl.
  - by intros [= <-].
  - destruct (step st e) as [st1|] eqn:He; [|done]. intros Hrun.
    rewrite pings_cons. intros Hlt Hs Hsn Hi Hc.
    pose proof (pings_nonneg evs). pose proof (pings_nonneg [e]).
    assert (Hn1 : numbered (n + pings [e]) st1).
    { eapply numbered_step; [exact Hn|exact He|lia]. }
    assert (Hw1 : wired st1) by (by eapply wired_step).
    assert (Hs1 : pingmap st1 !! s = Some c).
    { apply (stale_entry_stays [e] n st st1 s c Hn);
        [simpl; by rewrite He|lia|done|done]. }
    assert (Hi1 : gos st1 !! i = Some (GoRecvPong pi)).
    { unfold step in He. rewrite (wired_panicked _ Hw) in He.
      destruct e as [pi0 w|ri|j].
      - injection He as <-.
        destruct (casePing_cases st w) as [(dst & wb & Hres & Hm & Hwr)|Hfail].
        + unfold casePing. rewrite (casePing_ok st pi0 w dst wb) by done.
          simpl. by apply lookup_app_l_Some.
        + destruct (casePing_failed st pi0 w Hfail) as (gs & msgs & -> & _).
          simpl. by apply lookup_app_l_Some.
      - injection He as <-.
        destruct (casePong_fields st ri) as (_ & -> & _). done.
      - unfold run_goroutine in He.
        destruct (decide (j = i)) as [->|Hne].
        + rewrite Hi, Hc, (wired_entries _ Hw _ _ Hs) in He. done.
        + destruct (gos st !! j) as [[pj|pj|]|]; try done.
          * destruct (pongchan pj) as [cj|]; [|done].
            destruct (chans st !! cj) as [[[|rj rest] [|]]|]; try done;
              injection He as <-; simpl; try done;
              by rewrite list_lookup_insert_ne.
          * injection He as <-. simpl. by rewrite list_lookup_insert_ne. }
    apply (IH (n + pings [e]) st1 st' Hcodec Hn1 Hw1 Hrun); [lia|done|lia|done..].
Qed.

(** X16.  An attempt that a later send has overtaken is never answered:
    its entry stays in the table, nothing is ever put on its channel,
    and its goroutine has no step, whatever follows. *)
Theorem overtaken_attempt_never_answered (evs1 evs2 : list event)
    (st1 st2 : state) (s : Z) (c i : nat) (pi : Ping) :
  echoBodies →
  run init evs1 = Some st1 →
  gos st1 !! i = Some (GoRecvPong pi) →
  pongchan pi = Some c →
  pingmap st1 !! s = Some c →
  s < seq st1 →
  run st1 evs2 = Some st2 →
  pings (evs1 ++ evs2) < 2 ^ 63 →
  gos st2 !! i = Some (GoRecvPong pi)
  ∧ pingmap st2 !! s = Some c
  ∧ step st2 (Run i) = None.
Proof.
  intros Hcodec Hrun1 Hi Hc Hs Hlt Hrun2 Hp.
  assert (Hp' : pings evs1 + pings evs2 < 2 ^ 63).
  { unfold pings in *. rewrite List.filter_app, length_app in Hp. lia. }
  pose proof (pings_nonneg evs2).
  pose proof (numbered_run evs1 0 init st1 numbered_init Hrun1 ltac:(lia)) as Hn.
  pose proof (wired_run Hcodec evs1 init st1 wired_init Hrun1) as Hw.
  rewrite Z.add_0_l in Hn.
  rewrite (numbered_seq _ _ Hn) in Hlt.
  destruct (overtaken_run s c i pi evs2 (pings evs1) st1 st2)
    as (Hi2 & Hs2 & Hw2); try done.
  split; [done|]. split; [done|].
  unfold step, run_goroutine.
  rewrite (wired_panicked _ Hw2), Hi2, Hc, (wired_entries _ Hw2 _ _ Hs2).
  done.
Qed.

End never.

Lemma coordinator_never_panics_witness :
  ∃ st, run (os := scenario.os) init scenario.roundTrip = Some st
        ∧ panicked st = false.
Proof.
  eexists. split; [vm_compute; reflexivity|].
  refine (proj1 (coordinator_never_panics (os := scenario.os)
                   scenario.roundTrip _ (wire_echoBodies 4242) _)).
  vm_compute. reflexivity.
Defined.

Lemma overtaken_attempt_never_answered_witness :
  ∃ st1 st2,
    run (os := scenario.os) init scenario.twoPings = Some st1
    ∧ run (os := scenario.os) st1
        [PongRecv (wire.echoReply 4242 1 (scenario.ms 1500))] = Some st2
    ∧ step (os := scenario.os) st2 (Run 0) = None.
Proof.
  do 2 eexists. split; [vm_compute; reflexivity|].
  split; [vm_compute; reflexivity|].
  refine (proj2 (proj2
            (overtaken_attempt_never_answered (os := scenario.os)
               scenario.twoPings
               [PongRecv (wire.echoReply 4242 1 (scenario.ms 1500))]
               _ _ 1 0%nat 0%nat _ (wire_echoBodies 4242) _ _ _ _ _ _ _)));
    vm_compute; reflexivity.
Defined.

(** ** Pings in hand *)

Section conservation.

Context `{os : Platform}.

Lemma casePing_failed_echo st pi w ch :
  resolved w = None ∨ Marshal (echoRequest (int_wrap (seq st + 1))) = None
  ∨ written w = false →
  EchoChannel pi = Some ch →
  ∃ pi',
    EchoChannel pi' = Some ch
    ∧ gos (casePing st pi w) = gos st ++ [GoSendEcho pi']
    ∧ echoed (casePing st pi w) = echoed st.
Proof.
  intros Hfail Hch. unfold casePing, casePing_points, sendMessage.
  cbn [seq set_seq Seq set_Seq sent].
  destruct (resolved w) as [dst|] eqn:Hres.
  - destruct (Marshal _) as [wb|] eqn:Hm.
    + destruct (written w) eqn:Hw; [destruct Hfail as [?|[?|?]]; discriminate|].
      cbn. rewrite Hch. cbn. eexists. split; [|split; reflexivity]. done.
    + cbn. rewrite Hch. cbn. eexists. split; [|split; reflexivity]. done.
  - cbn. rewrite Hch. cbn. eexists. split; [|split; reflexivity]. done.
Qed.

Lemma conserved_step n st e st' :
  conserved n st → reporting e → step st e = Some st' →
  conserved (n + pings [e]) st'.
Proof.
  intros [Hrep Hsum] He. unfold step. destruct (panicked st); [done|].
  destruct e as [pi w|ri|i].
  - intros [= <-]. change (pings [PingRecv pi w]) with 1. simpl in He.
    destruct (EchoChannel pi) as [ch|] eqn:Hch; [|done].
    destruct (casePing_cases st w) as [(dst & wb & Hres & Hm & Hwr)|Hfail].
    + unfold casePing. rewrite (casePing_ok st pi w dst wb) by done.
      cbn [List.last]. split; simpl.
      * apply Forall_app. split; [done|]. apply Forall_singleton. simpl.
        by rewrite Hch.
      * rewrite filter_length_snoc. simpl. lia.
    + destruct (casePing_failed_echo st pi w ch Hfail Hch)
        as (pi' & Hch' & Hg & Hecho).
      split; rewrite ?Hg, ?Hecho.
      * apply Forall_app. split; [done|]. apply Forall_singleton. simpl.
        by rewrite Hch'.
      * rewrite filter_length_snoc. simpl. lia.
  - intros [= <-]. change (pings [PongRecv ri]) with 0. rewrite Z.add_0_r.
    destruct (casePong_fields st ri) as (_ & Hg & _ & _).
    assert (Hecho : echoed (casePong st ri) = echoed st).
    { unfold casePong. repeat case_match; try done.
      unfold deliver. repeat case_match; done. }
    split; by rewrite ?Hg, ?Hecho.
  - change (pings [Run i]) with 0. rewrite Z.add_0_r.
    unfold run_goroutine.
    destruct (gos st !! i) as [[pi|pi|]|] eqn:Hi; try done.
    + pose proof (Forall_lookup_1 _ _ _ _ Hrep Hi) as Hpi. simpl in Hpi.
      destruct (pongchan pi) as [c|]; [|done].
      destruct (chans st !! c) as [[[|rj rest] [|]]|]; try done;
        intros [= <-]; try (by split); simpl;
        destruct (EchoChannel pi) as [ch|] eqn:Hch; try done.
      * split; simpl.
        -- apply Forall_insert; [done|]. simpl. by rewrite Hch.
        -- rewrite (filter_length_insert _ _ _ _ _ Hi). simpl. lia.
      * split; simpl.
        -- apply Forall_insert; [done|]. simpl. by rewrite Hch.
        -- rewrite (filter_length_insert _ _ _ _ _ Hi). simpl. lia.
    + intros [= <-]. split; simpl.
      * by apply Forall_insert.
      * rewrite (filter_length_insert _ _ _ _ _ Hi), length_app. simpl. lia.
Qed.

Lemma conserved_run evs : ∀ n st st',
  conserved n st → Forall reporting evs → run st evs = Some st' →
  conserved (n + pings evs) st'.
Proof.
  induction evs as [|e evs IH]; intros n st st' Hc Hall; simpl.
  - intros [= <-]. change (pings []) with 0. by rewrite Z.add_0_r.
  - destruct (step st e) as [st1|] eqn:He; [|done]. intros Hrun.
    apply Forall_cons in Hall as [He' Hall].
    rewrite pings_cons, Z.add_assoc. eapply IH; [|done|exact Hrun].
    by eapply conserved_step.
Qed.

(** X17.  No ping is lost or handed back twice: when every ping taken
    has an [EchoChannel], the pings handed back and the goroutines that
    still hold one always add up to the pings taken. *)
Theorem no_ping_lost_or_doubled (evs : list event) (st : state) :
  Forall reporting evs →
  run init evs = Some st →
  Z.of_nat (length (echoed st))
  + Z.of_nat (length (List.filter live (gos st))) = pings evs
  ∧ Forall reports (gos st).
Proof.
  intros Hall Hrun.
  destruct (conserved_run evs 0 init st) as [Hrep Hsum]; [|done|done|].
  - split; [constructor|done].
  - split; [by rewrite Hsum|done].
Qed.

End conservation.

Lemma no_ping_lost_or_doubled_witness :
  ∃ st, run (os := scenario.os) init scenario.roundTrip = Some st
        ∧ Z.of_nat (length (echoed st))
          + Z.of_nat (length (List.filter live (gos st))) = 1.
Proof.
  eexists. split; [vm_compute; reflexivity|].
  refine (proj1 (no_ping_lost_or_doubled (os := scenario.os)
                   scenario.roundTrip _ _ _)).
  - repeat constructor; vm_compute; congruence.
  - vm_compute. reflexivity.
Defined.

(** ** Sequence numbers *)

Section numbering.

Context `{os : Platform}.

Lemma casePing_failed_gos st pi w :
  resolved w = None ∨ Marshal (echoRequest (int_wrap (seq st + 1))) = None
  ∨ written w = false →
  ∃ pi',
    Seq pi' = int_wrap (seq st + 1)
    ∧ gos (casePing st pi w)
      = gos st ++ match EchoChannel pi with
                  | Some _ => [GoSendEcho pi']
                  | None => []
                  end
    ∧ echoed (casePing st pi w) = echoed st.
Proof.
  intros Hfail. unfold casePing, casePing_points, sendMessage.
  cbn [seq set_seq Seq set_Seq sent].
  destruct (resolved w) as [dst|] eqn:Hres.
  - destruct (Marshal _) as [wb|] eqn:Hm.
    + destruct (written w) eqn:Hw; [destruct Hfail as [?|[?|?]]; discriminate|].
      cbn. destruct (EchoChannel pi); cbn.
      * eexists. split; [|split; reflexivity]. done.
      * exists (set_Seq pi (int_wrap (seq st + 1))). rewrite app_nil_r. done.
    + cbn. destruct (EchoChannel pi); cbn.
      * eexists. split; [|split; reflexivity]. done.
      * exists (set_Seq pi (int_wrap (seq st + 1))). rewrite app_nil_r. done.
  - cbn. destruct (EchoChannel pi); cbn.
    + eexists. split; [|split; reflexivity]. done.
    + exists (set_Seq pi (int_wrap (seq st + 1))). rewrite app_nil_r. done.
Qed.

Lemma echoed_casePong st ri : echoed (casePong st ri) = echoed st.
Proof.
  unfold casePong. repeat case_match; try done.
  unfold deliver. repeat case_match; done.
Qed.

Lemma numbers_step n st e st' :
  seq st = n → 0 <= n → n + pings [e] < 2 ^ 63 →
  NoDup (numbers st) → Forall (λ s, 1 <= s <= n) (numbers st) →
  step st e = Some st' →
  NoDup (numbers st') ∧ Forall (λ s, 1 <= s <= n + pings [e]) (numbers st').
Proof.
  intros Hseq Hn Hlt Hnd Hall. unfold step. destruct (panicked st); [done|].
  assert (Hfresh : ∀ m, m = n + 1 → m ∉ numbers st).
  { intros m -> Hin. rewrite Forall_forall in Hall. apply Hall in Hin. lia. }
  assert (Hweak : Forall (λ s, 1 <= s <= n + 1) (numbers st)).
  { eapply Forall_impl; [exact Hall|]. simpl. lia. }
  unfold numbers in *.
  destruct e as [pi w|ri|i].
  - intros [= <-]. change (pings [PingRecv pi w]) with 1 in *.
    assert (Hw : int_wrap (seq st + 1) = n + 1)
      by (rewrite Hseq; apply int_wrap_small; lia).
    destruct (casePing_cases st w) as [(dst & wb & Hres & Hm & Hwr)|Hfail].
    + unfold casePing. rewrite (casePing_ok st pi w dst wb) by done.
      cbn [List.last]. simpl. rewrite omap_app. simpl. rewrite Hw.
      rewrite <- app_assoc. simpl.
      split.
      * rewrite <- Permutation_middle. constructor; [by apply Hfresh|done].
      * rewrite <- Permutation_middle. constructor; [lia|done].
    + destruct (casePing_failed_gos st pi w Hfail) as (pi' & Hs' & -> & ->).
      destruct (EchoChannel pi).
      * rewrite omap_app. simpl. rewrite Hs', Hw, <- app_assoc. simpl.
        split.
        -- rewrite <- Permutation_middle. constructor; [by apply Hfresh|done].
        -- rewrite <- Permutation_middle. constructor; [lia|done].
      * rewrite app_nil_r. done.
  - intros [= <-]. change (pings [PongRecv ri]) with 0. rewrite Z.add_0_r.
    destruct (casePong_fields st ri) as (_ & -> & _ & _).
    by rewrite echoed_casePong.
  - change (pings [Run i]) with 0. rewrite Z.add_0_r.
    unfold run_goroutine.
    destruct (gos st !! i) as [[pi|pi|]|] eqn:Hi; try done.
    + destruct (pongchan pi) as [c|]; [|done].
      destruct (chans st !! c) as [[[|rj rest] [|]]|]; try done;
        intros [= <-]; try done; simpl.
      * pose proof (omap_insert_perm held (gos st) i _
                      (match EchoChannel pi with
                       | Some _ =>
                           GoSendEcho
                             (set_Pong pi {| Rtt := rtt pi rj; Err := None |})
                       | None => GoEnd
                       end) Hi) as Hperm.
        simpl in Hperm. destruct (EchoChannel pi); simpl in Hperm.
        -- apply Permutation_cons_inv in Hperm. by rewrite <- Hperm.
        -- rewrite Hperm in Hnd, Hall. simpl in *.
           apply NoDup_cons in Hnd as [_ Hnd].
           apply Forall_cons in Hall as [_ Hall]. done.
      * pose proof (omap_insert_perm held (gos st) i _
                      (match EchoChannel pi with
                       | Some _ =>
                           GoSendEcho
                             (set_Pong pi {| Rtt := rtt pi rj; Err := None |})
                       | None => GoEnd
                       end) Hi) as Hperm.
        simpl in Hperm. destruct (EchoChannel pi); simpl in Hperm.
        -- apply Permutation_cons_inv in Hperm. by rewrite <- Hperm.
        -- rewrite Hperm in Hnd, Hall. simpl in *.
           apply NoDup_cons in Hnd as [_ Hnd].
           apply Forall_cons in Hall as [_ Hall]. done.
    + intros [= <-]. simpl.
      pose proof (omap_insert_perm held (gos st) i _ GoEnd Hi) as Hperm.
      simpl in Hperm. rewrite fmap_app. simpl.
      assert (Hp : omap held (<[i:=GoEnd]> (gos st))
                   ++ (Seq <$> echoed st) ++ [Seq pi]
                   ≡ₚ omap held (gos st) ++ (Seq <$> echoed st)).
      { rewrite Hperm. simpl. rewrite app_assoc.
        by rewrite <- Permutation_cons_append. }
      by rewrite Hp.
Qed.

Lemma numbers_run evs : ∀ n st st',
  numbered n st → n + pings evs < 2 ^ 63 →
  NoDup (numbers st) → Forall (λ s, 1 <= s <= n) (numbers st) →
  run st evs = Some st' →
  NoDup (numbers st') ∧ Forall (λ s, 1 <= s <= n + pings evs) (numbers st').
Proof.
  induction evs as [|e evs IH]; intros n st st' Hn Hlt Hnd Hall; simpl.
  - intros [= <-]. change (pings []) with 0. by rewrite Z.add_0_r.
  - destruct (step st e) as [st1|] eqn:He; [|done]. intros Hrun.
    rewrite pings_cons in *.
    pose proof (pings_nonneg evs). pose proof (pings_nonneg [e]).
    destruct (numbers_step n st e st1 (numbered_seq _ _ Hn)
                (numbered_nonneg _ _ Hn) ltac:(lia) Hnd Hall He) as [Hnd1 Hall1].
    rewrite Z.add_assoc. eapply IH; [|lia|done|done|exact Hrun].
    eapply numbered_step; [exact Hn|exact He|lia].
Qed.

(** X19.  Sequence numbers never repeat: while the [int] counter has
    not overflowed, the pings that goroutines hold and the pings handed
    back all carry different sequence numbers, each between 1 and the
    number of pings taken. *)
Theorem sequence_numbers_never_repeat (evs : list event) (st : state) :
  run init evs = Some st →
  pings evs < 2 ^ 63 →
  NoDup (numbers st)
  ∧ Forall (λ s, 1 <= s <= pings evs) (numbers st).
Proof.
  intros Hrun Hlt.
  destruct (numbers_run evs 0 init st numbered_init) as [Hnd Hall];
    [lia|constructor|constructor|done|].
  by rewrite Z.add_0_l in Hall.
Qed.

End numbering.

Lemma sequence_numbers_never_repeat_witness :
  ∃ st, run (os := scenario.os) init scenario.twoPings = Some st
        ∧ NoDup (numbers st).
Proof.
  eexists. split; [vm_compute; reflexivity|].
  refine (proj1 (sequence_numbers_never_repeat (os := scenario.os)
                   scenario.twoPings _ _ _)).
  - vm_compute. reflexivity.
  - vm_compute. reflexivity.
Defined.

(** ** Successes *)

Lemma buffered_snoc cs ch :
  buffered (cs ++ [ch]) = buffered cs + Z.of_nat (length (buf ch)).
Proof. induction cs as [|a cs IH]; simpl; lia. Qed.

Lemma buffered_insert cs c ch ch' :
  cs !! c = Some ch →
  buffered (<[c:=ch']> cs)
  = buffered cs - Z.of_nat (length (buf ch)) + Z.of_nat (length (buf ch')).
Proof.
  revert c. induction cs as [|a cs IH]; intros [|c] Hc; simpl in *; try done.
  - injection Hc as ->. lia.
  - rewrite (IH c Hc). lia.
Qed.

Section success.

Context `{os : Platform}.

Lemma passes_validReply ri : passes ri = true ↔ validReply ri.
Proof.
  unfold passes, validReply. split.
  - destruct (ParseMessage _ _) as [rm|]; [|done].
    intros [Hty Hb]%andb_prop. apply bool_decide_eq_true in Hty.
    destruct (icmp.Body rm) as [|body|] eqn:Hbody; try done.
    apply bool_decide_eq_true in Hb. by exists rm, body.
  - intros (rm & body & -> & Hty & -> & Hid).
    by rewrite !bool_decide_eq_true_2.
Qed.

Lemma replies_cons e evs : replies (e :: evs) = replies [e] + replies evs.
Proof.
  unfold replies. simpl.
  destruct (match e with PongRecv ri => passes ri | _ => false end);
    simpl; lia.
Qed.

Lemma replies_nonneg evs : 0 <= replies evs.
Proof. unfold replies. lia. Qed.

Lemma successes_casePing st pi w : successes (casePing st pi w) = successes st.
Proof.
  unfold successes.
  destruct (casePing_cases st w) as [(dst & wb & Hres & Hm & Hw)|Hfail].
  - unfold casePing. rewrite (casePing_ok st pi w dst wb) by done.
    cbn [List.last]. simpl. rewrite filter_length_snoc, buffered_snoc.
    simpl. lia.
  - unfold casePing, casePing_points, sendMessage.
    cbn [seq set_seq Seq set_Seq sent].
    destruct (resolved w) as [dst|] eqn:Hres.
    + destruct (Marshal _) as [wb|] eqn:Hm.
      * destruct (written w) eqn:Hw;
          [destruct Hfail as [?|[?|?]]; discriminate|].
        cbn. destruct (EchoChannel pi); cbn; [|done].
        rewrite filter_length_snoc. unfold succeeding, succeeded.
        cbn [PingPong set_Pong Err].
        rewrite bool_decide_eq_false_2 by done. unfold buffered. simpl. lia.
      * cbn. destruct (EchoChannel pi); cbn; [|done].
        rewrite filter_length_snoc. unfold succeeding, succeeded.
        cbn [PingPong set_Pong Err].
        rewrite bool_decide_eq_false_2 by done. unfold buffered. simpl. lia.
    + cbn. destruct (EchoChannel pi); cbn; [|done].
      rewrite filter_length_snoc. unfold succeeding, succeeded.
      cbn [PingPong set_Pong Err].
      rewrite bool_decide_eq_false_2 by done. unfold buffered. simpl. lia.
Qed.

Lemma successes_casePong st ri :
  successes (casePong st ri) <= successes st + replies [PongRecv ri].
Proof.
  unfold replies. simpl. unfold passes, casePong, successes.
  destruct (ParseMessage _ _) as [rm|]; [|simpl; lia].
  case_decide as Hty; [|simpl; lia].
  rewrite bool_decide_eq_true_2 by done.
  destruct (icmp.Body rm) as [|body|]; try (simpl; lia).
  case_decide as Hid; [|simpl; lia].
  rewrite bool_decide_eq_true_2 by done.
  destruct (pingmap st !! seq st) as [c|]; [|simpl; lia].
  unfold deliver. destruct (chans st !! c) as [ch|] eqn:Hc; [|simpl; lia].
  destruct (closed ch || _); simpl; [lia|].
  rewrite (buffered_insert _ _ _ _ Hc). simpl. rewrite length_app. simpl. lia.
Qed.

Lemma successes_run_goroutine st i st' :
  run_goroutine i st = Some st' → successes st' <= successes st.
Proof.
  unfold run_goroutine, successes.
  destruct (gos st !! i) as [[pi|pi|]|] eqn:Hi; try done.
  - destruct (pongchan pi) as [c|]; [|done].
    destruct (chans st !! c) as [[[|rj rest] [|]]|] eqn:Hc; try done;
      intros [= <-]; simpl; try lia;
      rewrite (buffered_insert _ _ _ _ Hc), (filter_length_insert _ _ _ _ _ Hi);
      simpl; destruct (EchoChannel pi); simpl; lia.
  - intros [= <-]. simpl.
    rewrite (filter_length_insert _ _ _ _ _ Hi), filter_length_snoc. simpl. lia.
Qed.

Lemma successes_run evs : ∀ st st',
  run st evs = Some st' → successes st' <= successes st + replies evs.
Proof.
  induction evs as [|e evs IH]; intros st st'; simpl.
  - intros [= <-]. change (replies []) with 0. lia.
  - destruct (step st e) as [st1|] eqn:He; [|done]. intros Hrun.
    rewrite replies_cons. specialize (IH st1 st' Hrun).
    assert (successes st1 <= successes st + replies [e]); [|lia].
    unfold step in He. destruct (panicked st); [done|].
    destruct e as [pi w|ri|i].
    + injection He as <-. rewrite successes_casePing.
      change (replies [PingRecv pi w]) with 0. lia.
    + injection He as <-. apply successes_casePong.
    + apply successes_run_goroutine in He.
      change (replies [Run i]) with 0. lia.
Qed.

(** X20.  Success needs a reply: the pings handed back without an error
    never outnumber the captures that passed the tests of the reader,
    and while no capture has passed them every ping handed back carries
    an error. *)
Theorem success_needs_a_reply (evs : list event) (st : state) :
  run init evs = Some st →
  Z.of_nat (length (List.filter succeeded (echoed st))) <= replies evs
  ∧ (replies evs = 0 →
     Forall (λ pi, Err (PingPong pi) ≠ None) (echoed st)).
Proof.
  intros Hrun. pose proof (successes_run evs init st Hrun) as Hle.
  unfold successes in Hle. simpl in Hle.
  assert (Hb : 0 <= buffered (chans st)).
  { generalize (chans st). intros cs. induction cs; simpl; lia. }
  split; [lia|]. intros H0. apply Forall_forall. intros pi Hin Herr.
  assert (In pi (List.filter succeeded (echoed st))).
  { apply List.filter_In. split; [by apply list_elem_of_In|].
    unfold succeeded. by apply bool_decide_eq_true. }
  destruct (List.filter succeeded (echoed st)); [done|simpl in Hle; lia].
Qed.

End success.

Lemma success_needs_a_reply_witness :
  ∃ st,
    run (os := scenario.os) init
      [PingRecv (scenario.ping "nowhere")
         {| resolved := None; now := 5; written := true |};
       Run 0] = Some st
    ∧ length (echoed st) = 1%nat
    ∧ Forall (λ pi, Err (PingPong pi) ≠ None) (echoed st).
Proof.
  eexists. split; [vm_compute; reflexivity|].
  split; [vm_compute; reflexivity|].
  refine (proj2 (success_needs_a_reply (os := scenario.os)
                   [PingRecv (scenario.ping "nowhere")
                      {| resolved := None; now := 5; written := true |};
                    Run 0] _ _) _).
  - vm_compute. reflexivity.
  - vm_compute. reflexivity.
Defined.

(** ** Entries and their attempts *)

Section entries.

Context `{os : Platform}.

Hypothesis codec : echoBodies.

Lemma attended_step st e st' :
  wired st → attended st → step st e = Some st' → attended st'.
Proof.
  intros Hw Hatt. unfold step. rewrite (wired_panicked _ Hw).
  destruct e as [pi w|ri|i].
  - intros [= <-].
    destruct (casePing_cases st w) as [(dst & wb & Hres & Hm & Hwr)|Hfail].
    + unfold casePing. rewrite (casePing_ok st pi w dst wb) by done.
      cbn [List.last]. intros k c. simpl. intros Hk.
      apply lookup_insert_Some in Hk as [[<- <-]|[_ Hk]].
      * exists (length (gos st)). eexists. split; [apply lookup_snoc|]. done.
      * destruct (Hatt k c Hk) as (i & pi' & Hi & Hc & Hs).
        exists i, pi'. split; [by apply lookup_app_l_Some|done].
    + destruct (casePing_failed st pi w Hfail) as (gs & msgs & -> & _).
      intros k c. simpl. intros Hk.
      destruct (Hatt k c Hk) as (i & pi' & Hi & Hc & Hs).
      exists i, pi'. split; [by apply lookup_app_l_Some|done].
  - intros [= <-]. intros k c Hk.
    destruct (casePong_fields st ri) as (_ & Hg & _ & Hm). rewrite Hg.
    apply (Hatt k c). destruct Hm as [Hm|[_ Hm]]; rewrite Hm in Hk; [done|].
    by apply lookup_delete_Some in Hk as [_ Hk].
  - intros Hrun k c Hk.
    destruct (run_goroutine_fields st i st' Hrun) as (_ & Hm & _ & Hg).
    rewrite Hm in Hk. destruct (Hatt k c Hk) as (j & pj & Hj & Hc & Hs).
    exists j, pj. split; [|done].
    destruct Hg as [->|(g & -> & _)]; [done|].
    rewrite list_lookup_insert_ne; [done|]. intros ->.
    unfold run_goroutine in Hrun.
    rewrite Hj, Hc, (wired_entries _ Hw _ _ Hk) in Hrun. done.
Qed.

Lemma attended_run evs : ∀ st st',
  wired st → attended st → run st evs = Some st' → attended st'.
Proof.
  induction evs as [|e evs IH]; intros st st' Hw Hatt; simpl.
  - by intros [= <-].
  - destruct (step st e) as [st1|] eqn:He; [|done].
    apply IH; [by eapply wired_step|by eapply attended_step].
Qed.

(** X21.  Every entry of the table has its attempt: provided the codec
    gives every echo reply an echo body, each entry belongs to a
    goroutine that waits on the channel of the entry, carries the key of
    the entry as its sequence number, and has no step until a capture
    is put on that channel. *)
Theorem every_entry_has_its_attempt (evs : list event) (st : state)
    (k : Z) (c : nat) :
  run init evs = Some st →
  pingmap st !! k = Some c →
  ∃ i pi,
    gos st !! i = Some (GoRecvPong pi)
    ∧ pongchan pi = Some c
    ∧ Seq pi = k
    ∧ step st (Run i) = None.
Proof.
  intros Hrun Hk.
  pose proof (wired_run codec evs init st wired_init Hrun) as Hw.
  assert (Hatt : attended st).
  { eapply attended_run; [apply wired_init| |exact Hrun]. by intros ? ? ?. }
  destruct (Hatt k c Hk) as (i & pi & Hi & Hc & Hs).
  exists i, pi. repeat (split; [done|]).
  unfold step, run_goroutine.
  by rewrite (wired_panicked _ Hw), Hi, Hc, (wired_entries _ Hw _ _ Hk).
Qed.

End entries.

Lemma every_entry_has_its_attempt_witness :
  ∃ st, run (os := scenario.os) init scenario.twoPings = Some st
        ∧ ∃ i pi, gos st !! i = Some (GoRecvPong pi) ∧ Seq pi = 2.
Proof.
  eexists. split; [vm_compute; reflexivity|].
  edestruct (every_entry_has_its_attempt (os := scenario.os)
               (wire_echoBodies 4242) scenario.twoPings)
    with (k := 2) (c := 1%nat) as (i & pi & Hi & _ & Hs & _).
  - vm_compute. reflexivity.
  - vm_compute. reflexivity.
  - exists i, pi. split; [exact Hi|exact Hs].
Defined.

End ggping_facts.
